(** * Dynamic highlights: the selection scanner and the static scanner

    A shallow embedding of the two view plugins of the repository,
    [matchHighlighter] (the selection / word-under-caret highlighter) and
    [staticHighlighter] (the rule-driven highlighter with its decoration
    pool), followed by the properties the specification states about them.

    Conventions.  JavaScript strings are [string]; document offsets are
    [nat]; configuration numbers and delays are [Z].  Objects of the host
    editor are records whose methods are fields ([wordAt], [charCategorizer],
    [syntaxNodeProps]); the host's literal search cursor is given by its
    documented behaviour.  Timers are outside the model: the scheduler is
    represented by the delays it computes.

    Text.  The string primitives ([toLowerCase], [trim], the matching of
    the search cursor) are written for ASCII text, on which the host's
    Unicode case mapping, white space and compatibility normalization
    (NFKD) do exactly what is written here.  A property that depends on
    how text is folded, trimmed or matched is stated for ASCII documents
    ([JS.isASCII]); the others hold whatever these primitives do. *)

From Stdlib Require Import List String Ascii ZArith Lia Bool Arith PeanoNat.
From Stdlib Require Import Sorted Permutation.
Import ListNotations.
Local Open Scope string_scope.
Local Open Scope nat_scope.

Set Implicit Arguments.

(* ================================================================== *)
(** ** JavaScript string primitives *)
(* ================================================================== *)

Module JS.

(** [s.slice(from, to)] for [0 <= from]; empty when [to <= from]. *)
Definition slice (s : string) (from to : nat) : string :=
  substring from (to - from) s.

Definition lower_char (c : ascii) : ascii :=
  let n := nat_of_ascii c in
  if (65 <=? n) && (n <=? 90) then ascii_of_nat (n + 32) else c.

(** The strings on which the primitives below are the host's: every
    character is below 128. *)
Fixpoint isASCII (s : string) : bool :=
  match s with
  | EmptyString => true
  | String c s' => (nat_of_ascii c <? 128) && isASCII s'
  end.

(** [s.toLowerCase()] of an ASCII string: the letters A-Z are folded. *)
Fixpoint toLowerCase (s : string) : string :=
  match s with
  | EmptyString => EmptyString
  | String c s' => String (lower_char c) (toLowerCase s')
  end.

(** The white space [trim] strips from an ASCII string: tab, line feed,
    vertical tab, form feed, carriage return and space. *)
Definition is_space (c : ascii) : bool :=
  let n := nat_of_ascii c in
  ((9 <=? n) && (n <=? 13)) || (n =? 32).

Fixpoint trimStart (s : string) : string :=
  match s with
  | EmptyString => EmptyString
  | String c s' => if is_space c then trimStart s' else s
  end.

(** Drops the white space at the end: a character is kept when it is not
    white space or something is kept after it. *)
Fixpoint trimEnd (s : string) : string :=
  match s with
  | EmptyString => EmptyString
  | String c s' =>
      match trimEnd s' with
      | EmptyString => if is_space c then EmptyString else String c EmptyString
      | r => String c r
      end
  end.

Definition trim (s : string) : string := trimEnd (trimStart s).

(** [s.split(sep)] for a one-character separator: the current piece is
    accumulated in [cur]. *)
Fixpoint split_aux (sep : ascii) (s : string) (cur : string) : list string :=
  match s with
  | EmptyString => [cur]
  | String c s' =>
      if Ascii.eqb c sep then cur :: split_aux sep s' EmptyString
      else split_aux sep s' (cur ++ String c EmptyString)
  end.

Definition split (sep : ascii) (s : string) : list string :=
  split_aux sep s EmptyString.

(** [arr.includes(x)] / [set.has(x)] on strings. *)
Definition includes (l : list string) (x : string) : bool :=
  existsb (String.eqb x) l.

(** [arr.join(sep)]. *)
Fixpoint join (sep : string) (l : list string) : string :=
  match l with
  | [] => EmptyString
  | [x] => x
  | x :: rest => x ++ sep ++ join sep rest
  end.

End JS.

(* ================================================================== *)
(** ** The host editor: documents, selections, decorations, search *)
(* ================================================================== *)

Module Editor.

Inductive CharCategory := Word | Space | Other.

Definition CharCategory_eqb (a b : CharCategory) : bool :=
  match a, b with
  | Word, Word | Space, Space | Other, Other => true
  | _, _ => false
  end.

(** A selection range is an anchor and a head; [from] and [to] are their
    minimum and maximum. *)
Record SelectionRange := mkRange { anchor : nat; head : nat }.

Definition from (r : SelectionRange) : nat := Nat.min (anchor r) (head r).
Definition to (r : SelectionRange) : nat := Nat.max (anchor r) (head r).
Definition empty (r : SelectionRange) : bool := from r =? to r.

Record EditorSelection := mkSelection {
  ranges : list SelectionRange;
  mainIndex : nat
}.

Definition main (sel : EditorSelection) : SelectionRange :=
  nth (mainIndex sel) (ranges sel) (mkRange 0 0).

(** A span of the document: a visible range or a reported match. *)
Record Span := mkSpan { sfrom : nat; sto : nat }.

Record IconWidget := mkIconWidget { className : option string }.

(** [Decoration.mark], [Decoration.line] and [Decoration.widget], with
    the specs they are built from. *)
Module Decoration.
Inductive t :=
| mark (class : string) (attributes : option (list (string * string)))
| line (attributes : list (string * string))
| widget (w : IconWidget).
End Decoration.

(** [decoration.range(from, to)]. *)
Record Range := mkDecoRange { rfrom : nat; rto : nat; value : Decoration.t }.

Definition DecorationSet := list Range.
Definition none : DecorationSet := [].

(** [decoration.range(from, to)]: a mark may not be empty, a line and a
    widget decoration must be; otherwise the host throws a [RangeError],
    whose message is given on the left. *)
Definition range (decoration : Decoration.t) (from to : nat) : string + Range :=
  match decoration with
  | Decoration.mark _ _ =>
      if to <=? from then inl "Mark decorations may not be empty"
      else inr (mkDecoRange from to decoration)
  | Decoration.line _ =>
      if from =? to then inr (mkDecoRange from to decoration)
      else inl "Line decoration ranges must be zero-length"
  | Decoration.widget _ =>
      if from =? to then inr (mkDecoRange from to decoration)
      else inl "Widget decorations can only have zero-length ranges"
  end.

(** *** The literal search cursor

    [new SearchCursor(text, query, from, to, normalize)] reports, from
    left to right, the places of [text] inside [from, to) that equal the
    query once both are normalized; [next] skips a place that overlaps
    the match reported before it.  An empty query matches nowhere.  The
    host normalizes text and query to NFKD before it applies [normalize];
    on ASCII text that changes nothing, and this is the cursor on ASCII
    text. *)

Definition matchesAt (normalize : string -> string) (text query : string)
           (to pos : nat) : bool :=
  (pos + String.length query <=? to) &&
  String.eqb (normalize (JS.slice text pos (pos + String.length query)))
             (normalize query).

(** [steps] positions remain to be visited from [pos]; the next [skip]
    of them lie inside the match reported last. *)
Fixpoint nextMatches (normalize : string -> string) (text query : string)
         (to : nat) (steps pos skip : nat) : list Span :=
  match steps with
  | O => []
  | S k =>
      match skip with
      | S j => nextMatches normalize text query to k (S pos) j
      | O =>
          if matchesAt normalize text query to pos
          then mkSpan pos (pos + String.length query)
               :: nextMatches normalize text query to k (S pos)
                              (String.length query - 1)
          else nextMatches normalize text query to k (S pos) 0
      end
  end.

Definition SearchCursor (text query : string) (from to : nat)
           (normalize : option (string -> string)) : list Span :=
  let norm := match normalize with Some f => f | None => fun s => s end in
  match query with
  | EmptyString => []
  | _ => nextMatches norm text query to (to - from) from 0
  end.

End Editor.

Module EditorState.
Import Editor.

(** The part of [EditorState] the plugins use.  [facet] is the value of
    the plugin's configuration facet; [wordAt], [charCategorizer] and
    [syntaxNodeProps] (the token classes of the innermost syntax node at
    a position) are host methods. *)
Record EditorState (Conf : Type) := mkState {
  doc : string;
  selection : EditorSelection;
  facet : Conf;
  wordAt : nat -> option SelectionRange;
  charCategorizer : nat -> string -> CharCategory;
  syntaxNodeProps : nat -> option string
}.

Definition sliceDoc {Conf} (state : EditorState Conf) (from to : nat) : string :=
  JS.slice (doc state) from to.

Record EditorView (Conf : Type) := mkView {
  state : EditorState Conf;
  visibleRanges : list Span
}.

(** *** A host for plain ASCII text, used to run the scanners *)

Definition isWordChar (c : ascii) : bool :=
  let n := nat_of_ascii c in
  ((48 <=? n) && (n <=? 57)) || ((65 <=? n) && (n <=? 90))
  || ((97 <=? n) && (n <=? 122)) || (n =? 95).

Definition asciiCategorizer (s : string) : CharCategory :=
  match s with
  | EmptyString => Space
  | String c _ =>
      if JS.is_space c then Space
      else if isWordChar c then Word else Other
  end.

Definition isWordAt (text : string) (pos : nat) : bool :=
  CharCategory_eqb (asciiCategorizer (JS.slice text pos (S pos))) Word.

Fixpoint wordStart (text : string) (pos : nat) : nat :=
  match pos with
  | O => O
  | S p => if isWordAt text p then wordStart text p else pos
  end.

Fixpoint wordEnd (text : string) (fuel pos : nat) : nat :=
  match fuel with
  | O => pos
  | S k => if isWordAt text pos then wordEnd text k (S pos) else pos
  end.

Definition asciiWordAt (text : string) (pos : nat) : option SelectionRange :=
  let s := wordStart text pos in
  let e := wordEnd text (String.length text - pos) pos in
  if s =? e then None else Some (mkRange s e).

Definition asciiState {Conf} (text : string) (sel : EditorSelection)
           (conf : Conf) (props : nat -> option string) : EditorState Conf :=
  {| doc := text; selection := sel; facet := conf;
     wordAt := asciiWordAt text;
     charCategorizer := fun _ => asciiCategorizer;
     syntaxNodeProps := props |}.

Definition cursorAt (pos : nat) : EditorSelection :=
  mkSelection [mkRange pos pos] 0.

Definition selected (a b : nat) : EditorSelection :=
  mkSelection [mkRange a b] 0.

End EditorState.

(* ================================================================== *)
(** ** The selection scanner ([matchHighlighter]) *)
(* ================================================================== *)

Module SelectionHighlighter.
Import Editor EditorState.

Record SelectionHighlightOptions := mkOptions {
  highlightWordAroundCursor : bool;
  highlightSelectedText : bool;
  minSelectionLength : Z;
  maxMatches : Z;
  ignoredWords : string;
  highlightDelay : Z
}.

Definition State := EditorState SelectionHighlightOptions.
Definition View := EditorView SelectionHighlightOptions.

(** The plugin object: its published decorations and the delay its
    debouncer was built with. *)
Record MatchHighlighter := mkPlugin {
  this_decorations : DecorationSet;
  this_highlightDelay : Z
}.

Record Transaction := mkTransaction { isUserEvent : string -> bool }.

Record ViewUpdate := mkUpdate {
  selectionSet : bool;
  docChanged : bool;
  viewportChanged : bool;
  transactions : list Transaction;
  view : View
}.

(** What [update] hands to the timers: the transitional clear, and the
    recompute with its delay, on the plugin's own debouncer or on a
    temporary one. *)
Record Scheduled := mkScheduled {
  clearAfter : Z;
  recomputeAfter : Z;
  temporaryDebouncer : bool
}.

Definition isTyping (update : ViewUpdate) : bool :=
  docChanged update
  && existsb (fun tr => isUserEvent tr "input.type") (transactions update).

Definition isScrolling (update : ViewUpdate) : bool :=
  viewportChanged update && negb (docChanged update)
  && negb (selectionSet update).

Definition effectiveDelay (this : MatchHighlighter) (update : ViewUpdate) : Z :=
  let effectiveDelay := this_highlightDelay this in
  let effectiveDelay :=
    if isScrolling update then Z.min (this_highlightDelay this) 100
    else effectiveDelay in
  let effectiveDelay :=
    if isTyping update then Z.max (this_highlightDelay this) 200
    else effectiveDelay in
  effectiveDelay.

Definition update (this : MatchHighlighter) (update : ViewUpdate)
  : option Scheduled :=
  if selectionSet update || docChanged update || viewportChanged update then
    let d := effectiveDelay this update in
    Some (mkScheduled 150 d (negb (d =? this_highlightDelay this)%Z))
  else None.

Definition visibleRangeSize (v : View) : Z :=
  fold_left (fun sum range => (sum + (Z.of_nat (sto range) - Z.of_nat (sfrom range)))%Z)
            (visibleRanges v) 0%Z.

Definition adaptiveDelay (v : View) : Z :=
  let baseDelay := highlightDelay (facet (state v)) in
  let docSize := Z.of_nat (String.length (doc (state v))) in
  let adaptiveDelay := baseDelay in
  let adaptiveDelay :=
    if (docSize >? 50000)%Z then Z.max baseDelay 300 else adaptiveDelay in
  let adaptiveDelay :=
    if (docSize >? 100000)%Z then Z.max baseDelay 500 else adaptiveDelay in
  let adaptiveDelay :=
    if (visibleRangeSize v >? 10000)%Z then (adaptiveDelay + 100)%Z
    else adaptiveDelay in
  adaptiveDelay.

Definition updateDebouncer (this : MatchHighlighter) (v : View)
  : MatchHighlighter :=
  mkPlugin (this_decorations this) (adaptiveDelay v).

Definition caseInsensitive (s : string) : string := JS.toLowerCase s.

(** The test of lines 162-166: no categorizer (string mode), or both
    neighbours of the occurrence are outside the word category, the ends
    of the document counting as such. *)
Definition accepted (check : option (string -> CharCategory)) (st : State)
           (from to : nat) : bool :=
  match check with
  | None => true
  | Some check =>
      ((from =? 0)
       || negb (CharCategory_eqb (check (sliceDoc st (from - 1) from)) Word))
      && ((to =? String.length (doc st))
          || negb (CharCategory_eqb (check (sliceDoc st to (to + 1))) Word))
  end.

Definition isSome {A} (o : option A) : bool :=
  match o with Some _ => true | None => false end.

(** Lines 167-180: the decoration pushed for an accepted occurrence, if
    any. *)
Definition classify (check : option (string -> CharCategory))
           (matchType : string) (range : SelectionRange) (st : State)
           (from to : nat) : option Range :=
  let string := JS.trim (sliceDoc st from to) in
  if isSome check && (from <=? Editor.from range) && (Editor.to range <=? to)
  then Some (mkDecoRange from to
               (Decoration.mark ("cm-current-" ++ matchType)
                     (Some [("data-contents", string)])))
  else if (Editor.to range <=? from) || (to <=? Editor.from range)
  then Some (mkDecoRange from to
               (Decoration.mark ("cm-matched-" ++ matchType)
                     (Some [("data-contents", string)])))
  else None.

Definition push (deco : list Range) (d : option Range) : list Range :=
  match d with
  | Some d => deco ++ [d]
  | None => deco
  end.

(** The [while (!cursor.next().done)] loop; [None] is the early
    [return Decoration.none] of line 181. *)
Fixpoint scanCursor (conf : SelectionHighlightOptions) (st : State)
         (check : option (string -> CharCategory)) (matchType : string)
         (range : SelectionRange) (cursor : list Span) (deco : list Range)
  : option (list Range) :=
  match cursor with
  | [] => Some deco
  | m :: rest =>
      if accepted check st (sfrom m) (sto m) then
        let deco := push deco (classify check matchType range st (sfrom m) (sto m)) in
        if (Z.of_nat (List.length deco) >? maxMatches conf)%Z then None
        else scanCursor conf st check matchType range rest deco
      else scanCursor conf st check matchType range rest deco
  end.

(** The [for (let part of view.visibleRanges)] loop. *)
Fixpoint scanRanges (conf : SelectionHighlightOptions) (st : State)
         (query : string) (check : option (string -> CharCategory))
         (matchType : string) (range : SelectionRange)
         (parts : list Span) (deco : list Range) : option (list Range) :=
  match parts with
  | [] => Some deco
  | part :: rest =>
      let cursor :=
        SearchCursor (doc st) query (sfrom part) (sto part) (Some caseInsensitive) in
      match scanCursor conf st check matchType range cursor deco with
      | None => None
      | Some deco => scanRanges conf st query check matchType range rest deco
      end
  end.

(** The query of a scan, its categorizer (word mode only) and its kind;
    [None] is an early [return Decoration.none] (lines 134-155). *)
Definition selectionQuery (v : View)
  : option (string * option (string -> CharCategory) * string) :=
  let conf := facet (state v) in
  let st := state v in
  let sel := selection st in
  if 1 <? List.length (ranges sel) then None else
  let range := main sel in
  if empty range then
    if negb (highlightWordAroundCursor conf) then None else
    match wordAt st (head range) with
    | None => None
    | Some word =>
        let check := charCategorizer st (head range) in
        let query := sliceDoc st (Editor.from word) (Editor.to word) in
        let ignored :=
          map (fun w => JS.trim (JS.toLowerCase w))
              (JS.split "," (ignoredWords conf)) in
        if JS.includes ignored (JS.toLowerCase query)
           || (Z.of_nat (String.length query) <? minSelectionLength conf)%Z
        then None
        else Some (query, Some check, "word")
    end
  else
    if negb (highlightSelectedText conf) then None else
    let len := (Z.of_nat (Editor.to range) - Z.of_nat (Editor.from range))%Z in
    if (len <? minSelectionLength conf)%Z || (len >? 200)%Z then None else
    let query := JS.trim (sliceDoc st (Editor.from range) (Editor.to range)) in
    match query with
    | EmptyString => None
    | _ => Some (query, None, "string")
    end.

Definition threshold (range : SelectionRange) : nat :=
  if empty range then 2 else 1.

Definition highlights (v : View) : DecorationSet :=
  let conf := facet (state v) in
  let st := state v in
  let range := main (selection st) in
  match selectionQuery v with
  | None => none
  | Some (query, check, matchType) =>
      match scanRanges conf st query check matchType range (visibleRanges v) [] with
      | None => none
      | Some deco =>
          if List.length deco <? threshold range then none else deco
      end
  end.

(** [getDeco]: line 131 rebuilds the debouncer when the plugin's delay
    differs from the configured one; the rest computes the decorations. *)
Definition getDeco (this : MatchHighlighter) (v : View)
  : MatchHighlighter * DecorationSet :=
  let conf := facet (state v) in
  let this :=
    if negb (this_highlightDelay this =? highlightDelay conf)%Z
    then updateDebouncer this v else this in
  (this, highlights v).

(** *** Running the scanner on ASCII text *)

(** [defaultHighlightOptions]; the list of ignored words is a constant
    imported from the settings. *)
Definition defaultHighlightOptions (ignoredWords : string)
  : SelectionHighlightOptions :=
  mkOptions true true 3 100 ignoredWords 0.

Definition textView (text : string) (sel : EditorSelection)
           (conf : SelectionHighlightOptions) (parts : list Span) : View :=
  mkView (asciiState text sel conf (fun _ => None)) parts.

Definition whole (text : string) : list Span := [mkSpan 0 (String.length text)].

Definition classOf (r : Range) : string :=
  match value r with
  | Decoration.mark c _ => c
  | _ => EmptyString
  end.

Definition summary (d : DecorationSet) : list (nat * nat * string) :=
  map (fun r => (rfrom r, rto r, classOf r)) d.

Definition withMaxMatches (m : Z) (v : View) : View :=
  let st := state v in
  let c := facet st in
  mkView (mkState (doc st) (selection st)
            (mkOptions (highlightWordAroundCursor c) (highlightSelectedText c)
                       (minSelectionLength c) m (ignoredWords c)
                       (highlightDelay c))
            (wordAt st) (charCategorizer st) (syntaxNodeProps st))
         (visibleRanges v).

(** *** The scan in closed form

    What the loops push when no cap stops them, and the occurrences they
    accept; used to state the properties of [getDeco]. *)

Definition optList {A} (o : option A) : list A :=
  match o with Some a => [a] | None => [] end.

Definition emit (check : option (string -> CharCategory)) (matchType : string)
           (range : SelectionRange) (st : State) (m : Span) : list Range :=
  if accepted check st (sfrom m) (sto m)
  then optList (classify check matchType range st (sfrom m) (sto m))
  else [].

Definition candidates (st : State) (query : string) (part : Span) : list Span :=
  SearchCursor (doc st) query (sfrom part) (sto part) (Some caseInsensitive).

Definition collected (st : State) (query : string)
           (check : option (string -> CharCategory)) (matchType : string)
           (range : SelectionRange) (parts : list Span) : list Range :=
  flat_map (fun part => flat_map (emit check matchType range st)
                                 (candidates st query part)) parts.

(** The mark pushed for the occurrence [m] under the class [cls]. *)
Definition decoAt (cls : string) (st : State) (m : Span) : Range :=
  mkDecoRange (sfrom m) (sto m)
    (Decoration.mark cls
       (Some [("data-contents", JS.trim (sliceDoc st (sfrom m) (sto m)))])).

(** [conf.ignoredWords] as the set line 146 builds. *)
Definition ignoredSet (conf : SelectionHighlightOptions) : list string :=
  map (fun w => JS.trim (JS.toLowerCase w)) (JS.split "," (ignoredWords conf)).

Definition occurrences (st : State) (query : string)
           (check : option (string -> CharCategory)) (parts : list Span)
  : list Span :=
  flat_map (fun part => filter (fun m => accepted check st (sfrom m) (sto m))
                               (candidates st query part)) parts.

End SelectionHighlighter.


(* ================================================================== *)
(** ** The static scanner ([staticHighlighter]) and its decoration pool *)
(* ================================================================== *)

Module StaticHighlighter.
Import Editor EditorState.

(** *** [JSON.stringify] of an attributes object *)

Definition hexDigit (n : nat) : ascii :=
  ascii_of_nat (if n <? 10 then 48 + n else 87 + n).

Definition escapeChar (c : ascii) : string :=
  let n := nat_of_ascii c in
  if n =? 34 then "\" ++ String c EmptyString
  else if n =? 92 then "\\"
  else if n =? 8 then "\b"
  else if n =? 9 then "\t"
  else if n =? 10 then "\n"
  else if n =? 12 then "\f"
  else if n =? 13 then "\r"
  else if n <? 32
       then "\u00" ++ String (hexDigit (n / 16)) (String (hexDigit (n mod 16)) EmptyString)
  else String c EmptyString.

Fixpoint escape (s : string) : string :=
  match s with
  | EmptyString => EmptyString
  | String c s' => escapeChar c ++ escape s'
  end.

Definition quote (s : string) : string :=
  String (ascii_of_nat 34) (escape s) ++ String (ascii_of_nat 34) EmptyString.

Definition JSON_stringify (o : list (string * string)) : string :=
  "{" ++ JS.join "," (map (fun kv => quote (fst kv) ++ ":" ++ quote (snd kv)) o)
      ++ "}".

(** *** A [Map<string, V>]: its entries in insertion order *)

Definition Map (V : Type) := list (string * V).

Fixpoint Map_get {V} (key : string) (m : Map V) : option V :=
  match m with
  | [] => None
  | (k, v) :: rest => if String.eqb k key then Some v else Map_get key rest
  end.

(** [map.set(key, v)]: a known key keeps its place. *)
Fixpoint Map_set {V} (key : string) (v : V) (m : Map V) : Map V :=
  match m with
  | [] => [(key, v)]
  | (k, v0) :: rest =>
      if String.eqb k key then (k, v) :: rest
      else (k, v0) :: Map_set key v rest
  end.

(** [arr.slice(-n)]: the last [n] elements. *)
Definition sliceLast {A} (n : nat) (l : list A) : list A :=
  skipn (List.length l - n) l.

(** *** Effects: the pool is threaded through, exceptions are values *)

Inductive Exn :=
| Error (message : string)
| TypeError (message : string)
| RangeError (message : string).

Definition Pool := Map Decoration.t.

Definition M (A : Type) : Type := Pool -> Pool * (Exn + A).

Definition ret {A} (a : A) : M A := fun pool => (pool, inr a).

Definition throw {A} (e : Exn) : M A := fun pool => (pool, inl e).

Definition bind {A B} (c : M A) (k : A -> M B) : M B :=
  fun pool =>
    match c pool with
    | (pool', inr a) => k a pool'
    | (pool', inl e) => (pool', inl e)
    end.

(** [try { body } catch (err) { handler }]: what the body did to the pool
    before it threw stays done. *)
Definition tryCatch {A} (body : M A) (handler : Exn -> M A) : M A :=
  fun pool =>
    match body pool with
    | (pool', inr a) => (pool', inr a)
    | (pool', inl e) => handler e pool'
    end.

Notation "x <- c ;; k" := (bind c (fun x => k))
  (at level 61, c at next level, right associativity).

(** [for (x of xs) acc = body(x, acc)]. *)
Fixpoint forEach {X A} (body : X -> A -> M A) (xs : list X) (acc : A) : M A :=
  match xs with
  | [] => ret acc
  | x :: rest => acc' <- body x acc ;; forEach body rest acc'
  end.

(** *** [DecorationPool] *)

Definition newDecoration (type className : string)
           (attributes : option (list (string * string)))
  : Exn + Decoration.t :=
  if String.eqb type "mark" then inr (Decoration.mark className attributes)
  else if String.eqb type "line"
       then inr (Decoration.line [("class", className)])
  else if String.eqb type "widget"
       then inr (Decoration.widget (mkIconWidget (Some className)))
  else inl (Error ("Unknown decoration type: " ++ type)).

Definition cacheKey (type className : string)
           (attributes : option (list (string * string))) : string :=
  type ++ "-" ++ className ++ "-"
       ++ JSON_stringify (match attributes with Some a => a | None => [] end).

(** [getDecoration]: the cached decoration of the key, created and stored
    first when the key is not in the cache. *)
Definition getDecoration (type className : string)
           (attributes : option (list (string * string))) : M Decoration.t :=
  fun pool =>
    let key := cacheKey type className attributes in
    match Map_get key pool with
    | Some decoration => (pool, inr decoration)
    | None =>
        match newDecoration type className attributes with
        | inl e => (pool, inl e)
        | inr decoration => (Map_set key decoration pool, inr decoration)
        end
    end.

(** [createRange]: a fresh [decoration.range(from, to)], which throws
    where the host refuses the range. *)
Definition createRange (decoration : Decoration.t) (from to : nat) : M Range :=
  fun pool =>
    match range decoration from to with
    | inl message => (pool, inl (RangeError message))
    | inr r => (pool, inr r)
    end.

Definition cleanup : M unit :=
  fun pool =>
    if 100 <? List.length pool then
      let entries := pool in
      (fold_left (fun cache kd => Map_set (fst kd) (snd kd) cache)
                 (sliceLast 50 entries) [], inr tt)
    else (pool, inr tt).

(** *** Rules and cursors *)

Record SearchQuery := mkQuery {
  query : string;
  class : string;
  color : option string;
  regex : bool;
  mark : option (list string)
}.

Record StaticHighlightOptions := mkStaticOptions {
  queries : list (string * SearchQuery);
  queryOrder : list string
}.

Definition State := EditorState StaticHighlightOptions.
Definition View := EditorView StaticHighlightOptions.

(** A value of a cursor: its span and, for a regular-expression cursor
    whose match records indices, the named groups with their spans (a
    group that took no part in the match has none). *)
Record CursorValue := mkValue {
  vfrom : nat;
  vto : nat;
  indicesGroups : option (list (string * option (nat * nat)))
}.

(** The signature of [new RegExpCursor(text, query, {}, from, to)], which
    throws on a pattern that does not compile. *)
Definition RegExpCursorT : Type :=
  string -> string -> nat -> nat -> Exn + list CursorValue.

(** [query.mark?.contains(mode)]. *)
Definition contains (mark : option (list string)) (mode : string) : bool :=
  match mark with
  | Some modes => JS.includes modes mode
  | None => false
  end.

Definition isSome {A} (o : option A) : bool :=
  match o with Some _ => true | None => false end.

(** [doc.lineAt(pos).from]: the offset after the last line break before
    [pos]. *)
Fixpoint lineStartFrom (text : string) (i start pos : nat) : nat :=
  match text with
  | EmptyString => start
  | String c rest =>
      if pos <=? i then start
      else lineStartFrom rest (S i)
                         (if nat_of_ascii c =? 10 then S i else start) pos
  end.

Definition lineAt_from (text : string) (pos : nat) : nat :=
  lineStartFrom text 0 0 pos.

(** Lines 186-190: the excluded token class of the syntax node at a
    position, if it has one. *)
Definition excludedSection (st : State) (pos : nat) : option string :=
  let nodeProps := syntaxNodeProps st pos in
  find (fun token =>
          match nodeProps with
          | Some props => JS.includes (JS.split " " props) token
          | None => false
          end)
       ["hmd-codeblock"; "hmd-frontmatter"].

(** *** The accumulators of a pass *)

Record Acc := mkAcc {
  tokenDecos : list Range;
  lineDecos : list Range;
  groupDecos : list Range;
  widgetDecos : list Range;
  lineClasses : list (nat * list string)
}.

Definition emptyAcc : Acc := mkAcc [] [] [] [] [].

Definition pushToken (r : Range) (a : Acc) : Acc :=
  mkAcc (tokenDecos a ++ [r]) (lineDecos a) (groupDecos a) (widgetDecos a)
        (lineClasses a).
Definition pushLine (r : Range) (a : Acc) : Acc :=
  mkAcc (tokenDecos a) (lineDecos a ++ [r]) (groupDecos a) (widgetDecos a)
        (lineClasses a).
Definition pushGroup (r : Range) (a : Acc) : Acc :=
  mkAcc (tokenDecos a) (lineDecos a) (groupDecos a ++ [r]) (widgetDecos a)
        (lineClasses a).
Definition pushWidget (r : Range) (a : Acc) : Acc :=
  mkAcc (tokenDecos a) (lineDecos a) (groupDecos a) (widgetDecos a ++ [r])
        (lineClasses a).

(** [lineClasses[linePos].push(cls)], creating the entry when absent; an
    object lists its integer keys in ascending order. *)
Fixpoint pushClass (linePos : nat) (cls : string)
         (lc : list (nat * list string)) : list (nat * list string) :=
  match lc with
  | [] => [(linePos, [cls])]
  | (pos, classes) :: rest =>
      if linePos =? pos then (pos, (classes ++ [cls])%list) :: rest
      else if linePos <? pos then (linePos, [cls]) :: lc
      else (pos, classes) :: pushClass linePos cls rest
  end.

Definition pushLineClass (linePos : nat) (cls : string) (a : Acc) : Acc :=
  mkAcc (tokenDecos a) (lineDecos a) (groupDecos a) (widgetDecos a)
        (pushClass linePos cls (lineClasses a)).

(** *** [getDeco] *)

(** Lines 213-221: one named group; a group without indices makes the
    destructuring throw and an empty group makes [createRange] throw,
    which the handler swallows. *)
Definition addGroup (linePos : nat) (group : string * option (nat * nat))
           (acc : Acc) : M Acc :=
  tryCatch
    (match group with
     | (groupName, Some (groupFrom, groupTo)) =>
         groupDeco <- getDecoration "mark" groupName None ;;
         r <- createRange groupDeco (linePos + groupFrom) (linePos + groupTo) ;;
         ret (pushGroup r acc)
     | (_, None) => throw (TypeError "undefined is not iterable")
     end)
    (fun err => ret acc).

(** Lines 183-222: the body of the [while] loop for one cursor value. *)
Definition addMatch (st : State) (q : SearchQuery) (v : CursorValue)
           (acc : Acc) : M Acc :=
  let from := vfrom v in
  let to := vto v in
  let string := JS.trim (sliceDoc st from to) in
  let linePos := lineAt_from (doc st) from in
  if isSome (excludedSection st (linePos + 1)) then ret acc else
  let acc :=
    if contains (mark q) "line" then pushLineClass linePos (class q) acc
    else acc in
  acc <- (if negb (isSome (mark q)) || contains (mark q) "match" then
            markDeco <- getDecoration "mark" (class q)
                                      (Some [("data-contents", string)]) ;;
            r <- createRange markDeco from to ;;
            ret (pushToken r acc)
          else ret acc) ;;
  acc <- (if contains (mark q) "start" || contains (mark q) "end" then
            startDeco <- getDecoration "widget" (class q ++ "-start") None ;;
            endDeco <- getDecoration "widget" (class q ++ "-end") None ;;
            acc <- (if contains (mark q) "start" then
                      r <- createRange startDeco from from ;;
                      ret (pushWidget r acc)
                    else ret acc) ;;
            (if contains (mark q) "end" then
               r <- createRange endDeco to to ;;
               ret (pushWidget r acc)
             else ret acc)
          else ret acc) ;;
  if contains (mark q) "group" then
    match indicesGroups v with
    | Some groups => forEach (addGroup linePos) groups acc
    | None => ret acc
    end
  else ret acc.

(** Lines 174-181: the cursor of a rule on a visible range; a literal
    cursor has no match data. *)
Definition newCursor (RegExpCursor : RegExpCursorT) (st : State)
           (part : Span) (q : SearchQuery) : Exn + list CursorValue :=
  if regex q then RegExpCursor (doc st) (query q) (sfrom part) (sto part)
  else inr (map (fun m => mkValue (sfrom m) (sto m) None)
                (SearchCursor (doc st) (query q) (sfrom part) (sto part) None)).

(** The two nested [for] loops, over any way of making cursors. *)
Definition scanQuery (cursorOf : Span -> SearchQuery -> Exn + list CursorValue)
           (st : State) (part : Span) (q : SearchQuery) (acc : Acc) : M Acc :=
  match cursorOf part q with
  | inl err => ret acc
  | inr cursor => forEach (addMatch st q) cursor acc
  end.

Definition scanPart (cursorOf : Span -> SearchQuery -> Exn + list CursorValue)
           (st : State) (qs : list SearchQuery) (part : Span) (acc : Acc)
  : M Acc :=
  forEach (scanQuery cursorOf st part) qs acc.

(** Lines 226-233. *)
Definition addLine (entry : nat * list string) (acc : Acc) : M Acc :=
  let (pos, classes) := entry in
  lineDeco <- getDecoration "line" (JS.join " " classes) None ;;
  r <- createRange lineDeco pos pos ;;
  ret (pushLine r acc).

(** [arr.sort((a, b) => a.from - b.from)]: the sort is stable, so its
    result is the one of a stable insertion. *)
Fixpoint insertByFrom (r : Range) (l : list Range) : list Range :=
  match l with
  | [] => [r]
  | x :: rest =>
      if rfrom r <=? rfrom x then r :: l else x :: insertByFrom r rest
  end.

Fixpoint sortByFrom (l : list Range) : list Range :=
  match l with
  | [] => []
  | r :: rest => insertByFrom r (sortByFrom rest)
  end.

Record Decorations := mkDecorations {
  line : DecorationSet;
  token : DecorationSet;
  group : DecorationSet;
  widget : DecorationSet
}.

(** The pass up to the end of its loops: what it accumulated. *)
Definition accumulate (cursorOf : Span -> SearchQuery -> Exn + list CursorValue)
           (v : View) : M Acc :=
  let st := state v in
  let queries := map snd (queries (facet st)) in
  acc <- forEach (scanPart cursorOf st queries) (visibleRanges v) emptyAcc ;;
  forEach addLine (lineClasses acc) acc.

Definition getDecoWith (cursorOf : Span -> SearchQuery -> Exn + list CursorValue)
           (v : View) : M Decorations :=
  acc <- accumulate cursorOf v ;;
  _ <- cleanup ;;
  ret (mkDecorations (sortByFrom (lineDecos acc)) (sortByFrom (tokenDecos acc))
                     (sortByFrom (groupDecos acc)) (sortByFrom (widgetDecos acc))).

Definition getDeco (RegExpCursor : RegExpCursorT) (v : View) : M Decorations :=
  getDecoWith (newCursor RegExpCursor (state v)) v.

(** *** Running the scanner on ASCII text *)

(** A stand-in for the regular-expression cursor in examples: it rejects
    the pattern "(" and finds nothing otherwise. *)
Definition noRegExp : RegExpCursorT :=
  fun _ pattern _ _ =>
    if String.eqb pattern "(" then inl (Error "Invalid regular expression")
    else inr [].

Definition textView (text : string) (rules : list SearchQuery)
           (props : nat -> option string) (parts : list Span) : View :=
  mkView (asciiState text (cursorAt 0)
                     (mkStaticOptions (map (fun q => (class q, q)) rules)
                                      (map class rules))
                     props)
         parts.

Definition spans (d : DecorationSet) : list (nat * nat) :=
  map (fun r => (rfrom r, rto r)) d.

End StaticHighlighter.

(* ================================================================== *)
(** ** Concrete editors used to run the two scanners *)
(* ================================================================== *)

Module Examples.
Import Editor EditorState.

Definition plugin0 : SelectionHighlighter.MatchHighlighter :=
  SelectionHighlighter.mkPlugin [] 0.

Definition options (minLen maxM : Z) : SelectionHighlighter.SelectionHighlightOptions :=
  SelectionHighlighter.mkOptions true true minLen maxM "the, And ,for" 0.

(** "test" selected in a text that has it three times, with a cap of one
    match. *)
Definition testsView : SelectionHighlighter.View :=
  SelectionHighlighter.textView "test test test" (selected 0 4) (options 3 1)
                                (SelectionHighlighter.whole "test test test").

(** The caret in an ignored word. *)
Definition ignoredView : SelectionHighlighter.View :=
  SelectionHighlighter.textView "and AND and" (cursorAt 1) (options 3 100)
                                (SelectionHighlighter.whole "and AND and").

(** The caret inside the first word of "cat cat dog cat". *)
Definition catsText : string := "cat cat dog cat".
Definition catsView : SelectionHighlighter.View :=
  SelectionHighlighter.textView catsText (cursorAt 1) (options 3 100)
                                (SelectionHighlighter.whole catsText).

(** "cat" selected in "cat cat". *)
Definition selView : SelectionHighlighter.View :=
  SelectionHighlighter.textView "cat cat" (selected 0 3) (options 3 100)
                                (SelectionHighlighter.whole "cat cat").

(** The caret in "cat cat" with a cap of one match. *)
Definition cappedView : SelectionHighlighter.View :=
  SelectionHighlighter.textView "cat cat" (cursorAt 1) (options 3 1)
                                (SelectionHighlighter.whole "cat cat").

(** The caret in the only "cat" of "cat dog". *)
Definition loneView : SelectionHighlighter.View :=
  SelectionHighlighter.textView "cat dog" (cursorAt 1) (options 3 100)
                                (SelectionHighlighter.whole "cat dog").

(** "aaa" selected in "aaa aaaa": the query overlaps itself. *)
Definition overlapView : SelectionHighlighter.View :=
  SelectionHighlighter.textView "aaa aaaa" (selected 0 3) (options 3 100)
                                (SelectionHighlighter.whole "aaa aaaa").

(** "Foo" selected among its spellings. *)
Definition fooView : SelectionHighlighter.View :=
  SelectionHighlighter.textView "Foo foo FOO FoO" (selected 0 3) (options 3 100)
                                (SelectionHighlighter.whole "Foo foo FOO FoO").

(** A document of 50200 characters shown in one visible range, and a
    small one. *)
Fixpoint replicate (n : nat) (c : ascii) : string :=
  match n with
  | O => EmptyString
  | S k => String c (replicate k c)
  end.

Definition largeView : SelectionHighlighter.View :=
  let text := replicate (251 * 200) "a"%char in
  SelectionHighlighter.textView text (cursorAt 0) (options 3 100)
                                [mkSpan 0 (251 * 200)].

(** A document of 100100 characters. *)
Definition hugeView : SelectionHighlighter.View :=
  let text := replicate (1001 * 100) "a"%char in
  SelectionHighlighter.textView text (cursorAt 0) (options 3 100) [mkSpan 0 100].

(** "cat" selected in "cat dog": no other occurrence. *)
Definition loneSelView : SelectionHighlighter.View :=
  SelectionHighlighter.textView "cat dog" (selected 0 3) (options 3 100)
                                (SelectionHighlighter.whole "cat dog").

(** A change of the selection alone. *)
Definition selecting : SelectionHighlighter.ViewUpdate :=
  SelectionHighlighter.mkUpdate true false false [] catsView.

Definition typing : SelectionHighlighter.ViewUpdate :=
  SelectionHighlighter.mkUpdate false true false
    [SelectionHighlighter.mkTransaction (String.eqb "input.type")] catsView.

Definition scrolling : SelectionHighlighter.ViewUpdate :=
  SelectionHighlighter.mkUpdate false false true [] catsView.

End Examples.

(* ================================================================== *)
(** ** Predicates used to state the properties of the static scanner *)
(* ================================================================== *)

Module StaticInvariants.
Import Editor EditorState StaticHighlighter.

(** [c], run on [pool], returns normally with a pool and a value that
    satisfy [Q]. *)
Definition wp {A} (c : M A) (Q : Pool -> A -> Prop) (pool : Pool) : Prop :=
  match c pool with
  | (pool', inr a) => Q pool' a
  | (_, inl _) => False
  end.

(** [c], run on [pool], returns with a pool and a value that satisfy [Q],
    or throws with a pool and an exception that satisfy [E]. *)
Definition wpx {A} (c : M A) (Q : Pool -> A -> Prop) (E : Pool -> Exn -> Prop)
           (pool : Pool) : Prop :=
  match c pool with
  | (pool', inr a) => Q pool' a
  | (pool', inl e) => E pool' e
  end.

(** A map holds a key once. *)
Definition Map_wf {V} (m : Map V) : Prop := NoDup (map fst m).

(** The cache only grows during the loops of a pass. *)
Definition extends (pool pool' : Pool) : Prop :=
  (exists added, pool' = (pool ++ added)%list) /\ (Map_wf pool -> Map_wf pool').

Fixpoint distinct (keys : list string) : bool :=
  match keys with
  | [] => true
  | k :: rest => negb (JS.includes rest k) && distinct rest
  end.

Definition byFrom (a b : Range) : Prop := rfrom a <= rfrom b.

(** The test of line 191 for a cursor value. *)
Definition excluded (st : State) (v : CursorValue) : bool :=
  isSome (excludedSection st (lineAt_from (doc st) (vfrom v) + 1)).

(** The cursors with the values on excluded lines taken out. *)
Definition withoutExcluded (st : State)
           (cursorOf : Span -> SearchQuery -> Exn + list CursorValue)
  : Span -> SearchQuery -> Exn + list CursorValue :=
  fun part q =>
    match cursorOf part q with
    | inl e => inl e
    | inr values => inr (filter (fun v => negb (excluded st v)) values)
    end.

Definition okLine (st : State) (linePos : nat) : Prop :=
  excludedSection st (linePos + 1) = None.

(** No token region, line class or line region sits on an excluded
    line. *)
Definition Good (st : State) (acc : Acc) : Prop :=
  (forall r, In r (tokenDecos acc) -> okLine st (lineAt_from (doc st) (rfrom r)))
  /\ (forall e, In e (lineClasses acc) -> okLine st (fst e))
  /\ (forall r, In r (lineDecos acc) -> okLine st (rfrom r)).

Definition allDecos (acc : Acc) : list Range :=
  (tokenDecos acc ++ lineDecos acc ++ groupDecos acc ++ widgetDecos acc)%list.

(** Every decoration in use is an entry of the cache. *)
Definition Cached (pool : Pool) (acc : Acc) : Prop :=
  forall r, In r (allDecos acc) -> In (value r) (map snd pool).

Definition Inv (st : State) (pool0 pool : Pool) (acc : Acc) : Prop :=
  extends pool0 pool /\ Good st acc /\ Cached pool acc.

(** *** Inputs for running the scanner *)

Definition todo : SearchQuery :=
  mkQuery "TODO" "todo" None false (Some ["match"; "line"]).

Definition broken : SearchQuery :=
  mkQuery "(" "broken" None true None.

Definition todoText : string :=
  "a TODO" ++ String (ascii_of_nat 10) "b TODO c".

Definition todoView : View :=
  textView todoText [broken; todo] (fun _ => None) [mkSpan 0 15].

(** The first line is inside a code block. *)
Definition fencedView : View :=
  textView todoText [todo]
           (fun pos => if pos =? 1 then Some "foo hmd-codeblock" else None)
           [mkSpan 0 15].

(** The whole text is inside a code block. *)
Definition allFencedView : View :=
  textView todoText [todo] (fun _ => Some "hmd-codeblock") [mkSpan 0 15].

(** A stand-in for the regular-expression cursor that reports one match
    at [2,6) with a group that has indices and one that has none. *)
Definition groupCursor : RegExpCursorT :=
  fun _ _ _ _ =>
    inr [mkValue 2 6 (Some [("first", Some (2, 4)); ("second", None);
                            ("third", Some (4, 6))])].

Definition grouped : SearchQuery :=
  mkQuery "(?<first>TO)(?<second>x)?(?<third>DO)" "todo" None true
          (Some ["group"; "start"; "end"]).

Definition groupedView : View :=
  textView todoText [grouped] (fun _ => None) [mkSpan 0 15].

(** A cache of [n] distinct entries. *)
Fixpoint numbered (n : nat) : Pool :=
  match n with
  | O => []
  | S k => (numbered k ++ [(Examples.replicate k "k"%char,
                           Decoration.mark "c" None)])%list
  end.

End StaticInvariants.

(* ================================================================== *)
(** ** The selection plugin object and the order of its decorations *)
(* ================================================================== *)

Module SelectionPlugin.
Import Editor EditorState SelectionHighlighter.

(** The constructor (lines 65-68): [updateDebouncer] sets the delay, then
    [getDeco] gives the first decorations. *)
Definition construct (v : View) : MatchHighlighter :=
  let this := updateDebouncer (mkPlugin none 0) v in
  let (this, decorations) := getDeco this v in
  mkPlugin decorations (this_highlightDelay this).

(** Visible ranges, and decorations, that follow each other without
    overlap. *)
Definition ordered (parts : list Span) : Prop :=
  StronglySorted (fun a b => sto a <= sfrom b) parts.

Definition inOrder (d : DecorationSet) : Prop :=
  StronglySorted (fun a b => rto a <= rfrom b) d.

(** The same view with the main selection range made in the other
    direction. *)
Definition flipRange (r : SelectionRange) : SelectionRange :=
  mkRange (head r) (anchor r).

Definition flipped (v : View) : View :=
  let st := state v in
  let sel := selection st in
  mkView (mkState (doc st)
            (mkSelection (map flipRange (ranges sel)) (mainIndex sel))
            (facet st) (wordAt st) (charCategorizer st) (syntaxNodeProps st))
         (visibleRanges v).

(** *** Inputs *)

Definition twoCarets : View :=
  textView "cat cat" (mkSelection [mkRange 1 1; mkRange 5 5] 0)
           (Examples.options 3 100) (whole "cat cat").

Definition twoParts : View :=
  textView Examples.catsText (cursorAt 1) (Examples.options 3 100)
           [mkSpan 0 8; mkSpan 8 15].

Definition backwards : View :=
  textView "cat cat" (selected 3 0) (Examples.options 3 100) (whole "cat cat").

Definition blankSelected : View :=
  textView "a    b" (selected 1 5) (Examples.options 3 100) (whole "a    b").

Definition wordOff : View :=
  textView "cat cat" (cursorAt 1)
           (mkOptions false true 3 100 EmptyString 0) (whole "cat cat").

End SelectionPlugin.

(* ================================================================== *)
(** ** The configuration facets and the theme *)
(* ================================================================== *)

Module Configs.
Import Editor EditorState.

(** One step of [combineConfig] on one field: a value fills a field that
    is still undefined, is dropped when it is [===] to the current value,
    is merged by the field's combiner when the field has one, and is a
    conflict otherwise. *)
Definition mergeField {A} (same : A -> A -> bool)
           (combine : option (A -> A -> A)) (key : string)
           (current : option A) (value : A) : StaticHighlighter.Exn + option A :=
  match current with
  | None => inr (Some value)
  | Some cur =>
      if same cur value then inr (Some cur)
      else match combine with
           | Some f => inr (Some (f cur value))
           | None =>
               inl (StaticHighlighter.Error
                      ("Config merge conflict for field " ++ key))
           end
  end.

Definition orElse {A} (o : option A) (default : A) : A :=
  match o with Some a => a | None => default end.

Module Selection.
Import SelectionHighlighter.

(** The result object of [combineConfig] while it is being filled. *)
Record Partial := mkPartial {
  p_highlightWordAroundCursor : option bool;
  p_highlightSelectedText : option bool;
  p_minSelectionLength : option Z;
  p_maxMatches : option Z;
  p_ignoredWords : option string;
  p_highlightDelay : option Z
}.

Definition undefined : Partial := mkPartial None None None None None None.

(** [(a, b) => a || b] on strings. *)
Definition orString (a b : string) : string :=
  match a with EmptyString => b | _ => a end.

(** The keys of one config, merged into the result (lines 35-41: every
    field has a combiner except [highlightSelectedText]). *)
Definition mergeConfig (result : Partial) (config : SelectionHighlightOptions)
  : StaticHighlighter.Exn + Partial :=
  match mergeField Bool.eqb (Some orb) "highlightWordAroundCursor"
          (p_highlightWordAroundCursor result) (highlightWordAroundCursor config)
  with inl e => inl e | inr word =>
  match mergeField Bool.eqb None "highlightSelectedText"
          (p_highlightSelectedText result) (highlightSelectedText config)
  with inl e => inl e | inr sel =>
  match mergeField Z.eqb (Some Z.min) "minSelectionLength"
          (p_minSelectionLength result) (minSelectionLength config)
  with inl e => inl e | inr minLen =>
  match mergeField Z.eqb (Some Z.min) "maxMatches"
          (p_maxMatches result) (maxMatches config)
  with inl e => inl e | inr maxM =>
  match mergeField String.eqb (Some orString) "ignoredWords"
          (p_ignoredWords result) (ignoredWords config)
  with inl e => inl e | inr ignored =>
  match mergeField Z.eqb (Some Z.min) "highlightDelay"
          (p_highlightDelay result) (highlightDelay config)
  with inl e => inl e | inr delay =>
  inr (mkPartial word sel minLen maxM ignored delay)
  end end end end end end.

Fixpoint mergeAll (configs : list SelectionHighlightOptions) (result : Partial)
  : StaticHighlighter.Exn + Partial :=
  match configs with
  | [] => inr result
  | config :: rest =>
      match mergeConfig result config with
      | inl e => inl e
      | inr result' => mergeAll rest result'
      end
  end.

(** [highlightConfig]'s [combine] (line 34); the defaults fill the fields
    no config gave. *)
Definition combine (ignoredWordsDefault : string)
           (options : list SelectionHighlightOptions)
  : StaticHighlighter.Exn + SelectionHighlightOptions :=
  let defaults := defaultHighlightOptions ignoredWordsDefault in
  match mergeAll options undefined with
  | inl e => inl e
  | inr r =>
      inr (mkOptions
             (orElse (p_highlightWordAroundCursor r) (highlightWordAroundCursor defaults))
             (orElse (p_highlightSelectedText r) (highlightSelectedText defaults))
             (orElse (p_minSelectionLength r) (minSelectionLength defaults))
             (orElse (p_maxMatches r) (maxMatches defaults))
             (orElse (p_ignoredWords r) (ignoredWords defaults))
             (orElse (p_highlightDelay r) (highlightDelay defaults)))
  end.

(** The error of a second, different value for [highlightSelectedText]. *)
Definition conflict : StaticHighlighter.Exn :=
  StaticHighlighter.Error "Config merge conflict for field highlightSelectedText".

Definition strict : SelectionHighlightOptions :=
  mkOptions false true 5 10 EmptyString 40.

Definition loose : SelectionHighlightOptions :=
  mkOptions true true 2 500 "the" 0.

Definition noSelection : SelectionHighlightOptions :=
  mkOptions true false 2 500 "the" 0.

End Selection.

Module Static.
Import StaticHighlighter.

Definition PartialStatic : Type :=
  (option (list (string * SearchQuery)) * option (list string))%type.

(** The keys of one config, merged into the result (lines 68-71).  Both
    fields are objects, which are truthy, so their combiner
    [(a, b) => a || b] returns the current value; [sameQueries] and
    [sameOrder] stand for the identity test [===] of two objects. *)
Definition mergeConfig (sameQueries : list (string * SearchQuery) ->
                                      list (string * SearchQuery) -> bool)
           (sameOrder : list string -> list string -> bool)
           (result : PartialStatic) (config : StaticHighlightOptions)
  : Exn + PartialStatic :=
  match mergeField sameQueries (Some (fun a b => a)) "queries"
          (fst result) (queries config)
  with inl e => inl e | inr qs =>
  match mergeField sameOrder (Some (fun a b => a)) "queryOrder"
          (snd result) (queryOrder config)
  with inl e => inl e | inr order => inr (qs, order)
  end end.

Fixpoint mergeAll sameQueries sameOrder (configs : list StaticHighlightOptions)
         (result : PartialStatic) : Exn + PartialStatic :=
  match configs with
  | [] => inr result
  | config :: rest =>
      match mergeConfig sameQueries sameOrder result config with
      | inl e => inl e
      | inr result' => mergeAll sameQueries sameOrder rest result'
      end
  end.

(** [staticHighlightConfig]'s [combine] (line 67), with the defaults of
    lines 61-64. *)
Definition combine sameQueries sameOrder (options : list StaticHighlightOptions)
  : Exn + StaticHighlightOptions :=
  match mergeAll sameQueries sameOrder options (None, None) with
  | inl e => inl e
  | inr (qs, order) => inr (mkStaticOptions (orElse qs []) (orElse order []))
  end.

(** *** [buildStyles] *)

Record StyleSpec := mkStyle { backgroundColor : string }.

(** [!query.color] is false: the query has a colour, and not the empty
    one. *)
Definition hasColour (q : SearchQuery) : bool :=
  match color q with
  | None => false
  | Some EmptyString => false
  | Some _ => true
  end.

(** Lines 92-94: the body of the loop. *)
Definition addStyle (styles : Map StyleSpec) (query : SearchQuery) : Map StyleSpec :=
  let className := "." ++ class query in
  match color query with
  | None => styles
  | Some EmptyString => styles
  | Some c => Map_set className (mkStyle c) styles
  end.

(** Lines 88-98: the theme's style object, one background colour per
    class selector. *)
Definition buildStyles (queries : list SearchQuery) : Map StyleSpec :=
  fold_left addStyle queries [].

Definition coloured (c : string) (col : option string) : SearchQuery :=
  mkQuery "x" c col false None.

End Static.

End Configs.

(* ================================================================== *)
(** ** What the decoration pool holds *)
(* ================================================================== *)

Module PoolModel.
Import Editor EditorState StaticHighlighter StaticInvariants.

(** The requests [getDeco] makes of the pool: a mark with the matched
    text or without attributes, a line, a widget (lines 197-216, 231). *)
Definition asked (type : string) (attributes : option (list (string * string)))
  : Prop :=
  (type = "mark"
   /\ (attributes = None
       \/ exists contents, attributes = Some [("data-contents", contents)]))
  \/ (type = "line" /\ attributes = None)
  \/ (type = "widget" /\ attributes = None).

(** The decorations those requests create. *)
Definition pooled (d : Decoration.t) : Prop :=
  match d with
  | Decoration.mark _ None => True
  | Decoration.mark _ (Some [(k, _)]) => k = "data-contents"
  | Decoration.line [(k, _)] => k = "class"
  | Decoration.widget (mkIconWidget (Some _)) => True
  | _ => False
  end.

(** The key under which such a decoration is created. *)
Definition keyOf (d : Decoration.t) : string :=
  match d with
  | Decoration.mark c a => cacheKey "mark" c a
  | Decoration.line [(_, c)] => cacheKey "line" c None
  | Decoration.widget (mkIconWidget (Some c)) => cacheKey "widget" c None
  | _ => EmptyString
  end.

(** Every entry of the cache is a decoration of the pool under its own
    key; the cache starts empty and is filled by [getDecoration] only. *)
Definition Consistent (pool : Pool) : Prop :=
  forall key d, In (key, d) pool -> pooled d /\ key = keyOf d.

(** *** Reading an escaped string back *)

Definition hexValue (c : ascii) : nat :=
  let n := nat_of_ascii c in
  if n <? 58 then n - 48 else n - 87.

(** One character of the original string off the front of its escaped
    form. *)
Definition decodeChar (s : string) : option (ascii * string) :=
  match s with
  | EmptyString => None
  | String c rest =>
      if nat_of_ascii c =? 92 then
        match rest with
        | EmptyString => None
        | String k rest' =>
            let n := nat_of_ascii k in
            if (n =? 34) || (n =? 92) then Some (k, rest')
            else if n =? 98 then Some (ascii_of_nat 8, rest')
            else if n =? 116 then Some (ascii_of_nat 9, rest')
            else if n =? 110 then Some (ascii_of_nat 10, rest')
            else if n =? 102 then Some (ascii_of_nat 12, rest')
            else if n =? 114 then Some (ascii_of_nat 13, rest')
            else if n =? 117 then
              match rest' with
              | String _ (String _ (String hi (String lo rest''))) =>
                  Some (ascii_of_nat (16 * hexValue hi + hexValue lo), rest'')
              | _ => None
              end
            else None
        end
      else Some (c, rest)
  end.

(** Every double quote of [l] comes right after a backslash; [prev] is
    the character before [l]. *)
Fixpoint quotesGuarded (prev : ascii) (l : list ascii) : bool :=
  match l with
  | [] => true
  | c :: rest =>
      (negb (nat_of_ascii c =? 34) || (nat_of_ascii prev =? 92))
      && quotesGuarded c rest
  end.

(** A cache as the pool makes it: consistent, and a map. *)
Definition Sound (pool : Pool) : Prop := Consistent pool /\ Map_wf pool.

(** A consistent cache grown from [pool0]. *)
Definition Kept (pool0 pool : Pool) : Prop :=
  Consistent pool /\ extends pool0 pool.

(** The text of a mark's key between the class and the escaped contents,
    up to the colon, and the text after the contents. *)
Definition dq : ascii := ascii_of_nat 34.

Definition keyStart : list ascii :=
  list_ascii_of_string ("-{" ++ quote "data-contents" ++ ":").

Definition keyEnd : list ascii := [dq; "}"%char].

(** *** Inputs *)

Definition todoMark : Decoration.t :=
  Decoration.mark "todo" (Some [("data-contents", "TODO")]).

End PoolModel.

(* ================================================================== *)
(** ** The static pass without its cache, and the plugin object *)
(* ================================================================== *)

Module StaticClosed.
Import Editor EditorState StaticHighlighter StaticInvariants.

(** The rule marks the text of its matches (line 196). *)
Definition marksMatch (q : SearchQuery) : bool :=
  negb (isSome (mark q)) || contains (mark q) "match".

(** What [createRange] throws at line 198 for an empty match. *)
Definition emptyMarkError : Exn := RangeError "Mark decorations may not be empty".

(** The value makes line 198 throw: its line is not excluded, its rule
    marks the match, and the match is empty. *)
Definition emptyMark (st : State) (q : SearchQuery) (v : CursorValue) : bool :=
  negb (excluded st v) && marksMatch q && (vto v <=? vfrom v).

(** What the body of the [while] loop pushes for one cursor value when it
    does not throw, with every decoration as [getDecoration] creates it. *)
Definition tokenOf (st : State) (q : SearchQuery) (v : CursorValue) : list Range :=
  if excluded st v then []
  else if marksMatch q
       then [mkDecoRange (vfrom v) (vto v)
               (Decoration.mark (class q)
                  (Some [("data-contents",
                          JS.trim (sliceDoc st (vfrom v) (vto v)))]))]
       else [].

Definition widgetsOf (st : State) (q : SearchQuery) (v : CursorValue)
  : list Range :=
  if excluded st v then []
  else ((if contains (mark q) "start"
         then [mkDecoRange (vfrom v) (vfrom v)
                 (Decoration.widget
                    (mkIconWidget (Some (class q ++ "-start")%string)))]
         else [])
        ++ (if contains (mark q) "end"
            then [mkDecoRange (vto v) (vto v)
                    (Decoration.widget
                       (mkIconWidget (Some (class q ++ "-end")%string)))]
            else []))%list.

(** A named group: nothing when it has no indices or is empty, since the
    handler of line 218 swallows what either throws. *)
Definition groupOf (linePos : nat) (group : string * option (nat * nat))
  : list Range :=
  match group with
  | (groupName, Some (groupFrom, groupTo)) =>
      if linePos + groupTo <=? linePos + groupFrom then []
      else [mkDecoRange (linePos + groupFrom) (linePos + groupTo)
                        (Decoration.mark groupName None)]
  | (_, None) => []
  end.

Definition groupsOf (st : State) (q : SearchQuery) (v : CursorValue)
  : list Range :=
  if excluded st v then []
  else if contains (mark q) "group"
       then match indicesGroups v with
            | Some groups =>
                flat_map (groupOf (lineAt_from (doc st) (vfrom v))) groups
            | None => []
            end
       else [].

(** The class a value adds to its line. *)
Definition lineOf (st : State) (q : SearchQuery) (v : CursorValue)
  : list (nat * string) :=
  if excluded st v then []
  else if contains (mark q) "line"
       then [(lineAt_from (doc st) (vfrom v), class q)]
       else [].

Definition pushClasses (contributions : list (nat * string))
           (lc : list (nat * list string)) : list (nat * list string) :=
  fold_left (fun lc pc => pushClass (fst pc) (snd pc) lc) contributions lc.

Definition stepAcc (st : State) (qv : SearchQuery * CursorValue) (acc : Acc)
  : Acc :=
  let (q, v) := qv in
  mkAcc (tokenDecos acc ++ tokenOf st q v) (lineDecos acc)
        (groupDecos acc ++ groupsOf st q v)
        (widgetDecos acc ++ widgetsOf st q v)
        (pushClasses (lineOf st q v) (lineClasses acc)).

(** The values of a cursor with their rule; a cursor that could not be
    built has none. *)
Definition valuesOf (cursorOf : Span -> SearchQuery -> Exn + list CursorValue)
           (part : Span) (q : SearchQuery) : list (SearchQuery * CursorValue) :=
  match cursorOf part q with
  | inr values => map (pair q) values
  | inl _ => []
  end.

Definition rules (v : View) : list SearchQuery :=
  map snd (queries (facet (state v))).

(** The values of a pass with their rules, in the order the loops visit
    them: visible range by visible range, rule by rule. *)
Definition found (cursorOf : Span -> SearchQuery -> Exn + list CursorValue)
           (v : View) : list (SearchQuery * CursorValue) :=
  flat_map (fun part => flat_map (valuesOf cursorOf part) (rules v))
           (visibleRanges v).

(** Some value of the pass makes line 198 throw. *)
Definition failing (cursorOf : Span -> SearchQuery -> Exn + list CursorValue)
           (v : View) : bool :=
  existsb (fun qv => emptyMark (state v) (fst qv) (snd qv)) (found cursorOf v).

(** The loops visit the value [val] of a cursor of the rule [q]. *)
Definition visited (cursorOf : Span -> SearchQuery -> Exn + list CursorValue)
           (v : View) (part : Span) (q : SearchQuery) (val : CursorValue) : Prop :=
  In part (visibleRanges v) /\ In q (rules v)
  /\ exists values, cursorOf part q = inr values /\ In val values.

(** The line region of an entry of [lineClasses] (lines 231-232). *)
Definition lineDecoOf (entry : nat * list string) : Range :=
  mkDecoRange (fst entry) (fst entry)
              (Decoration.line [("class", JS.join " " (snd entry))]).

(** The classes given to the line at [pos], in the order given. *)
Definition classesAt (pos : nat) (contributions : list (nat * string))
  : list string :=
  map snd (filter (fun pc => fst pc =? pos) contributions).

Definition contributions cursorOf (v : View) : list (nat * string) :=
  flat_map (fun qv => lineOf (state v) (fst qv) (snd qv)) (found cursorOf v).

(** The classes of the line at [pos] in [lineClasses], none when the line
    has no entry. *)
Fixpoint classesOf (pos : nat) (lc : list (nat * list string)) : list string :=
  match lc with
  | [] => []
  | (p, classes) :: rest => if p =? pos then classes else classesOf pos rest
  end.

(** The entries of [lineClasses] are in ascending order of their line
    and none is empty. *)
Definition linesSorted (lc : list (nat * list string)) : Prop :=
  StronglySorted (fun a b => fst a < fst b) lc
  /\ forall e, In e lc -> snd e <> [].

(** What a pass that does not throw publishes. *)
Definition passResult (cursorOf : Span -> SearchQuery -> Exn + list CursorValue)
           (v : View) : Decorations :=
  mkDecorations
    (sortByFrom (map lineDecoOf (pushClasses (contributions cursorOf v) [])))
    (sortByFrom (flat_map (fun qv => tokenOf (state v) (fst qv) (snd qv))
                          (found cursorOf v)))
    (sortByFrom (flat_map (fun qv => groupsOf (state v) (fst qv) (snd qv))
                          (found cursorOf v)))
    (sortByFrom (flat_map (fun qv => widgetsOf (state v) (fst qv) (snd qv))
                          (found cursorOf v))).

(** *** Inputs *)

(** A stand-in for the regular-expression cursor on a pattern that
    matches the empty string, such as x*: its first value is the empty
    match at the start of the range. *)
Definition emptyMatchCursor : RegExpCursorT :=
  fun _ _ from _ => inr [mkValue from from None].

Definition star : SearchQuery := mkQuery "x*" "star" None true None.

Definition starView : View :=
  textView "abc" [star] (fun _ => None) [mkSpan 0 3].

(** A regular-expression cursor that reports one match at [2,6) with an
    empty named group between two others. *)
Definition emptyGroupCursor : RegExpCursorT :=
  fun _ _ _ _ =>
    inr [mkValue 2 6 (Some [("first", Some (2, 4)); ("second", Some (4, 4));
                            ("third", Some (4, 6))])].

End StaticClosed.

Module StaticPlugin.
Import Editor EditorState StaticHighlighter StaticInvariants.

(** The plugin object of [staticHighlighter]. *)
Record Plugin := mkPlugin {
  decorations : DecorationSet;
  lineDecorations : DecorationSet;
  groupDecorations : DecorationSet;
  widgetDecorations : DecorationSet;
  cleanupInterval : option nat
}.

(** A [ViewUpdate]; [reconfigured] is the test of line 149, whether the
    configuration facet of the new state is another object than that of
    the old one. *)
Record ViewUpdate := mkUpdate {
  docChanged : bool;
  viewportChanged : bool;
  reconfigured : bool;
  view : View
}.

Definition publish (this : Plugin) (r : Decorations) : Plugin :=
  mkPlugin (token r) (line r) (group r) (widget r) (cleanupInterval this).

(** The constructor (lines 127-138); [timer] is the handle [setInterval]
    returns. *)
Definition construct (RegExpCursor : RegExpCursorT) (timer : nat) (v : View)
  : M Plugin :=
  r <- getDeco RegExpCursor v ;;
  ret (mkPlugin (token r) (line r) (group r) (widget r) (Some timer)).

(** [update] (lines 148-157). *)
Definition update (RegExpCursor : RegExpCursorT) (this : Plugin) (u : ViewUpdate)
  : M Plugin :=
  if docChanged u || viewportChanged u || reconfigured u then
    r <- getDeco RegExpCursor (view u) ;;
    ret (publish this r)
  else ret this.

(** [destroy] (lines 141-146): a handle of 0 is falsy and is left. *)
Definition destroy (this : Plugin) : Plugin :=
  match cleanupInterval this with
  | Some timer =>
      if timer =? 0 then this
      else mkPlugin (decorations this) (lineDecorations this)
                    (groupDecorations this) (widgetDecorations this) None
  | None => this
  end.

(** What happens to a plugin: an update of the view, a tick of the
    cleanup timer (line 136), its destruction. *)
Inductive Event :=
| Updated (u : ViewUpdate)
| Tick
| Destroyed.

Definition step (RegExpCursor : RegExpCursorT) (this : Plugin) (e : Event)
  : M Plugin :=
  match e with
  | Updated u => update RegExpCursor this u
  | Tick => _ <- cleanup ;; ret this
  | Destroyed => ret (destroy this)
  end.

Definition run (RegExpCursor : RegExpCursorT) (events : list Event)
           (this : Plugin) : M Plugin :=
  forEach (fun e this => step RegExpCursor this e) events this.

(** The four published sets are sorted. *)
Definition published (this : Plugin) : Prop :=
  Sorted byFrom (lineDecorations this) /\ Sorted byFrom (groupDecorations this)
  /\ Sorted byFrom (decorations this) /\ Sorted byFrom (widgetDecorations this).

(** *** [IconWidget] (lines 100-119) *)

(** A DOM element as far as [toDOM] sets it; a new element has no
    class. *)
Record Element := mkElement { localName : string; elementClass : string }.

Definition createElement (name : string) : Element := mkElement name EmptyString.

(** [toDOM]: a span, with its class set when [className] is truthy, that
    is, defined and not empty. *)
Definition toDOM (w : IconWidget) : Element :=
  let headerEl := createElement "span" in
  match className w with
  | Some c =>
      if String.length c =? 0 then headerEl
      else mkElement (localName headerEl) c
  | None => headerEl
  end.

Definition ignoreEvent (w : IconWidget) : bool := true.

(** What holds of the cache and the plugin between two events: the cache
    is one the pool made, of at most 100 entries, and the sets are
    sorted. *)
Definition Running (pool : Pool) (this : Plugin) : Prop :=
  PoolModel.Sound pool /\ List.length pool <= 100 /\ published this.

Definition selectionOnly : ViewUpdate := mkUpdate false false false todoView.
Definition edited : ViewUpdate := mkUpdate true false false todoView.

End StaticPlugin.

Unset Implicit Arguments.

(* ================================================================== *)
(** ** The search cursor *)
(* ================================================================== *)

Module SearchFacts.
Import Editor.
Local Open Scope list_scope.

Section Cursor.
Variable normalize : string -> string.
Variables text query : string.
Variable to : nat.

Local Abbreviation run := (nextMatches normalize text query to).

Lemma nextMatches_sound steps : forall pos skip m,
  In m (run steps pos skip) ->
  pos + skip <= sfrom m /\ sfrom m < pos + steps
  /\ sto m = sfrom m + String.length query
  /\ matchesAt normalize text query to (sfrom m) = true.
Proof.
  induction steps as [|k IH]; intros pos skip m H; simpl in H; [contradiction|].
  destruct skip as [|j].
  - destruct (matchesAt normalize text query to pos) eqn:Hm.
    + destruct H as [H|H].
      * subst m. simpl. repeat split; auto; lia.
      * apply IH in H. intuition lia.
    + apply IH in H. intuition lia.
  - apply IH in H. intuition lia.
Qed.

(** A place that matches is reported, unless a match reported earlier
    runs over it. *)
Lemma nextMatches_complete steps :
  0 < String.length query ->
  forall pos skip p,
    pos + skip <= p -> p < pos + steps ->
    matchesAt normalize text query to p = true ->
    exists m, In m (run steps pos skip) /\ sfrom m <= p /\ p < sto m.
Proof.
  intros Hq.
  induction steps as [|k IH]; intros pos skip p Hlo Hhi Hp; [lia|].
  simpl. destruct skip as [|j].
  - destruct (matchesAt normalize text query to pos) eqn:Hm.
    + destruct (Nat.lt_ge_cases p (pos + String.length query)) as [Hin|Hout].
      * exists (mkSpan pos (pos + String.length query)). simpl.
        split; [left; reflexivity|lia].
      * destruct (IH (S pos) (String.length query - 1) p) as [m [Hm1 Hm2]];
          try lia; auto.
        exists m. split; [right; exact Hm1|exact Hm2].
    + assert (p <> pos) by congruence.
      destruct (IH (S pos) 0 p) as [m [Hm1 Hm2]]; try lia; auto.
      exists m. auto.
  - destruct (IH (S pos) j p) as [m [Hm1 Hm2]]; try lia; auto.
    exists m. auto.
Qed.

End Cursor.

Lemma matchesAt_true normalize text query to pos :
  matchesAt normalize text query to pos = true <->
  pos + String.length query <= to
  /\ normalize (JS.slice text pos (pos + String.length query)) = normalize query.
Proof.
  unfold matchesAt. rewrite andb_true_iff, Nat.leb_le, String.eqb_eq. tauto.
Qed.

Lemma SearchCursor_sound text query from to f m :
  In m (SearchCursor text query from to (Some f)) ->
  from <= sfrom m /\ sto m <= to /\ sto m = sfrom m + String.length query
  /\ f (JS.slice text (sfrom m) (sto m)) = f query.
Proof.
  unfold SearchCursor. destruct query as [|c q]; [contradiction|].
  intros H. apply nextMatches_sound in H.
  destruct H as [H1 [H2 [H3 H4]]]. apply matchesAt_true in H4.
  destruct H4 as [H4 H5]. rewrite H3. repeat split; auto; lia.
Qed.

Lemma SearchCursor_complete text query from to f p :
  query <> EmptyString ->
  from <= p -> p + String.length query <= to ->
  f (JS.slice text p (p + String.length query)) = f query ->
  exists m, In m (SearchCursor text query from to (Some f))
            /\ sfrom m <= p /\ p < sto m.
Proof.
  unfold SearchCursor. destruct query as [|c q]; [congruence|].
  intros _ Hlo Hhi Heq.
  apply nextMatches_complete; simpl in *; try lia.
  apply matchesAt_true. simpl. auto.
Qed.

End SearchFacts.

(* ================================================================== *)
(** ** Properties of the selection scanner *)
(* ================================================================== *)

Module SelectionFacts.
Import Editor EditorState SelectionHighlighter.
Local Open Scope list_scope.

(** Boolean comparisons of the code, turned into propositions for [lia]. *)
Ltac cmp :=
  repeat match goal with
  | H : (_ >? _)%Z = true |- _ => rewrite Z.gtb_ltb, Z.ltb_lt in H
  | H : (_ >? _)%Z = false |- _ => rewrite Z.gtb_ltb, Z.ltb_ge in H
  | H : (_ <? _)%Z = true |- _ => rewrite Z.ltb_lt in H
  | H : (_ <? _)%Z = false |- _ => rewrite Z.ltb_ge in H
  | H : (_ =? _)%Z = true |- _ => rewrite Z.eqb_eq in H
  | H : (_ =? _)%Z = false |- _ => rewrite Z.eqb_neq in H
  | H : (_ <=? _) = true |- _ => rewrite Nat.leb_le in H
  | H : (_ <=? _) = false |- _ => rewrite Nat.leb_gt in H
  | H : (_ <? _) = true |- _ => rewrite Nat.ltb_lt in H
  | H : (_ <? _) = false |- _ => rewrite Nat.ltb_ge in H
  | H : (_ =? _) = true |- _ => rewrite Nat.eqb_eq in H
  | H : (_ =? _) = false |- _ => rewrite Nat.eqb_neq in H
  end.

Section Loops.
Variable conf : SelectionHighlightOptions.
Variable st : State.
Variable check : option (string -> CharCategory).
Variable matchType : string.
Variable range : SelectionRange.

Local Abbreviation emit' := (emit check matchType range st).
Local Abbreviation scan := (scanCursor conf st check matchType range).

Lemma push_optList (deco : list Range) (o : option Range) :
  push deco o = deco ++ optList o.
Proof. destruct o; simpl; auto using app_nil_r. Qed.

(** A completed cursor loop has pushed exactly [emit] of each match,
    and stayed under the cap unless it pushed nothing. *)
Lemma scanCursor_Some ms : forall deco d,
  scan ms deco = Some d ->
  d = deco ++ flat_map emit' ms
  /\ ((Z.of_nat (List.length d) <= maxMatches conf)%Z
      \/ (d = deco /\ forallb (fun m => negb (accepted check st (sfrom m) (sto m))) ms = true)).
Proof.
  induction ms as [|m ms IH]; intros deco d H; simpl in *.
  - inversion H; subst. rewrite app_nil_r. auto.
  - unfold emit at 1.
    destruct (accepted check st (sfrom m) (sto m)) eqn:Hacc; simpl.
    + rewrite push_optList in H.
      destruct (Z.of_nat (List.length (deco ++ optList _)) >? maxMatches conf)%Z eqn:Hcap;
        [discriminate|].
      apply IH in H. destruct H as [Hd Hle].
      split; [rewrite Hd, app_assoc; reflexivity|].
      left. destruct Hle as [Hle|[Heq _]]; [exact Hle|].
      rewrite Heq. lia.
    + apply IH in H. destruct H as [Hd Hle]. split; [exact Hd|].
      destruct Hle as [Hle|[Heq Hall]]; auto.
Qed.

Lemma scanCursor_under ms : forall deco,
  (Z.of_nat (List.length (deco ++ flat_map emit' ms)) <= maxMatches conf)%Z ->
  scan ms deco = Some (deco ++ flat_map emit' ms).
Proof.
  induction ms as [|m ms IH]; intros deco H; simpl in *.
  - rewrite app_nil_r. reflexivity.
  - unfold emit at 1. unfold emit at 1 in H.
    destruct (accepted check st (sfrom m) (sto m)) eqn:Hacc; simpl in *.
    + rewrite push_optList.
      rewrite app_assoc in H.
      destruct (Z.of_nat (List.length (deco ++ optList _)) >? maxMatches conf)%Z eqn:Hcap.
      * cmp. rewrite length_app in H. lia.
      * rewrite IH by exact H. rewrite app_assoc. reflexivity.
    + apply IH. exact H.
Qed.

Variable query : string.

Local Abbreviation coll := (collected st query check matchType range).
Local Abbreviation scanR := (scanRanges conf st query check matchType range).

Lemma scanRanges_Some parts : forall deco d,
  scanR parts deco = Some d ->
  d = deco ++ coll parts
  /\ ((Z.of_nat (List.length d) <= maxMatches conf)%Z \/ d = deco).
Proof.
  unfold collected.
  induction parts as [|part parts IH]; intros deco d H; simpl in *.
  - inversion H; subst. rewrite app_nil_r. auto.
  - destruct (scanCursor conf st check matchType range _ deco) as [d1|] eqn:H1;
      [|discriminate].
    apply scanCursor_Some in H1. destruct H1 as [Hd1 Hle1].
    apply IH in H. destruct H as [Hd Hle].
    split.
    + rewrite Hd, Hd1, app_assoc. reflexivity.
    + destruct Hle as [Hle|Heq]; [left; exact Hle|].
      destruct Hle1 as [Hle1|[Heq1 _]].
      * left. rewrite Heq. exact Hle1.
      * right. congruence.
Qed.

Lemma scanRanges_under parts : forall deco,
  (Z.of_nat (List.length (deco ++ coll parts)) <= maxMatches conf)%Z ->
  scanR parts deco = Some (deco ++ coll parts).
Proof.
  unfold collected.
  induction parts as [|part parts IH]; intros deco H; simpl in *.
  - rewrite app_nil_r. reflexivity.
  - rewrite app_assoc in H.
    rewrite scanCursor_under.
    + unfold candidates in *. rewrite IH by exact H.
      rewrite app_assoc. reflexivity.
    + rewrite length_app in H. unfold candidates in *. lia.
Qed.

End Loops.

(** The decorations of a scan in closed form: everything collected,
    unless the cap or the minimum count empties the result. *)
Lemma highlights_closed (v : View) :
  highlights v =
  match selectionQuery v with
  | None => []
  | Some (query, check, matchType) =>
      let range := main (selection (state v)) in
      let c := collected (state v) query check matchType range (visibleRanges v) in
      if (Z.of_nat (List.length c) >? maxMatches (facet (state v)))%Z then []
      else if List.length c <? threshold range then [] else c
  end.
Proof.
  unfold highlights.
  destruct (selectionQuery v) as [[[query check] matchType]|]; [|reflexivity].
  cbv zeta.
  set (range := main (selection (state v))).
  set (c := collected (state v) query check matchType range (visibleRanges v)).
  destruct (Z.of_nat (List.length c) >? maxMatches (facet (state v)))%Z eqn:Hcap.
  - destruct (scanRanges _ _ _ _ _ _ _ _) as [d|] eqn:Hs; [|reflexivity].
    apply scanRanges_Some in Hs. simpl in Hs. destruct Hs as [Hd [Hle|Heq]].
    + fold c in Hd. subst d. cmp. lia.
    + rewrite Heq. unfold threshold. destruct (empty range); reflexivity.
  - rewrite (scanRanges_under (facet (state v)) (state v) check matchType range query
                              (visibleRanges v) []); simpl; fold c; [reflexivity|cmp; lia].
Qed.

Lemma in_collected st query check matchType range parts (r : Range) :
  In r (collected st query check matchType range parts) <->
  exists part m, In part parts /\ In m (candidates st query part)
                 /\ In r (emit check matchType range st m).
Proof.
  unfold collected. rewrite in_flat_map. split.
  - intros [part [Hp Hr]]. apply in_flat_map in Hr. destruct Hr as [m [Hm Hr]].
    exists part, m. auto.
  - intros [part [m [Hp [Hm Hr]]]]. exists part. split; [exact Hp|].
    apply in_flat_map. exists m. auto.
Qed.

(** A non-empty result is exactly what the loops collected. *)
Lemma highlights_nonempty (v : View) :
  highlights v <> [] ->
  exists query check matchType,
    selectionQuery v = Some (query, check, matchType)
    /\ highlights v =
       collected (state v) query check matchType (main (selection (state v)))
                 (visibleRanges v)
    /\ (Z.of_nat (List.length (highlights v)) <= maxMatches (facet (state v)))%Z
    /\ threshold (main (selection (state v))) <= List.length (highlights v).
Proof.
  rewrite highlights_closed.
  destruct (selectionQuery v) as [[[query check] matchType]|]; [|congruence].
  cbv zeta. intros H. exists query, check, matchType.
  destruct (Z.of_nat _ >? _)%Z eqn:Hcap; [congruence|].
  destruct (_ <? threshold _) eqn:Hmin; [congruence|].
  cmp. repeat split; auto.
Qed.

(** The two modes of a scan: a caret gives a word query with the
    categorizer at the caret, a selection a string query without one. *)
Lemma selectionQuery_modes (v : View) query check matchType :
  selectionQuery v = Some (query, check, matchType) ->
  let range := main (selection (state v)) in
  (empty range = true /\ matchType = "word"
   /\ check = Some (charCategorizer (state v) (head range)))
  \/ (empty range = false /\ matchType = "string" /\ check = None).
Proof.
  unfold selectionQuery.
  destruct (1 <? _); [discriminate|].
  destruct (empty (main (selection (state v)))) eqn:He.
  - destruct (negb _); [discriminate|].
    destruct (wordAt _ _); [|discriminate].
    destruct (_ || _); [discriminate|].
    intros H; inversion H; subst. left. auto.
  - destruct (negb _); [discriminate|].
    destruct (_ || _); [discriminate|].
    destruct (JS.trim _); [discriminate|].
    intros H; inversion H; subst. right. auto.
Qed.

Lemma empty_range (r : SelectionRange) :
  empty r = true -> Editor.from r = head r /\ Editor.to r = head r.
Proof. unfold empty, Editor.from, Editor.to. intros H. cmp. lia. Qed.

(** Only the cap test reads [maxMatches]. *)
Lemma highlights_withMaxMatches cap v :
  highlights (withMaxMatches cap v) =
  match selectionQuery v with
  | None => []
  | Some (query, check, matchType) =>
      let range := main (selection (state v)) in
      let c := collected (state v) query check matchType range (visibleRanges v) in
      if (Z.of_nat (List.length c) >? cap)%Z then []
      else if List.length c <? threshold range then [] else c
  end.
Proof. rewrite highlights_closed. reflexivity. Qed.

(** At a caret every accepted occurrence is pushed: the loops collect
    one decoration per accepted occurrence. *)
Lemma emit_word check matchType range st m :
  empty range = true ->
  List.length (emit (Some check) matchType range st m)
  = if accepted (Some check) st (sfrom m) (sto m) then 1 else 0.
Proof.
  intros He. apply empty_range in He. destruct He as [Hf Ht].
  unfold emit. destruct (accepted _ _ _ _); [|reflexivity].
  unfold classify. rewrite Hf, Ht. simpl isSome. simpl andb.
  destruct (sfrom m <=? head range) eqn:H1; destruct (head range <=? sto m) eqn:H2;
    simpl; try reflexivity.
  - destruct (head range <=? sfrom m) eqn:H3; [reflexivity|].
    destruct (sto m <=? head range) eqn:H4; [reflexivity|]. cmp. lia.
  - destruct (head range <=? sfrom m) eqn:H3; [reflexivity|]. cmp. lia.
  - destruct (head range <=? sfrom m) eqn:H3; [reflexivity|]. cmp. lia.
Qed.

Lemma collected_word_length st query check matchType range parts :
  empty range = true ->
  List.length (collected st query (Some check) matchType range parts)
  = List.length (occurrences st query (Some check) parts).
Proof.
  intros He. unfold collected, occurrences.
  induction parts as [|part parts IH]; [reflexivity|].
  cbn [flat_map]. rewrite !length_app, IH. f_equal.
  induction (candidates st query part) as [|m ms IHm]; [reflexivity|].
  cbn [flat_map filter]. rewrite length_app, IHm, emit_word by exact He.
  destruct (accepted _ _ _ _); reflexivity.
Qed.

End SelectionFacts.

Module SelectionSpec.
Import Editor EditorState SelectionHighlighter SelectionFacts Examples.
Local Open Scope list_scope.

Lemma classify_word c matchType range st m :
  empty range = true ->
  classify (Some c) matchType range st (sfrom m) (sto m)
  = Some (if (sfrom m <=? head range) && (head range <=? sto m)
          then decoAt ("cm-current-" ++ matchType) st m
          else decoAt ("cm-matched-" ++ matchType) st m).
Proof.
  intros He. apply empty_range in He. destruct He as [Hf Ht].
  unfold classify, decoAt. rewrite Hf, Ht. simpl isSome. simpl andb.
  destruct ((sfrom m <=? head range) && (head range <=? sto m)) eqn:H;
    [reflexivity|].
  destruct ((head range <=? sfrom m) || (sto m <=? head range)) eqn:H';
    [reflexivity|].
  apply andb_false_iff in H. apply orb_false_iff in H'.
  destruct H' as [H1 H2]. destruct H as [H|H]; cmp; lia.
Qed.

Lemma classify_string matchType range st m :
  classify None matchType range st (sfrom m) (sto m)
  = if (Editor.to range <=? sfrom m) || (sto m <=? Editor.from range)
    then Some (decoAt ("cm-matched-" ++ matchType) st m) else None.
Proof. reflexivity. Qed.

Lemma emit_accepted check matchType range st m :
  accepted check st (sfrom m) (sto m) = true ->
  emit check matchType range st m
  = optList (classify check matchType range st (sfrom m) (sto m)).
Proof. unfold emit. intros ->. reflexivity. Qed.

Lemma in_emit check matchType range st m r :
  In r (emit check matchType range st m) ->
  accepted check st (sfrom m) (sto m) = true
  /\ classify check matchType range st (sfrom m) (sto m) = Some r.
Proof.
  unfold emit. destruct (accepted _ _ _ _); [|contradiction].
  destruct (classify _ _ _ _ _ _); simpl; [|contradiction].
  intros [H|[]]. subst. auto.
Qed.

(** C1, as the code has it.  Of the occurrences [getDeco] accepts, when
    its result is not emptied by the cap or the minimum count: at a
    caret (word mode) the occurrence that contains the caret is emitted
    with class cm-current-word and every other one with class
    cm-matched-word; with a selection (string mode) an occurrence is
    emitted, with class cm-matched-string, exactly when it does not
    overlap the selection, so that an occurrence overlapping the
    selection, partially or by containing it, is not emitted, and no
    region of the result has another class. *)
Theorem classification_by_mode this v query check matchType part m :
  selectionQuery v = Some (query, check, matchType) ->
  In part (visibleRanges v) ->
  In m (candidates (state v) query part) ->
  accepted check (state v) (sfrom m) (sto m) = true ->
  snd (getDeco this v) <> [] ->
  let range := main (selection (state v)) in
  let result := snd (getDeco this v) in
  (empty range = true ->
     (sfrom m <= head range <= sto m ->
        In (decoAt "cm-current-word" (state v) m) result)
     /\ (~ (sfrom m <= head range <= sto m) ->
        In (decoAt "cm-matched-word" (state v) m) result))
  /\ (empty range = false ->
     (Editor.to range <= sfrom m \/ sto m <= Editor.from range ->
        In (decoAt "cm-matched-string" (state v) m) result)
     /\ (~ (Editor.to range <= sfrom m \/ sto m <= Editor.from range) ->
        forall r, In r result -> ~ (rfrom r = sfrom m /\ rto r = sto m))
     /\ (forall r, In r result -> classOf r = "cm-matched-string")).
Proof.
  intros Hq Hpart Hm Hacc Hne range result.
  simpl in Hne. subst result. simpl snd.
  destruct (highlights_nonempty v Hne) as [q' [c' [mt' [Hq' [Hres _]]]]].
  rewrite Hq in Hq'. inversion Hq'; subst q' c' mt'. clear Hq'.
  rewrite Hres. fold range.
  assert (Hin : forall r,
             classify check matchType range (state v) (sfrom m) (sto m) = Some r ->
             In r (collected (state v) query check matchType range (visibleRanges v))).
  { intros r Hr. apply in_collected. exists part, m. repeat split; auto.
    rewrite emit_accepted, Hr by exact Hacc. left. reflexivity. }
  destruct (selectionQuery_modes v _ _ _ Hq) as [[He [Hmt Hc]]|[He [Hmt Hc]]];
    fold range in He; subst matchType check.
  - split; [|intros He'; congruence]. intros _. split.
    + intros [H1 H2]. apply Hin. rewrite classify_word by exact He.
      apply Nat.leb_le in H1, H2. rewrite H1, H2. reflexivity.
    + intros Hn. apply Hin. rewrite classify_word by exact He.
      destruct ((sfrom m <=? head range) && (head range <=? sto m)) eqn:H;
        [|reflexivity].
      apply andb_true_iff in H. destruct H as [H1 H2]. cmp. lia.
  - split; [intros He'; congruence|]. intros _. split; [|split].
    + intros H. apply Hin. rewrite classify_string.
      destruct ((Editor.to range <=? sfrom m) || (sto m <=? Editor.from range)) eqn:H';
        [reflexivity|].
      apply orb_false_iff in H'. destruct H' as [H1 H2]. cmp. lia.
    + intros Hn r Hr [Hf Ht]. apply in_collected in Hr.
      destruct Hr as [part' [m' [_ [_ Hr]]]]. apply in_emit in Hr.
      destruct Hr as [_ Hr]. rewrite classify_string in Hr.
      destruct ((Editor.to range <=? sfrom m') || (sto m' <=? Editor.from range)) eqn:H';
        [|discriminate].
      inversion Hr; subst r. simpl in Hf, Ht. rewrite Hf, Ht in H'.
      apply orb_true_iff in H'. destruct H' as [H'|H']; cmp; lia.
    + intros r Hr. apply in_collected in Hr.
      destruct Hr as [part' [m' [_ [_ Hr]]]]. apply in_emit in Hr.
      destruct Hr as [_ Hr]. rewrite classify_string in Hr.
      destruct (_ || _); [|discriminate]. inversion Hr. reflexivity.
Qed.

Lemma classification_by_mode_witness :
  (In (decoAt "cm-current-word" (state catsView) (mkSpan 0 3))
      (snd (getDeco plugin0 catsView))
   /\ In (decoAt "cm-matched-word" (state catsView) (mkSpan 12 15))
         (snd (getDeco plugin0 catsView)))
  /\ (In (decoAt "cm-matched-string" (state selView) (mkSpan 4 7))
         (snd (getDeco plugin0 selView))
      /\ forall r, In r (snd (getDeco plugin0 selView)) ->
                   ~ (rfrom r = 0 /\ rto r = 3)).
Proof.
  split; split.
  - refine (proj1 (proj1 (classification_by_mode plugin0 catsView "cat"
              (Some asciiCategorizer) "word" (mkSpan 0 15) (mkSpan 0 3)
              _ _ _ _ _) _) _).
    + reflexivity.
    + left; reflexivity.
    + left; reflexivity.
    + reflexivity.
    + vm_compute; discriminate.
    + reflexivity.
    + vm_compute; lia.
  - refine (proj2 (proj1 (classification_by_mode plugin0 catsView "cat"
              (Some asciiCategorizer) "word" (mkSpan 0 15) (mkSpan 12 15)
              _ _ _ _ _) _) _).
    + reflexivity.
    + left; reflexivity.
    + right; right; left; reflexivity.
    + reflexivity.
    + vm_compute; discriminate.
    + reflexivity.
    + vm_compute; lia.
  - refine (proj1 (proj2 (classification_by_mode plugin0 selView "cat"
              None "string" (mkSpan 0 7) (mkSpan 4 7)
              _ _ _ _ _) _) _).
    + reflexivity.
    + left; reflexivity.
    + right; left; reflexivity.
    + reflexivity.
    + vm_compute; discriminate.
    + reflexivity.
    + vm_compute; lia.
  - refine (proj1 (proj2 (proj2 (classification_by_mode plugin0 selView "cat"
              None "string" (mkSpan 0 7) (mkSpan 0 3)
              _ _ _ _ _) _)) _).
    + reflexivity.
    + left; reflexivity.
    + left; reflexivity.
    + reflexivity.
    + vm_compute; discriminate.
    + reflexivity.
    + vm_compute; lia.
Defined.

(** C1 as stated fails in string mode: with "cat" selected in "cat cat"
    the occurrence at [0,3) is found and accepted and contains the
    selection, yet the result has no cm-current-string region for it. *)
Lemma selected_occurrence_not_current :
  let v := selView in
  let m := mkSpan 0 3 in
  ~ (In m (candidates (state v) "cat" (mkSpan 0 7)) ->
     accepted None (state v) (sfrom m) (sto m) = true ->
     sfrom m <= Editor.from (main (selection (state v)))
     /\ Editor.to (main (selection (state v))) <= sto m ->
     In (decoAt "cm-current-string" (state v) m) (snd (getDeco plugin0 v))).
Proof.
  intros v m H.
  assert (Hin : In (decoAt "cm-current-string" (state v) m) (snd (getDeco plugin0 v))).
  { apply H.
    - left; reflexivity.
    - reflexivity.
    - vm_compute; lia. }
  vm_compute in Hin. destruct Hin as [Hin|[]]. discriminate.
Qed.

(** C3.  [getDeco] returns the empty set as soon as the number of
    accumulated decorations exceeds [maxMatches]: the cursor loop stops
    there whatever follows, and a scan whose loops would collect more
    than [maxMatches] decorations returns nothing.  The result is
    monotone in the cap: with the same document, selection and other
    options, a non-empty result stays the same under a larger cap. *)
Theorem maxMatches_cap_monotone this v (cap cap' : Z) :
  (forall conf st check matchType range before m after deco deco1,
      scanCursor conf st check matchType range before deco = Some deco1 ->
      accepted check st (sfrom m) (sto m) = true ->
      (Z.of_nat (List.length
         (push deco1 (classify check matchType range st (sfrom m) (sto m))))
       > maxMatches conf)%Z ->
      scanCursor conf st check matchType range (before ++ m :: after) deco = None)
  /\ (forall query check matchType,
      selectionQuery v = Some (query, check, matchType) ->
      (Z.of_nat (List.length
         (collected (state v) query check matchType
                    (main (selection (state v))) (visibleRanges v))) > cap)%Z ->
      snd (getDeco this (withMaxMatches cap v)) = [])
  /\ ((cap <= cap')%Z ->
      snd (getDeco this (withMaxMatches cap v)) <> [] ->
      snd (getDeco this (withMaxMatches cap' v))
      = snd (getDeco this (withMaxMatches cap v))).
Proof.
  split; [|split].
  - intros conf st check matchType range before.
    induction before as [|b before IH]; intros m after deco deco1 Hs Hacc Hcap.
    + simpl in Hs. inversion Hs; subst deco1. simpl. rewrite Hacc.
      destruct (Z.of_nat _ >? maxMatches conf)%Z eqn:H; [reflexivity|].
      cmp. lia.
    + simpl in *. destruct (accepted check st (sfrom b) (sto b)).
      * destruct (Z.of_nat _ >? maxMatches conf)%Z; [discriminate|].
        eapply IH; eauto.
      * eapply IH; eauto.
  - intros query check matchType Hq Hcap. simpl snd.
    rewrite highlights_withMaxMatches, Hq. cbv zeta.
    destruct (Z.of_nat _ >? cap)%Z eqn:H; [reflexivity|]. cmp. lia.
  - intros Hle. simpl snd. rewrite !highlights_withMaxMatches.
    destruct (selectionQuery v) as [[[query check] matchType]|]; [|reflexivity].
    cbv zeta.
    set (c := collected _ _ _ _ _ _).
    destruct (Z.of_nat (List.length c) >? cap)%Z eqn:H; [congruence|].
    destruct (Z.of_nat (List.length c) >? cap')%Z eqn:H'; [cmp; lia|].
    reflexivity.
Qed.

Lemma maxMatches_cap_monotone_witness :
  scanCursor (options 3 1) (state catsView) (Some asciiCategorizer) "word"
             (main (selection (state catsView)))
             ([mkSpan 0 3] ++ mkSpan 4 7 :: [mkSpan 12 15]) [] = None
  /\ snd (getDeco plugin0 (withMaxMatches 2 catsView)) = []
  /\ snd (getDeco plugin0 (withMaxMatches 100 catsView))
     = snd (getDeco plugin0 (withMaxMatches 3 catsView)).
Proof.
  split; [|split].
  - refine (proj1 (maxMatches_cap_monotone plugin0 catsView 1 1)
              (options 3 1) (state catsView) (Some asciiCategorizer) "word"
              (main (selection (state catsView)))
              [mkSpan 0 3] (mkSpan 4 7) [mkSpan 12 15] []
              [decoAt "cm-current-word" (state catsView) (mkSpan 0 3)] _ _ _).
    + reflexivity.
    + reflexivity.
    + vm_compute. reflexivity.
  - apply (proj1 (proj2 (maxMatches_cap_monotone plugin0 catsView 2 2))
             "cat" (Some asciiCategorizer) "word").
    + reflexivity.
    + vm_compute. reflexivity.
  - apply (proj2 (proj2 (maxMatches_cap_monotone plugin0 catsView 3 100))).
    + lia.
    + vm_compute. discriminate.
Defined.

(** C4, as the code has it.  A scan whose loops collect fewer
    decorations than the minimum of its mode, 2 at a caret and 1 with a
    selection, returns nothing.  For a single caret in a word W that is
    at least [minSelectionLength] long and not ignored, with
    [highlightWordAroundCursor] on: when W has k >= 2 whole-word
    occurrences in the visible ranges and k does not exceed
    [maxMatches], the result has exactly k (so at least 2) regions; when
    W has exactly one, the result is empty. *)
Theorem minimum_count :
  (forall this v query check matchType,
      selectionQuery v = Some (query, check, matchType) ->
      let range := main (selection (state v)) in
      let c := collected (state v) query check matchType range (visibleRanges v) in
      (empty range = true -> List.length c < 2 -> snd (getDeco this v) = [])
      /\ (empty range = false -> List.length c < 1 -> snd (getDeco this v) = []))
  /\ (forall this v word,
      let st := state v in
      let conf := facet st in
      let range := main (selection st) in
      List.length (ranges (selection st)) <= 1 ->
      empty range = true ->
      highlightWordAroundCursor conf = true ->
      wordAt st (head range) = Some word ->
      let W := sliceDoc st (Editor.from word) (Editor.to word) in
      JS.includes (ignoredSet conf) (JS.toLowerCase W) = false ->
      (minSelectionLength conf <= Z.of_nat (String.length W))%Z ->
      let k := List.length (occurrences st W (Some (charCategorizer st (head range)))
                                        (visibleRanges v)) in
      (2 <= k -> (Z.of_nat k <= maxMatches conf)%Z ->
         List.length (snd (getDeco this v)) = k)
      /\ (k = 1 -> snd (getDeco this v) = [])).
Proof.
  split.
  - intros this v query check matchType Hq range c. simpl snd.
    rewrite highlights_closed, Hq. cbv zeta. fold range. fold c.
    unfold threshold.
    split; intros He Hlt; rewrite He;
      destruct (Z.of_nat _ >? _)%Z; try reflexivity;
      destruct (List.length c <? _) eqn:H; try reflexivity; cmp; lia.
  - intros this v word st conf range Hone He Hon Hword W Hign Hlen k.
    assert (Hq : selectionQuery v
                 = Some (W, Some (charCategorizer st (head range)), "word")).
    { unfold selectionQuery. fold st. fold conf. fold range.
      destruct (1 <? List.length (ranges (selection st))) eqn:H1; [cmp; lia|].
      rewrite He, Hon, Hword. simpl negb. cbv iota. fold W.
      unfold ignoredSet in Hign. rewrite Hign. simpl orb.
      destruct (Z.of_nat (String.length W) <? minSelectionLength conf)%Z eqn:H2;
        [cmp; lia|]. reflexivity. }
    simpl snd. rewrite highlights_closed, Hq. cbv zeta. fold st range.
    rewrite collected_word_length by exact He. fold k. fold conf.
    unfold threshold. rewrite He.
    split.
    + intros H2 Hcap.
      destruct (Z.of_nat k >? maxMatches conf)%Z eqn:H; [cmp; lia|].
      destruct (k <? 2) eqn:H'; [cmp; lia|].
      apply collected_word_length. exact He.
    + intros H1. rewrite H1.
      destruct (Z.of_nat 1 >? maxMatches conf)%Z; reflexivity.
Qed.

Lemma minimum_count_witness :
  (snd (getDeco plugin0 loneView) = []
   /\ snd (getDeco plugin0 loneSelView) = [])
  /\ List.length (snd (getDeco plugin0 catsView)) = 3
  /\ snd (getDeco plugin0 loneView) = [].
Proof.
  split; [split|split].
  - refine (proj1 (proj1 minimum_count plugin0 loneView "cat"
                     (Some asciiCategorizer) "word" _) _ _).
    + reflexivity.
    + reflexivity.
    + vm_compute. lia.
  - refine (proj2 (proj1 minimum_count plugin0 loneSelView "cat"
                     None "string" _) _ _).
    + reflexivity.
    + reflexivity.
    + vm_compute. lia.
  - refine (proj1 (proj2 minimum_count plugin0 catsView (mkRange 0 3)
                     _ _ _ _ _ _) _ _).
    + simpl. lia.
    + reflexivity.
    + reflexivity.
    + reflexivity.
    + reflexivity.
    + vm_compute. discriminate.
    + vm_compute. lia.
    + vm_compute. discriminate.
  - refine (proj2 (proj2 minimum_count plugin0 loneView (mkRange 0 3)
                     _ _ _ _ _ _) _).
    + simpl. lia.
    + reflexivity.
    + reflexivity.
    + reflexivity.
    + reflexivity.
    + vm_compute. discriminate.
    + reflexivity.
Defined.

(** C4 as stated fails under the cap: the caret is in "cat", three
    letters long and not ignored, "cat" occurs twice in the viewport of
    "cat cat", and with [maxMatches = 1] the result is empty. *)
Lemma two_occurrences_over_the_cap :
  let v := cappedView in
  let st := state v in
  let head := head (main (selection st)) in
  ~ (wordAt st head = Some (mkRange 0 3) ->
     sliceDoc st 0 3 = "cat" ->
     JS.includes (ignoredSet (facet st)) (JS.toLowerCase "cat") = false ->
     (minSelectionLength (facet st) <= Z.of_nat (String.length "cat"))%Z ->
     2 <= List.length (occurrences st "cat" (Some (charCategorizer st head))
                                   (visibleRanges v)) ->
     2 <= List.length (snd (getDeco plugin0 v))).
Proof.
  intros v st head H.
  assert (Hlen : 2 <= List.length (snd (getDeco plugin0 v))).
  { apply H.
    - reflexivity.
    - reflexivity.
    - reflexivity.
    - vm_compute. discriminate.
    - vm_compute. lia. }
  vm_compute in Hlen. lia.
Qed.

(** C10, as the code has it.  At a caret the ends of the document are
    word boundaries: an occurrence that starts at offset 0 is accepted on
    its right neighbour alone, one that ends at the length of the
    document on its left neighbour alone, and such whole-word occurrences
    are in every result that the cap and the minimum count leave
    non-empty. *)
Theorem document_ends_are_boundaries :
  (forall check (st : State) from to,
      accepted (Some check) st 0 to
      = ((to =? String.length (doc st))
         || negb (CharCategory_eqb (check (sliceDoc st to (to + 1))) Word))
      /\ accepted (Some check) st from (String.length (doc st))
         = ((from =? 0)
            || negb (CharCategory_eqb (check (sliceDoc st (from - 1) from)) Word)))
  /\ (forall this v query check matchType part m,
      selectionQuery v = Some (query, Some check, matchType) ->
      In part (visibleRanges v) ->
      In m (candidates (state v) query part) ->
      snd (getDeco this v) <> [] ->
      let st := state v in
      (sfrom m = 0 ->
       sto m = String.length (doc st) \/ check (sliceDoc st (sto m) (sto m + 1)) <> Word ->
       exists r, In r (snd (getDeco this v)) /\ rfrom r = 0 /\ rto r = sto m)
      /\ (sto m = String.length (doc st) ->
          sfrom m = 0 \/ check (sliceDoc st (sfrom m - 1) (sfrom m)) <> Word ->
          exists r, In r (snd (getDeco this v))
                    /\ rfrom r = sfrom m /\ rto r = String.length (doc st))).
Proof.
  split.
  - intros check st from to. unfold accepted. split.
    + reflexivity.
    + rewrite Nat.eqb_refl. simpl. apply andb_true_r.
  - intros this v query check matchType part m Hq Hpart Hm Hne st.
    simpl snd in *.
    destruct (highlights_nonempty v Hne) as [q' [c' [mt' [Hq' [Hres _]]]]].
    rewrite Hq in Hq'. inversion Hq'; subst q' c' mt'. clear Hq'.
    destruct (selectionQuery_modes v _ _ _ Hq) as [[He [Hmt Hc]]|[_ [_ Hc]]];
      [|discriminate].
    assert (Hemit : accepted (Some check) st (sfrom m) (sto m) = true ->
                    exists r, In r (highlights v)
                              /\ rfrom r = sfrom m /\ rto r = sto m).
    { intros Hacc. rewrite Hres.
      eexists. split.
      - apply in_collected. exists part, m. repeat split; eauto.
        rewrite emit_accepted by exact Hacc.
        rewrite classify_word by exact He. left. reflexivity.
      - destruct (_ && _); simpl; auto. }
    assert (Hnw : forall s, check s <> Word ->
                            negb (CharCategory_eqb (check s) Word) = true).
    { intros s Hs. destruct (check s); simpl; congruence. }
    split.
    + intros H0 Hright.
      destruct Hemit as [r [Hr [Hf Ht]]].
      * unfold accepted. rewrite H0. simpl.
        destruct Hright as [Hr|Hr].
        -- rewrite Hr. fold st. rewrite Nat.eqb_refl. reflexivity.
        -- fold st. rewrite (Hnw _ Hr). apply orb_true_r.
      * exists r. rewrite <- H0. auto.
    + intros Hend Hleft.
      destruct Hemit as [r [Hr [Hf Ht]]].
      * unfold accepted. rewrite Hend. fold st. rewrite Nat.eqb_refl.
        simpl. rewrite andb_true_r.
        destruct Hleft as [Hl|Hl].
        -- rewrite Hl. reflexivity.
        -- rewrite (Hnw _ Hl). apply orb_true_r.
      * exists r. rewrite <- Hend. auto.
Qed.

Lemma document_ends_are_boundaries_witness :
  (exists r, In r (snd (getDeco plugin0 catsView)) /\ rfrom r = 0 /\ rto r = 3)
  /\ (exists r, In r (snd (getDeco plugin0 catsView))
                /\ rfrom r = 12 /\ rto r = String.length catsText).
Proof.
  split.
  - refine (proj1 (proj2 document_ends_are_boundaries plugin0 catsView "cat"
                     asciiCategorizer "word" (mkSpan 0 15) (mkSpan 0 3)
                     _ _ _ _) _ _).
    + reflexivity.
    + left; reflexivity.
    + left; reflexivity.
    + vm_compute; discriminate.
    + reflexivity.
    + right. vm_compute. discriminate.
  - refine (proj2 (proj2 document_ends_are_boundaries plugin0 catsView "cat"
                     asciiCategorizer "word" (mkSpan 0 15) (mkSpan 12 15)
                     _ _ _ _) _ _).
    + reflexivity.
    + left; reflexivity.
    + right; right; left; reflexivity.
    + vm_compute; discriminate.
    + reflexivity.
    + right. vm_compute. discriminate.
Defined.

(** C10 as stated fails for a word that occurs once: in "cat dog" with
    the caret in "cat", the occurrence [0,3) starts at offset 0 and is
    accepted, and it is not emitted, one region being below the minimum
    of two at a caret. *)
Lemma lone_word_at_start_not_emitted :
  let v := loneView in
  let st := state v in
  ~ (In (mkSpan 0 3) (candidates st "cat" (mkSpan 0 7)) ->
     accepted (Some (charCategorizer st 1)) st 0 3 = true ->
     exists r, In r (snd (getDeco plugin0 v)) /\ rfrom r = 0).
Proof.
  intros v st H.
  destruct H as [r [Hr _]].
  - vm_compute. left. reflexivity.
  - reflexivity.
  - vm_compute in Hr. exact Hr.
Qed.

(** C5, as the host's cursor has it.  On an ASCII document and an ASCII
    query the viewport search folds case:
    every occurrence it reports lies in the visible range and equals
    the query up to case, and every place of the range that equals the
    query up to case is reported unless an occurrence reported before it
    runs over it (the search goes left to right and its matches do not
    overlap).  At a caret an occurrence is accepted exactly when both
    its neighbours are outside the word category or beyond the ends of
    the document; with a selection every reported occurrence is
    accepted.  Every region of a result spans an accepted occurrence of
    that search. *)
Theorem viewport_search (st : State) (query : string) (part : Span) :
  JS.isASCII (doc st) = true -> JS.isASCII query = true ->
  let found := candidates st query part in
  (forall m, In m found ->
     sfrom part <= sfrom m /\ sto m <= sto part
     /\ sto m = sfrom m + String.length query
     /\ JS.toLowerCase (sliceDoc st (sfrom m) (sto m)) = JS.toLowerCase query)
  /\ (forall p,
     query <> EmptyString ->
     sfrom part <= p -> p + String.length query <= sto part ->
     JS.toLowerCase (sliceDoc st p (p + String.length query))
     = JS.toLowerCase query ->
     exists m, In m found /\ sfrom m <= p /\ p < sto m)
  /\ (forall check from to,
     accepted (Some check) st from to = true <->
     (from = 0 \/ check (sliceDoc st (from - 1) from) <> Word)
     /\ (to = String.length (doc st) \/ check (sliceDoc st to (to + 1)) <> Word))
  /\ (forall from to, accepted None st from to = true)
  /\ (forall this v r,
     state v = st ->
     In r (snd (getDeco this v)) ->
     exists q check matchType part' m,
       selectionQuery v = Some (q, check, matchType)
       /\ (empty (main (selection st)) = false -> check = None)
       /\ In part' (visibleRanges v) /\ In m (candidates st q part')
       /\ accepted check st (sfrom m) (sto m) = true
       /\ rfrom r = sfrom m /\ rto r = sto m).
Proof.
  intros _ _ found. subst found. unfold candidates.
  split; [|split; [|split; [|split]]].
  - intros m Hm. apply SearchFacts.SearchCursor_sound in Hm. exact Hm.
  - intros p Hq Hlo Hhi Heq.
    apply SearchFacts.SearchCursor_complete; auto.
  - intros check from to. unfold accepted.
    rewrite andb_true_iff, !orb_true_iff, !Nat.eqb_eq, !negb_true_iff.
    assert (Hw : forall c, CharCategory_eqb c Word = false <-> c <> Word).
    { intros c. destruct c; simpl; split; congruence. }
    rewrite !Hw. tauto.
  - reflexivity.
  - intros this v r Hst Hr. simpl snd in Hr.
    assert (Hne : highlights v <> []) by (intros E; rewrite E in Hr; exact Hr).
    destruct (highlights_nonempty v Hne) as [q [check [mt [Hq [Hres _]]]]].
    rewrite Hres in Hr. apply in_collected in Hr.
    destruct Hr as [part' [m [Hp [Hm Hr]]]]. apply in_emit in Hr.
    destruct Hr as [Hacc Hr].
    exists q, check, mt, part', m. subst st.
    repeat split; auto.
    + intros He.
      destruct (selectionQuery_modes v _ _ _ Hq) as [[He' _]|[_ [_ Hc]]];
        [congruence|exact Hc].
    + unfold classify in Hr.
      destruct (_ && _); [inversion Hr; reflexivity|].
      destruct (_ || _); [inversion Hr; reflexivity|discriminate].
    + unfold classify in Hr.
      destruct (_ && _); [inversion Hr; reflexivity|].
      destruct (_ || _); [inversion Hr; reflexivity|discriminate].
Qed.

Lemma viewport_search_witness :
  (exists m, In m (candidates (state fooView) "Foo" (mkSpan 0 15))
             /\ sfrom m <= 8 /\ 8 < sto m)
  /\ (exists q check matchType part' m,
        selectionQuery catsView = Some (q, check, matchType)
        /\ (empty (main (selection (state catsView))) = false -> check = None)
        /\ In part' (visibleRanges catsView)
        /\ In m (candidates (state catsView) q part')
        /\ accepted check (state catsView) (sfrom m) (sto m) = true
        /\ 12 = sfrom m /\ 15 = sto m).
Proof.
  split.
  - refine (proj1 (proj2 (viewport_search (state fooView) "Foo" (mkSpan 0 15)
                                          eq_refl eq_refl))
              8 _ _ _ _).
    + discriminate.
    + simpl. lia.
    + simpl. lia.
    + reflexivity.
  - refine (proj2 (proj2 (proj2 (proj2
              (viewport_search (state catsView) "cat" (mkSpan 0 15)
                               eq_refl eq_refl))))
              plugin0 catsView
              (decoAt "cm-matched-word" (state catsView) (mkSpan 12 15)) _ _).
    + reflexivity.
    + vm_compute. right. right. left. reflexivity.
Defined.

(** C5 as stated fails where the query overlaps itself: in "aaa aaaa"
    the place [5,8) equals the query "aaa", and the search, having
    reported [4,7), does not report it. *)
Lemma overlapping_occurrence_missed :
  let st := state overlapView in
  ~ (JS.toLowerCase (sliceDoc st 5 8) = JS.toLowerCase "aaa" ->
     In (mkSpan 5 8) (candidates st "aaa" (mkSpan 0 8))).
Proof.
  intros st H.
  assert (Hin : In (mkSpan 5 8) (candidates st "aaa" (mkSpan 0 8)))
    by (apply H; reflexivity).
  vm_compute in Hin.
  destruct Hin as [Hin|[Hin|[]]]; discriminate.
Qed.

(** C9.  The delay [updateDebouncer] installs starts from the
    configured delay, is at least 300 for a document of more than 50000
    characters and at least 500 for one of more than 100000, and is 100
    more when the visible ranges together exceed 10000 characters.  On
    an update, typing raises the delay to at least 200, a pure scroll
    lowers it to at most 100, the bounds 200 and 100 being constants;
    any other change keeps it. *)
Theorem adaptive_delay this v u :
  let base := highlightDelay (facet (state v)) in
  let docSize := Z.of_nat (String.length (doc (state v))) in
  let d := this_highlightDelay (updateDebouncer this v) in
  let current := this_highlightDelay this in
  ((docSize <= 50000)%Z -> (visibleRangeSize v <= 10000)%Z -> d = base)
  /\ (base <= d)%Z
  /\ ((docSize > 50000)%Z -> (300 <= d)%Z)
  /\ ((docSize > 100000)%Z -> (500 <= d)%Z)
  /\ ((visibleRangeSize v > 10000)%Z -> (base + 100 <= d)%Z)
  /\ d = ((if (docSize >? 100000)%Z then Z.max base 500
           else if (docSize >? 50000)%Z then Z.max base 300 else base)
          + (if (visibleRangeSize v >? 10000)%Z then 100 else 0))%Z
  /\ (isTyping u = true ->
      effectiveDelay this u = Z.max current 200
      /\ (200 <= effectiveDelay this u)%Z)
  /\ (isScrolling u = true ->
      isTyping u = false
      /\ effectiveDelay this u = Z.min current 100
      /\ (effectiveDelay this u <= 100)%Z)
  /\ (isTyping u = false -> isScrolling u = false ->
      effectiveDelay this u = current)
  /\ (forall s, update this u = Some s ->
      recomputeAfter s = effectiveDelay this u /\ clearAfter s = 150%Z).
Proof.
  intros base docSize d current.
  assert (Hd : d = ((if (docSize >? 100000)%Z then Z.max base 500
                     else if (docSize >? 50000)%Z then Z.max base 300 else base)
                    + (if (visibleRangeSize v >? 10000)%Z then 100 else 0))%Z).
  { subst d. simpl. unfold adaptiveDelay. fold base. fold docSize.
    destruct (docSize >? 100000)%Z eqn:H1; destruct (docSize >? 50000)%Z eqn:H2;
      destruct (visibleRangeSize v >? 10000)%Z; lia. }
  assert (Hscroll : isScrolling u = true -> isTyping u = false).
  { unfold isScrolling, isTyping. destruct (docChanged u); simpl; auto.
    rewrite andb_false_r. discriminate. }
  assert (Hbounds :
            ((docSize <= 50000)%Z -> (visibleRangeSize v <= 10000)%Z -> d = base)
            /\ (base <= d)%Z
            /\ ((docSize > 50000)%Z -> (300 <= d)%Z)
            /\ ((docSize > 100000)%Z -> (500 <= d)%Z)
            /\ ((visibleRangeSize v > 10000)%Z -> (base + 100 <= d)%Z)).
  { rewrite Hd.
    destruct (docSize >? 100000)%Z eqn:E1; destruct (docSize >? 50000)%Z eqn:E2;
      destruct (visibleRangeSize v >? 10000)%Z eqn:E3; cmp;
      repeat apply conj; intros; lia. }
  destruct Hbounds as [B1 [B2 [B3 [B4 B5]]]].
  do 5 (split; [assumption|]).
  split; [exact Hd|].
  split; [|split; [|split]].
  - intros Ht. unfold effectiveDelay. rewrite Ht. split; [reflexivity|lia].
  - intros Hs. unfold effectiveDelay. rewrite Hs, (Hscroll Hs).
    repeat apply conj; [reflexivity|reflexivity|lia].
  - intros Ht Hs. unfold effectiveDelay. rewrite Ht, Hs. reflexivity.
  - intros s Hu. unfold update in Hu.
    destruct (_ || _); inversion Hu. split; reflexivity.
Qed.

Lemma adaptive_delay_witness :
  (this_highlightDelay (updateDebouncer plugin0 catsView) = 0%Z
   /\ (300 <= this_highlightDelay (updateDebouncer plugin0 largeView))%Z
   /\ (500 <= this_highlightDelay (updateDebouncer plugin0 hugeView))%Z
   /\ (0 + 100 <= this_highlightDelay (updateDebouncer plugin0 largeView))%Z)
  /\ (200 <= effectiveDelay plugin0 typing)%Z
  /\ (effectiveDelay plugin0 scrolling <= 100)%Z
  /\ effectiveDelay plugin0 selecting = 0%Z
  /\ recomputeAfter (mkScheduled 150 200 true) = effectiveDelay plugin0 typing.
Proof.
  split; [repeat apply conj|repeat apply conj].
  - refine (proj1 (adaptive_delay plugin0 catsView typing) _ _);
      vm_compute; discriminate.
  - apply (proj1 (proj2 (proj2 (adaptive_delay plugin0 largeView typing)))).
    vm_compute. reflexivity.
  - apply (proj1 (proj2 (proj2 (proj2 (adaptive_delay plugin0 hugeView typing))))).
    vm_compute. reflexivity.
  - apply (proj1 (proj2 (proj2 (proj2 (proj2
             (adaptive_delay plugin0 largeView typing)))))).
    vm_compute. reflexivity.
  - refine (proj2 (proj1 (proj2 (proj2 (proj2 (proj2 (proj2 (proj2
             (adaptive_delay plugin0 catsView typing))))))) _)).
    reflexivity.
  - refine (proj2 (proj2 (proj1 (proj2 (proj2 (proj2 (proj2 (proj2 (proj2 (proj2
             (adaptive_delay plugin0 catsView scrolling)))))))) _))).
    reflexivity.
  - refine (proj1 (proj2 (proj2 (proj2 (proj2 (proj2 (proj2 (proj2 (proj2
             (adaptive_delay plugin0 catsView selecting))))))))) _ _);
      reflexivity.
  - refine (proj1 (proj2 (proj2 (proj2 (proj2 (proj2 (proj2 (proj2 (proj2 (proj2
             (adaptive_delay plugin0 catsView typing)))))))))
             (mkScheduled 150 200 true) _)).
    reflexivity.
Defined.

End SelectionSpec.

(* ================================================================== *)
(** ** Properties of the static scanner *)
(* ================================================================== *)

Module StaticFacts.
Import Editor EditorState StaticHighlighter StaticInvariants.
Local Open Scope list_scope.

(** *** Rules for [wp] *)

Lemma wp_ret A (a : A) (Q : Pool -> A -> Prop) pool :
  Q pool a -> wp (ret a) Q pool.
Proof. exact (fun H => H). Qed.

Lemma wp_bind A B (c : M A) (k : A -> M B) (Q : Pool -> B -> Prop) pool :
  wp c (fun p a => wp (k a) Q p) pool -> wp (bind c k) Q pool.
Proof. unfold wp, bind. destruct (c pool) as [p [e|a]]; auto. Qed.

Lemma wp_mono A (c : M A) (Q Q' : Pool -> A -> Prop) pool :
  (forall p a, Q p a -> Q' p a) -> wp c Q pool -> wp c Q' pool.
Proof. unfold wp. intros H. destruct (c pool) as [p [e|a]]; auto. Qed.

Lemma wp_seq A B (c : M A) (k : A -> M B) (I : Pool -> A -> Prop)
      (Q : Pool -> B -> Prop) pool :
  wp c I pool -> (forall p a, I p a -> wp (k a) Q p) -> wp (bind c k) Q pool.
Proof. intros Hc Hk. apply wp_bind. eapply wp_mono; eauto. Qed.

Lemma wp_elim A (c : M A) (Q : Pool -> A -> Prop) pool :
  wp c Q pool -> exists pool' a, c pool = (pool', inr a) /\ Q pool' a.
Proof.
  unfold wp. destruct (c pool) as [p [e|a]]; [contradiction|]. eauto.
Qed.

Lemma wp_forEach X A (body : X -> A -> M A) (I : Pool -> A -> Prop) xs :
  (forall x, In x xs -> forall pool acc, I pool acc -> wp (body x acc) I pool) ->
  forall pool acc, I pool acc -> wp (forEach body xs acc) I pool.
Proof.
  induction xs as [|x xs IH]; intros Hbody pool acc HI; simpl.
  - apply wp_ret. exact HI.
  - apply wp_seq with (I := I).
    + apply Hbody; [left; reflexivity|exact HI].
    + intros p a Ha. apply IH; [|exact Ha].
      intros y Hy. apply Hbody. right. exact Hy.
Qed.

(** *** Rules for [wpx] *)

Lemma wpx_ret A (a : A) (Q : Pool -> A -> Prop) E pool :
  Q pool a -> wpx (ret a) Q E pool.
Proof. exact (fun H => H). Qed.

Lemma wpx_bind A B (c : M A) (k : A -> M B) (Q : Pool -> B -> Prop) E pool :
  wpx c (fun p a => wpx (k a) Q E p) E pool -> wpx (bind c k) Q E pool.
Proof. unfold wpx, bind. destruct (c pool) as [p [e|a]]; auto. Qed.

Lemma wpx_mono A (c : M A) (Q Q' : Pool -> A -> Prop) (E E' : Pool -> Exn -> Prop)
      pool :
  (forall p a, Q p a -> Q' p a) -> (forall p e, E p e -> E' p e) ->
  wpx c Q E pool -> wpx c Q' E' pool.
Proof. unfold wpx. intros H H'. destruct (c pool) as [p [e|a]]; auto. Qed.

Lemma wpx_seq A B (c : M A) (k : A -> M B) (I : Pool -> A -> Prop)
      (Q : Pool -> B -> Prop) E pool :
  wpx c I E pool -> (forall p a, I p a -> wpx (k a) Q E p) ->
  wpx (bind c k) Q E pool.
Proof. intros Hc Hk. apply wpx_bind. eapply wpx_mono; eauto. Qed.

Lemma wpx_of_wp A (c : M A) (Q : Pool -> A -> Prop) E pool :
  wp c Q pool -> wpx c Q E pool.
Proof.
  unfold wp, wpx. destruct (c pool) as [p [e|a]]; [contradiction|auto].
Qed.

Lemma wp_of_wpx A (c : M A) (Q : Pool -> A -> Prop) pool :
  wpx c Q (fun _ _ => False) pool -> wp c Q pool.
Proof. exact (fun H => H). Qed.

Lemma wpx_forEach X A (body : X -> A -> M A) (I : Pool -> A -> Prop) E xs :
  (forall x, In x xs -> forall pool acc, I pool acc -> wpx (body x acc) I E pool) ->
  forall pool acc, I pool acc -> wpx (forEach body xs acc) I E pool.
Proof.
  induction xs as [|x xs IH]; intros Hbody pool acc HI; simpl.
  - apply wpx_ret. exact HI.
  - apply wpx_seq with (I := I).
    + apply Hbody; [left; reflexivity|exact HI].
    + intros p a Ha. apply IH; [|exact Ha].
      intros y Hy. apply Hbody. right. exact Hy.
Qed.

(** A range that is built is the decoration over the offsets asked. *)
Lemma range_inr d from to r : range d from to = inr r -> r = mkDecoRange from to d.
Proof.
  unfold range. destruct d.
  - destruct (to <=? from); intros H; inversion H; reflexivity.
  - destruct (from =? to); intros H; inversion H; reflexivity.
  - destruct (from =? to); intros H; inversion H; reflexivity.
Qed.

Lemma wpx_createRange d from to (Q : Pool -> Range -> Prop) E pool :
  (forall e, E pool e) -> Q pool (mkDecoRange from to d) ->
  wpx (createRange d from to) Q E pool.
Proof.
  intros HE HQ. unfold wpx, createRange.
  destruct (range d from to) as [msg|r] eqn:Hr; [apply HE|].
  apply range_inr in Hr. subst r. exact HQ.
Qed.

(** *** The map *)

Lemma Map_get_In V key (m : Map V) v :
  Map_get key m = Some v -> In v (map snd m).
Proof.
  induction m as [|[k v0] m IH]; simpl; [discriminate|].
  destruct (String.eqb k key); [intros H; inversion H; auto|auto].
Qed.

Lemma Map_get_None V key (m : Map V) :
  Map_get key m = None -> ~ In key (map fst m).
Proof.
  induction m as [|[k v0] m IH]; simpl; [auto|].
  destruct (String.eqb_spec k key); [discriminate|].
  intros H [E|E]; [congruence|exact (IH H E)].
Qed.

Lemma Map_set_fresh V key v (m : Map V) :
  ~ In key (map fst m) -> Map_set key v m = m ++ [(key, v)].
Proof.
  induction m as [|[k v0] m IH]; simpl; [reflexivity|].
  intros H. destruct (String.eqb_spec k key); [tauto|].
  rewrite IH by tauto. reflexivity.
Qed.

Lemma Map_set_length V key v (m : Map V) :
  List.length (Map_set key v m) <= S (List.length m).
Proof.
  induction m as [|[k v0] m IH]; simpl; [lia|].
  destruct (String.eqb k key); simpl; lia.
Qed.

Lemma Map_wf_snoc V key v (m : Map V) :
  Map_wf m -> ~ In key (map fst m) -> Map_wf (m ++ [(key, v)]).
Proof.
  unfold Map_wf. induction m as [|[k v0] m IH]; simpl; intros Hwf Hk.
  - constructor; [intros []|constructor].
  - inversion Hwf; subst. constructor.
    + rewrite map_app, in_app_iff. simpl. intros [H|[H|[]]]; [tauto|].
      apply Hk. left. symmetry. exact H.
    + apply IH; tauto.
Qed.

(** Storing entries with distinct keys one after the other rebuilds the
    list of entries. *)
Lemma rebuild V (entries : Map V) : forall cache,
  Map_wf (cache ++ entries) ->
  fold_left (fun c kd => Map_set (fst kd) (snd kd) c) entries cache
  = cache ++ entries.
Proof.
  induction entries as [|[k v] entries IH]; intros cache Hwf; simpl.
  - rewrite app_nil_r. reflexivity.
  - assert (Hk : ~ In k (map fst cache)).
    { unfold Map_wf in Hwf. rewrite map_app in Hwf. simpl in Hwf.
      apply NoDup_remove_2 in Hwf. rewrite in_app_iff in Hwf. tauto. }
    rewrite Map_set_fresh by exact Hk.
    rewrite IH; rewrite <- app_assoc; simpl; [reflexivity|exact Hwf].
Qed.

Lemma rebuild_length V (entries : Map V) : forall cache,
  List.length (fold_left (fun c kd => Map_set (fst kd) (snd kd) c) entries cache)
  <= List.length cache + List.length entries.
Proof.
  induction entries as [|[k v] entries IH]; intros cache; simpl; [lia|].
  specialize (IH (Map_set k v cache)).
  pose proof (Map_set_length V k v cache). lia.
Qed.

Lemma sliceLast_length A n (l : list A) :
  n <= List.length l -> List.length (sliceLast n l) = n.
Proof. unfold sliceLast. intros H. rewrite length_skipn. lia. Qed.

Lemma sliceLast_length_le A n (l : list A) :
  List.length (sliceLast n l) <= n.
Proof. unfold sliceLast. rewrite length_skipn. lia. Qed.

Lemma Map_wf_sliceLast V n (m : Map V) : Map_wf m -> Map_wf (sliceLast n m).
Proof.
  unfold Map_wf, sliceLast. intros H.
  rewrite <- (firstn_skipn (List.length m - n) m), map_app in H.
  apply NoDup_app_remove_l in H. exact H.
Qed.

(** [cleanup]: above 100 entries the last 50 stay, in their order;
    otherwise nothing changes. *)
Lemma cleanup_spec (pool : Pool) :
  exists pool', cleanup pool = (pool', inr tt)
    /\ (List.length pool <= 100 -> pool' = pool)
    /\ (100 < List.length pool -> Map_wf pool ->
        pool' = sliceLast 50 pool /\ List.length pool' = 50)
    /\ List.length pool' <= 100
    /\ (Map_wf pool -> Map_wf pool').
Proof.
  unfold cleanup. destruct (100 <? List.length pool) eqn:H.
  - apply Nat.ltb_lt in H. eexists. split; [reflexivity|].
    split; [lia|]. split; [|split].
    + intros _ Hwf. rewrite rebuild; simpl.
      * split; [reflexivity|]. apply sliceLast_length. lia.
      * apply Map_wf_sliceLast. exact Hwf.
    + pose proof (rebuild_length _ (sliceLast 50 pool) []).
      pose proof (sliceLast_length_le _ 50 pool). simpl in *. lia.
    + intros Hwf. rewrite rebuild; simpl; apply Map_wf_sliceLast; exact Hwf.
  - apply Nat.ltb_ge in H. exists pool. split; [reflexivity|].
    split; [reflexivity|]. split; [lia|]. split; [lia|auto].
Qed.

Lemma distinct_NoDup keys : distinct keys = true -> NoDup keys.
Proof.
  induction keys as [|k keys IH]; simpl; [constructor|].
  rewrite andb_true_iff, negb_true_iff. intros [Hk Hd].
  constructor; [|auto]. intros Hin. unfold JS.includes in Hk.
  assert (existsb (String.eqb k) keys = true); [|congruence].
  apply existsb_exists. exists k. split; [exact Hin|apply String.eqb_refl].
Qed.

(** *** The cache during the loops *)

Lemma extends_refl pool : extends pool pool.
Proof. split; [exists []; rewrite app_nil_r; reflexivity|auto]. Qed.

Lemma extends_trans p1 p2 p3 : extends p1 p2 -> extends p2 p3 -> extends p1 p3.
Proof.
  intros [[l1 H1] W1] [[l2 H2] W2]. split; [|auto].
  exists (l1 ++ l2). rewrite H2, H1, app_assoc. reflexivity.
Qed.

Lemma extends_In p p' d : extends p p' -> In d (map snd p) -> In d (map snd p').
Proof.
  intros [[l H] _] Hin. rewrite H, map_app, in_app_iff. left. exact Hin.
Qed.

Lemma wp_getDecoration type cls attrs d0 (Q : Pool -> Decoration.t -> Prop) pool :
  newDecoration type cls attrs = inr d0 ->
  (forall pool' d, extends pool pool' -> In d (map snd pool') -> Q pool' d) ->
  wp (getDecoration type cls attrs) Q pool.
Proof.
  intros Hnew HQ. unfold wp, getDecoration.
  destruct (Map_get (cacheKey type cls attrs) pool) as [d|] eqn:Hget.
  - apply HQ; [apply extends_refl|]. eapply Map_get_In; eauto.
  - rewrite Hnew. apply Map_get_None in Hget.
    rewrite Map_set_fresh by exact Hget. apply HQ.
    + split; [eexists; reflexivity|]. intros Hwf. apply Map_wf_snoc; auto.
    + rewrite map_app, in_app_iff. right. left. reflexivity.
Qed.

(** *** The invariant of the loops *)

Lemma Inv_extends st pool0 pool pool' acc :
  Inv st pool0 pool acc -> extends pool pool' -> Inv st pool0 pool' acc.
Proof.
  intros [He [Hg Hc]] Hext. split; [eapply extends_trans; eauto|].
  split; [exact Hg|]. intros r Hr. eapply extends_In; eauto.
Qed.

Lemma in_pushClass linePos cls lc e :
  In e (pushClass linePos cls lc) ->
  fst e = linePos \/ exists e', In e' lc /\ fst e' = fst e.
Proof.
  induction lc as [|[pos classes] lc IH]; simpl.
  - intros [H|[]]. subst. auto.
  - destruct (linePos =? pos) eqn:E1.
    + intros [H|H]; [subst; right; exists (pos, classes); auto|].
      right. exists e. auto.
    + destruct (linePos <? pos).
      * intros [H|[H|H]]; [subst; auto| |]; right; exists e; subst; auto.
      * intros [H|H]; [right; exists e; subst; auto|].
        destruct (IH H) as [H'|[e' [H1 H2]]]; [auto|].
        right. exists e'. auto.
Qed.

Lemma Inv_pushLineClass st pool0 pool acc linePos cls :
  okLine st linePos ->
  Inv st pool0 pool acc -> Inv st pool0 pool (pushLineClass linePos cls acc).
Proof.
  intros Hok [He [[Ht [Hl Hd]] Hc]].
  split; [exact He|]. split; [|exact Hc].
  split; [exact Ht|]. split; [|exact Hd].
  simpl. intros e Hin. apply in_pushClass in Hin.
  destruct Hin as [H|[e' [H1 H2]]]; [rewrite H; exact Hok|].
  rewrite <- H2. auto.
Qed.

Lemma Inv_pushToken st pool0 pool pool' acc d from to :
  Inv st pool0 pool acc -> extends pool pool' -> In d (map snd pool') ->
  okLine st (lineAt_from (doc st) from) ->
  Inv st pool0 pool' (pushToken (mkDecoRange from to d) acc).
Proof.
  intros HI Hext Hd Hok.
  destruct (Inv_extends _ _ _ _ _ HI Hext) as [He [[Ht [Hl Hln]] Hc]].
  split; [exact He|]. split.
  - split; [|split; [exact Hl|exact Hln]].
    simpl. intros r Hr. apply in_app_iff in Hr.
    destruct Hr as [Hr|[Hr|[]]]; [auto|subst r; exact Hok].
  - intros r Hr. unfold Cached, allDecos in *. simpl in Hr.
    rewrite !in_app_iff in Hr. simpl in Hr.
    destruct Hr as [[Hr|[Hr|[]]]|Hr].
    + apply Hc. rewrite !in_app_iff. auto.
    + subst r. exact Hd.
    + apply Hc. rewrite !in_app_iff. tauto.
Qed.

Lemma Inv_pushWidget st pool0 pool pool' acc d from to :
  Inv st pool0 pool acc -> extends pool pool' -> In d (map snd pool') ->
  Inv st pool0 pool' (pushWidget (mkDecoRange from to d) acc).
Proof.
  intros HI Hext Hd.
  destruct (Inv_extends _ _ _ _ _ HI Hext) as [He [Hg Hc]].
  split; [exact He|]. split; [exact Hg|].
  intros r Hr. unfold Cached, allDecos in *. simpl in Hr.
  rewrite !in_app_iff in Hr. simpl in Hr.
  destruct Hr as [Hr|[Hr|[Hr|[Hr|[Hr|[]]]]]];
    try (apply Hc; rewrite !in_app_iff; tauto).
  subst r. exact Hd.
Qed.

Lemma Inv_pushGroup st pool0 pool pool' acc d from to :
  Inv st pool0 pool acc -> extends pool pool' -> In d (map snd pool') ->
  Inv st pool0 pool' (pushGroup (mkDecoRange from to d) acc).
Proof.
  intros HI Hext Hd.
  destruct (Inv_extends _ _ _ _ _ HI Hext) as [He [Hg Hc]].
  split; [exact He|]. split; [exact Hg|].
  intros r Hr. unfold Cached, allDecos in *. simpl in Hr.
  rewrite !in_app_iff in Hr. simpl in Hr.
  destruct Hr as [Hr|[Hr|[[Hr|[Hr|[]]]|Hr]]];
    try (apply Hc; rewrite !in_app_iff; tauto).
  subst r. exact Hd.
Qed.

Lemma Inv_pushLine st pool0 pool pool' acc d pos :
  Inv st pool0 pool acc -> extends pool pool' -> In d (map snd pool') ->
  okLine st pos ->
  Inv st pool0 pool' (pushLine (mkDecoRange pos pos d) acc).
Proof.
  intros HI Hext Hd Hok.
  destruct (Inv_extends _ _ _ _ _ HI Hext) as [He [[Ht [Hl Hln]] Hc]].
  split; [exact He|]. split.
  - split; [exact Ht|]. split; [exact Hl|].
    simpl. intros r Hr. apply in_app_iff in Hr.
    destruct Hr as [Hr|[Hr|[]]]; [auto|subst r; exact Hok].
  - intros r Hr. unfold Cached, allDecos in *. simpl in Hr.
    rewrite !in_app_iff in Hr. simpl in Hr.
    destruct Hr as [Hr|[[Hr|[Hr|[]]]|Hr]];
      try (apply Hc; rewrite !in_app_iff; tauto).
    subst r. exact Hd.
Qed.

Lemma addGroup_Inv st pool0 linePos group pool acc :
  Inv st pool0 pool acc -> wp (addGroup linePos group acc) (Inv st pool0) pool.
Proof.
  intros HI. destruct group as [groupName [[groupFrom groupTo]|]].
  - unfold addGroup, wp, tryCatch.
    pose proof (wp_getDecoration "mark" groupName None
                  (Decoration.mark groupName None)
                  (fun p d => extends pool p /\ In d (map snd p)) pool
                  eq_refl (fun p d H1 H2 => conj H1 H2)) as Hd.
    apply wp_elim in Hd. destruct Hd as [p [d [Hrun [Hext Hin]]]].
    unfold bind. rewrite Hrun. unfold createRange.
    destruct (range d (linePos + groupFrom) (linePos + groupTo)) as [msg|r] eqn:Hr;
      simpl.
    + eapply Inv_extends; eauto.
    + apply range_inr in Hr. subst r.
      apply Inv_pushGroup with (pool := pool); assumption.
  - exact HI.
Qed.

(** The body of the loop keeps the invariant when it returns, and has
    only let the cache grow when it throws. *)
Lemma addMatch_Inv st q v pool0 pool acc :
  Inv st pool0 pool acc ->
  wpx (addMatch st q v acc) (Inv st pool0) (fun p _ => extends pool0 p) pool.
Proof.
  intros HI. unfold addMatch.
  destruct (isSome (excludedSection st (lineAt_from (doc st) (vfrom v) + 1))) eqn:Hex;
    [apply wpx_ret; exact HI|].
  assert (Hok : okLine st (lineAt_from (doc st) (vfrom v))).
  { unfold okLine. destruct (excludedSection st _); [discriminate|reflexivity]. }
  set (acc1 := if contains (mark q) "line"
               then pushLineClass (lineAt_from (doc st) (vfrom v)) (class q) acc
               else acc).
  assert (H1 : Inv st pool0 pool acc1).
  { subst acc1. destruct (contains (mark q) "line"); [|exact HI].
    apply Inv_pushLineClass; assumption. }
  clearbody acc1. clear HI.
  apply wpx_seq with (I := Inv st pool0).
  { destruct (negb (isSome (mark q)) || contains (mark q) "match");
      [|apply wpx_ret; exact H1].
    apply wpx_bind. apply wpx_of_wp. eapply wp_getDecoration; [reflexivity|].
    intros p d Hext Hin. apply wpx_bind. apply wpx_createRange.
    - intros _. eapply extends_trans; [apply H1|exact Hext].
    - apply wpx_ret. apply Inv_pushToken with (pool := pool); assumption. }
  clear pool acc1 H1. intros pool acc1 H1.
  apply wpx_seq with (I := Inv st pool0).
  { destruct (contains (mark q) "start" || contains (mark q) "end");
      [|apply wpx_ret; exact H1].
    apply wpx_bind. apply wpx_of_wp. eapply wp_getDecoration; [reflexivity|].
    intros p1 startDeco Hext1 Hin1.
    apply wpx_bind. apply wpx_of_wp. eapply wp_getDecoration; [reflexivity|].
    intros p2 endDeco Hext2 Hin2.
    assert (Hext : extends pool p2) by (eapply extends_trans; eauto).
    assert (Hs : In startDeco (map snd p2))
      by (apply (extends_In p1 p2); assumption).
    assert (H2 : Inv st pool0 p2 acc1) by (eapply Inv_extends; eauto).
    assert (HE : forall e : Exn, extends pool0 p2) by (intros _; apply H2).
    apply wpx_seq with (I := fun p a => p = p2 /\ Inv st pool0 p2 a).
    - destruct (contains (mark q) "start"); [|apply wpx_ret; auto].
      apply wpx_bind. apply wpx_createRange; [exact HE|].
      apply wpx_ret. split; [reflexivity|].
      apply Inv_pushWidget with (pool := p2);
        [exact H2|apply extends_refl|exact Hs].
    - intros p a [-> Ha].
      destruct (contains (mark q) "end"); [|apply wpx_ret; exact Ha].
      apply wpx_bind. apply wpx_createRange; [exact HE|].
      apply wpx_ret.
      apply Inv_pushWidget with (pool := p2);
        [exact Ha|apply extends_refl|exact Hin2]. }
  clear pool acc1 H1. intros pool acc1 H1.
  destruct (contains (mark q) "group"); [|apply wpx_ret; exact H1].
  destruct (indicesGroups v) as [groups|]; [|apply wpx_ret; exact H1].
  apply wpx_of_wp.
  apply wp_forEach with (I := Inv st pool0); [|exact H1].
  intros g _ p a Ha. apply addGroup_Inv. exact Ha.
Qed.

Lemma scanQuery_Inv cursorOf st part q pool0 pool acc :
  Inv st pool0 pool acc ->
  wpx (scanQuery cursorOf st part q acc) (Inv st pool0)
      (fun p _ => extends pool0 p) pool.
Proof.
  intros HI. unfold scanQuery.
  destruct (cursorOf part q) as [err|cursor]; [apply wpx_ret; exact HI|].
  apply wpx_forEach with (I := Inv st pool0); [|exact HI].
  intros v _ p a Ha. apply addMatch_Inv. exact Ha.
Qed.

Lemma scanPart_Inv cursorOf st qs part pool0 pool acc :
  Inv st pool0 pool acc ->
  wpx (scanPart cursorOf st qs part acc) (Inv st pool0)
      (fun p _ => extends pool0 p) pool.
Proof.
  intros HI. unfold scanPart.
  apply wpx_forEach with (I := Inv st pool0); [|exact HI].
  intros q _ p a Ha. apply scanQuery_Inv. exact Ha.
Qed.

(** The loop over the line classes keeps them, so every entry it visits
    is on a line that is not excluded. *)
Lemma addLines_Inv st pool0 entries : forall pool acc,
  (forall e, In e entries -> okLine st (fst e)) ->
  Inv st pool0 pool acc ->
  wpx (forEach addLine entries acc) (Inv st pool0)
      (fun p _ => extends pool0 p) pool.
Proof.
  induction entries as [|[pos classes] entries IH]; intros pool acc Hok HI; simpl.
  - apply wpx_ret. exact HI.
  - apply wpx_seq with (I := Inv st pool0).
    + unfold addLine. apply wpx_bind. apply wpx_of_wp.
      eapply wp_getDecoration; [reflexivity|].
      intros p d Hext Hin. apply wpx_bind. apply wpx_createRange.
      * intros _. eapply extends_trans; [apply HI|exact Hext].
      * apply wpx_ret. apply Inv_pushLine with (pool := pool); auto.
        apply (Hok (pos, classes)). left. reflexivity.
    + intros p a Ha. apply IH; [|exact Ha].
      intros e He. apply Hok. right. exact He.
Qed.

Lemma Inv_init st pool : Inv st pool pool emptyAcc.
Proof.
  split; [apply extends_refl|]. split.
  - repeat split; intros ? [].
  - intros r [].
Qed.

Lemma accumulate_Inv cursorOf (v : View) pool :
  wpx (accumulate cursorOf v) (Inv (state v) pool)
      (fun p _ => extends pool p) pool.
Proof.
  unfold accumulate.
  apply wpx_seq with (I := Inv (state v) pool).
  - apply wpx_forEach with (I := Inv (state v) pool); [|apply Inv_init].
    intros part _ p a Ha. apply scanPart_Inv. exact Ha.
  - intros p acc HI. apply addLines_Inv; [|exact HI].
    destruct HI as [_ [[_ [Hl _]] _]]. exact Hl.
Qed.

(** A pass runs its loops, then [cleanup], and publishes the four
    accumulated lists sorted; when the loops throw, so does the pass, and
    [cleanup] is not run.  Either way the loops only let the cache
    grow. *)
Lemma getDecoWith_cases cursorOf (v : View) pool :
  exists mid,
    extends pool mid
    /\ ((exists acc,
           accumulate cursorOf v pool = (mid, inr acc)
           /\ Inv (state v) pool mid acc
           /\ getDecoWith cursorOf v pool
              = (fst (cleanup mid),
                 inr (mkDecorations (sortByFrom (lineDecos acc))
                                    (sortByFrom (tokenDecos acc))
                                    (sortByFrom (groupDecos acc))
                                    (sortByFrom (widgetDecos acc)))))
        \/ (exists e,
              accumulate cursorOf v pool = (mid, inl e)
              /\ getDecoWith cursorOf v pool = (mid, inl e))).
Proof.
  pose proof (accumulate_Inv cursorOf v pool) as H. unfold wpx in H.
  unfold getDecoWith, bind.
  destruct (accumulate cursorOf v pool) as [mid [e|acc]].
  - exists mid. split; [exact H|]. right. exists e. auto.
  - exists mid. split; [apply H|]. left. exists acc.
    split; [reflexivity|]. split; [exact H|].
    destruct (cleanup_spec mid) as [pool' [Hc _]]. rewrite Hc. reflexivity.
Qed.

(** A pass that returns. *)
Lemma getDecoWith_returns cursorOf (v : View) pool pool' r :
  getDecoWith cursorOf v pool = (pool', inr r) ->
  exists mid acc,
    accumulate cursorOf v pool = (mid, inr acc)
    /\ Inv (state v) pool mid acc
    /\ pool' = fst (cleanup mid)
    /\ r = mkDecorations (sortByFrom (lineDecos acc)) (sortByFrom (tokenDecos acc))
                         (sortByFrom (groupDecos acc)) (sortByFrom (widgetDecos acc)).
Proof.
  intros Hrun.
  destruct (getDecoWith_cases cursorOf v pool)
    as [mid [_ [[acc [Hacc [HI Hg]]]|[e [_ Hg]]]]];
    rewrite Hg in Hrun; inversion Hrun; subst.
  exists mid, acc. auto.
Qed.

(** *** The sort *)

Lemma insertByFrom_In r l x : In x (insertByFrom r l) <-> x = r \/ In x l.
Proof.
  induction l as [|y l IH]; simpl.
  - intuition congruence.
  - destruct (rfrom r <=? rfrom y); simpl; [intuition congruence|].
    rewrite IH. intuition congruence.
Qed.

Lemma sortByFrom_In l x : In x (sortByFrom l) <-> In x l.
Proof.
  induction l as [|y l IH]; simpl; [tauto|].
  rewrite insertByFrom_In, IH. intuition congruence.
Qed.

Lemma insertByFrom_Sorted r l :
  Sorted byFrom l -> Sorted byFrom (insertByFrom r l).
Proof.
  induction l as [|x l IH]; intros Hs; simpl.
  - repeat constructor.
  - destruct (rfrom r <=? rfrom x) eqn:E.
    + apply Nat.leb_le in E. constructor; [exact Hs|].
      constructor. exact E.
    + apply Nat.leb_gt in E. inversion Hs as [|? ? Hs' Hhd]; subst.
      constructor; [apply IH; exact Hs'|].
      destruct l as [|y l]; simpl.
      * constructor. unfold byFrom. lia.
      * destruct (rfrom r <=? rfrom y).
        -- constructor. unfold byFrom. lia.
        -- inversion Hhd; subst. constructor. assumption.
Qed.

Lemma sortByFrom_Sorted l : Sorted byFrom (sortByFrom l).
Proof.
  induction l as [|r l IH]; simpl; [constructor|].
  apply insertByFrom_Sorted. exact IH.
Qed.

(** Sorting a sorted list changes nothing: equal offsets keep their
    order. *)
Lemma sortByFrom_fixed l : Sorted byFrom l -> sortByFrom l = l.
Proof.
  induction l as [|r l IH]; intros Hs; simpl; [reflexivity|].
  inversion Hs as [|? ? Hs' Hhd]; subst. rewrite IH by exact Hs'.
  destruct l as [|x l]; simpl; [reflexivity|].
  inversion Hhd as [|? ? Hle]; subst. unfold byFrom in Hle.
  apply Nat.leb_le in Hle. rewrite Hle. reflexivity.
Qed.

Lemma insertByFrom_Permutation r l : Permutation (r :: l) (insertByFrom r l).
Proof.
  induction l as [|x l IH]; simpl; [apply Permutation_refl|].
  destruct (rfrom r <=? rfrom x); [apply Permutation_refl|].
  eapply perm_trans; [apply perm_swap|]. apply perm_skip. exact IH.
Qed.

Lemma sortByFrom_Permutation l : Permutation l (sortByFrom l).
Proof.
  induction l as [|r l IH]; simpl; [constructor|].
  eapply perm_trans; [apply perm_skip; exact IH|].
  apply insertByFrom_Permutation.
Qed.

(** *** Changing the cursors *)

Lemma bind_ext A B (c c' : M A) (k k' : A -> M B) pool :
  c pool = c' pool -> (forall a p, k a p = k' a p) ->
  bind c k pool = bind c' k' pool.
Proof.
  intros Hc Hk. unfold bind. rewrite Hc.
  destruct (c' pool) as [p [e|a]]; auto.
Qed.

Lemma forEach_ext X A (f g : X -> A -> M A) xs :
  (forall x, In x xs -> forall acc pool, f x acc pool = g x acc pool) ->
  forall acc pool, forEach f xs acc pool = forEach g xs acc pool.
Proof.
  induction xs as [|x xs IH]; intros H acc pool; simpl; [reflexivity|].
  apply bind_ext.
  - apply H. left. reflexivity.
  - intros a p. apply IH. intros y Hy. apply H. right. exact Hy.
Qed.

Lemma addMatch_excluded st q v acc pool :
  excluded st v = true -> addMatch st q v acc pool = ret acc pool.
Proof. unfold excluded, addMatch. intros ->. reflexivity. Qed.

Lemma forEach_addMatch_filter st q values : forall acc pool,
  forEach (addMatch st q) values acc pool
  = forEach (addMatch st q) (filter (fun v => negb (excluded st v)) values) acc pool.
Proof.
  induction values as [|v values IH]; intros acc pool; simpl; [reflexivity|].
  destruct (excluded st v) eqn:E; simpl.
  - unfold bind at 1. rewrite addMatch_excluded by exact E. simpl. apply IH.
  - apply bind_ext; auto.
Qed.

(** Two ways of making cursors that agree on the visible ranges and the
    rules of a pass give the same pass. *)
Lemma getDecoWith_ext cursorOf cursorOf' (v : View) :
  (forall part q,
      In part (visibleRanges v) -> In q (map snd (queries (facet (state v)))) ->
      forall acc pool,
        scanQuery cursorOf (state v) part q acc pool
        = scanQuery cursorOf' (state v) part q acc pool) ->
  forall pool, getDecoWith cursorOf v pool = getDecoWith cursorOf' v pool.
Proof.
  intros H pool. unfold getDecoWith, accumulate.
  apply bind_ext; [|reflexivity].
  apply bind_ext; [|reflexivity].
  apply forEach_ext. intros part Hpart acc p. unfold scanPart.
  apply forEach_ext. intros q Hq acc' p'. apply H; assumption.
Qed.

Lemma forEach_skip X A (body : X -> A -> M A) xs :
  (forall x acc pool, body x acc pool = ret acc pool) ->
  forall acc pool, forEach body xs acc pool = ret acc pool.
Proof.
  intros H. induction xs as [|x xs IH]; intros acc pool; simpl; [reflexivity|].
  unfold bind. rewrite H. simpl. apply IH.
Qed.

End StaticFacts.

Module StaticSpec.
Import Editor EditorState StaticHighlighter StaticInvariants StaticFacts.
Local Open Scope list_scope.

(** C2.  A match whose line start, looked up at [line_start + 1], is
    excluded emits nothing: the loop body returns the accumulators and
    the cache as they were, so a pass gives the result, and leaves the
    cache, that it would give had the cursors never reported such
    matches; when all matches are excluded the pass returns four empty
    sets; and no token region or line region of the result of a pass lies
    on an excluded line. *)
Theorem excluded_lines_emit_nothing (RegExpCursor : RegExpCursorT) (v : View)
        (pool : Pool) :
  let st := state v in
  (forall q value acc p,
      excluded st value = true -> addMatch st q value acc p = (p, inr acc))
  /\ getDeco RegExpCursor v pool
     = getDecoWith (withoutExcluded st (newCursor RegExpCursor st)) v pool
  /\ ((forall part q values,
        In part (visibleRanges v) -> In q (map snd (queries (facet st))) ->
        newCursor RegExpCursor st part q = inr values ->
        forallb (excluded st) values = true) ->
      snd (getDeco RegExpCursor v pool) = inr (mkDecorations [] [] [] []))
  /\ (forall pool' r,
        getDeco RegExpCursor v pool = (pool', inr r) ->
        (forall x, In x (token r) ->
           excludedSection st (lineAt_from (doc st) (rfrom x) + 1) = None)
        /\ (forall x, In x (line r) ->
              excludedSection st (rfrom x + 1) = None)).
Proof.
  intros st.
  assert (Hfilter : getDeco RegExpCursor v pool
            = getDecoWith (withoutExcluded st (newCursor RegExpCursor st)) v pool).
  { unfold getDeco. apply getDecoWith_ext. intros part q _ _ acc p.
    unfold scanQuery, withoutExcluded. fold st.
    destruct (newCursor RegExpCursor st part q) as [e|values]; [reflexivity|].
    apply forEach_addMatch_filter. }
  split; [|split; [exact Hfilter|split]].
  - intros q value acc p H. apply addMatch_excluded. exact H.
  - intros Hall. rewrite Hfilter.
    rewrite (getDecoWith_ext _ (fun _ _ => inr []) v).
    + unfold getDecoWith, accumulate, bind.
      rewrite forEach_skip.
      * simpl. destruct (cleanup_spec pool) as [pool' [Hc _]]. rewrite Hc.
        reflexivity.
      * intros part acc p. unfold scanPart. apply forEach_skip.
        intros q acc' p'. reflexivity.
    + intros part q Hpart Hq acc p. unfold scanQuery, withoutExcluded. fold st.
      destruct (newCursor RegExpCursor st part q) as [e|values] eqn:E;
        [reflexivity|].
      specialize (Hall _ _ _ Hpart Hq E).
      assert (Hnil : filter (fun x => negb (excluded st x)) values = []).
      { clear E. induction values as [|x values IH]; [reflexivity|].
        simpl in *. apply andb_true_iff in Hall. destruct Hall as [Hx Hall].
        rewrite Hx. simpl. auto. }
      rewrite Hnil. reflexivity.
  - intros pool' r Hrun.
    destruct (getDecoWith_returns _ _ _ _ _ Hrun)
      as [mid [acc [_ [[_ [[Ht [_ Hl]] _]] [_ ->]]]]].
    simpl. split.
    + intros x Hx. apply Ht. apply (proj1 (sortByFrom_In _ _) Hx).
    + intros x Hx. apply Hl. apply (proj1 (sortByFrom_In _ _) Hx).
Qed.

Lemma excluded_lines_emit_nothing_witness :
  addMatch (state fencedView) todo (mkValue 2 6 None) emptyAcc []
  = ([], inr emptyAcc)
  /\ snd (getDeco noRegExp allFencedView []) = inr (mkDecorations [] [] [] [])
  /\ exists pool' r,
      getDeco noRegExp fencedView [] = (pool', inr r)
      /\ spans (token r) = [(9, 13)]
      /\ (forall x, In x (token r) ->
            excludedSection (state fencedView)
                            (lineAt_from (doc (state fencedView)) (rfrom x) + 1)
            = None)
      /\ (forall x, In x (line r) ->
            excludedSection (state fencedView) (rfrom x + 1) = None).
Proof.
  split; [|split].
  - apply (proj1 (excluded_lines_emit_nothing noRegExp fencedView [])).
    reflexivity.
  - apply (proj1 (proj2 (proj2 (excluded_lines_emit_nothing noRegExp allFencedView [])))).
    intros part q values [Hpart|[]] [Hq|[]] Hc.
    subst part q. vm_compute in Hc. inversion Hc. reflexivity.
  - destruct (getDeco noRegExp fencedView []) as [p [e|r]] eqn:E;
      [vm_compute in E; discriminate|].
    exists p, r. split; [reflexivity|]. split.
    + vm_compute in E. inversion E. reflexivity.
    + apply (proj2 (proj2 (proj2 (excluded_lines_emit_nothing noRegExp fencedView [])))
               p r E).
Defined.

(** C6.  Each of the four sets a pass publishes is sorted by ascending
    start offset and holds exactly the regions its loops accumulated, and
    sorting a published set again gives the same sequence; in general the
    sort is idempotent. *)
Theorem published_sets_sorted (RegExpCursor : RegExpCursorT) (v : View)
        (pool pool' : Pool) (r : Decorations) :
  getDeco RegExpCursor v pool = (pool', inr r) ->
  (Sorted byFrom (line r) /\ Sorted byFrom (group r)
   /\ Sorted byFrom (token r) /\ Sorted byFrom (widget r))
  /\ (sortByFrom (line r) = line r /\ sortByFrom (group r) = group r
      /\ sortByFrom (token r) = token r /\ sortByFrom (widget r) = widget r)
  /\ (exists mid acc,
        accumulate (newCursor RegExpCursor (state v)) v pool = (mid, inr acc)
        /\ Permutation (lineDecos acc) (line r)
        /\ Permutation (groupDecos acc) (group r)
        /\ Permutation (tokenDecos acc) (token r)
        /\ Permutation (widgetDecos acc) (widget r))
  /\ (forall l, sortByFrom (sortByFrom l) = sortByFrom l).
Proof.
  intros Hrun.
  destruct (getDecoWith_returns _ _ _ _ _ Hrun) as [mid [acc [Hacc [_ [_ ->]]]]].
  simpl. split; [|split; [|split]].
  - repeat split; apply sortByFrom_Sorted.
  - repeat split; apply sortByFrom_fixed; apply sortByFrom_Sorted.
  - exists mid, acc. split; [exact Hacc|].
    repeat split; apply sortByFrom_Permutation.
  - intros l. apply sortByFrom_fixed. apply sortByFrom_Sorted.
Qed.

Lemma published_sets_sorted_witness :
  exists pool' r,
    getDeco noRegExp todoView [] = (pool', inr r)
    /\ spans (token r) = [(2, 6); (9, 13)]
    /\ Sorted byFrom (token r) /\ sortByFrom (token r) = token r.
Proof.
  destruct (getDeco noRegExp todoView []) as [p [e|r]] eqn:E;
    [vm_compute in E; discriminate|].
  exists p, r. split; [reflexivity|].
  destruct (published_sets_sorted noRegExp todoView [] p r E)
    as [[_ [_ [Ht _]]] [[_ [_ [Hf _]]] _]].
  split; [|split; [exact Ht|exact Hf]].
  vm_compute in E. inversion E. reflexivity.
Defined.

(** C7.  Every pass goes through the cache: while the loops run the
    cache only grows, also when they throw.  In a pass that completes,
    every decoration the loops put in a region is an entry of the cache,
    and when the loops are done the pass runs [cleanup]: a cache of more
    than 100 entries is cut down to its last 50, the most recently
    inserted ones, in their order, and a smaller one is left as it is.
    So the cache holds at most 100 entries after a pass that
    completes. *)
Theorem cache_bounded (RegExpCursor : RegExpCursorT) (v : View) (pool : Pool) :
  let loops := accumulate (newCursor RegExpCursor (state v)) v pool in
  let mid := fst loops in
  extends pool mid
  /\ (forall pool' r,
        getDeco RegExpCursor v pool = (pool', inr r) ->
        (exists acc, snd loops = inr acc /\ Cached mid acc)
        /\ cleanup mid = (pool', inr tt)
        /\ (List.length mid <= 100 -> pool' = mid)
        /\ (100 < List.length mid -> Map_wf pool ->
            pool' = sliceLast 50 mid /\ List.length pool' = 50)
        /\ List.length pool' <= 100
        /\ (Map_wf pool -> Map_wf pool')).
Proof.
  intros loops mid. split.
  - destruct (getDecoWith_cases (newCursor RegExpCursor (state v)) v pool)
      as [mid0 [Hext [[acc [Hacc _]]|[e [Hacc _]]]]];
      subst mid loops; rewrite Hacc; exact Hext.
  - intros pool' r Hrun.
    destruct (getDecoWith_returns _ _ _ _ _ Hrun)
      as [mid0 [acc [Hacc [[Hext [_ Hc]] [Hpool _]]]]].
    assert (Hmid : mid = mid0) by (subst mid loops; rewrite Hacc; reflexivity).
    destruct (cleanup_spec mid0) as [p [Hp [Hsmall [Hbig [Hle Hwf]]]]].
    rewrite Hp in Hpool. simpl in Hpool. rewrite Hmid, Hpool. clear Hmid Hpool.
    split; [|split; [exact Hp|]].
    + exists acc. subst loops. rewrite Hacc. auto.
    + split; [exact Hsmall|]. split; [|split; [exact Hle|]].
      * intros Hlen Hw. apply Hbig; [exact Hlen|]. apply Hext. exact Hw.
      * intros Hw. apply Hwf. apply Hext. exact Hw.
Qed.

Lemma cache_bounded_witness :
  exists pool' r,
    getDeco noRegExp todoView (numbered 101) = (pool', inr r)
    /\ List.length pool' = 50 /\ Map_wf pool'.
Proof.
  destruct (getDeco noRegExp todoView (numbered 101)) as [p [e|r]] eqn:E;
    [vm_compute in E; discriminate|].
  exists p, r. split; [reflexivity|].
  destruct (proj2 (cache_bounded noRegExp todoView (numbered 101)) p r E)
    as [_ [_ [_ [Hbig [_ Hwf]]]]].
  assert (Hw : Map_wf (numbered 101))
    by (apply distinct_NoDup; vm_compute; reflexivity).
  split; [|exact (Hwf Hw)].
  apply Hbig; [vm_compute; lia|exact Hw].
Defined.

End StaticSpec.

(* ================================================================== *)
(** ** The examples of the specification, run *)
(* ================================================================== *)

Module Checks.
Import Editor EditorState Examples StaticInvariants.

Example cats_three_regions :
  SelectionHighlighter.summary
    (snd (SelectionHighlighter.getDeco plugin0 catsView))
  = [(0, 3, "cm-current-word"); (4, 7, "cm-matched-word");
     (12, 15, "cm-matched-word")].
Proof. reflexivity. Qed.

Example selection_over_the_cap :
  snd (SelectionHighlighter.getDeco plugin0 testsView) = [].
Proof. reflexivity. Qed.

Example ignored_word_not_highlighted :
  snd (SelectionHighlighter.getDeco plugin0 ignoredView) = [].
Proof. reflexivity. Qed.

Example spellings_of_foo :
  SelectionHighlighter.summary
    (snd (SelectionHighlighter.getDeco plugin0 fooView))
  = [(4, 7, "cm-matched-string"); (8, 11, "cm-matched-string");
     (12, 15, "cm-matched-string")].
Proof. reflexivity. Qed.

(** A rule whose pattern does not compile is skipped; the rule after it
    still marks its two matches and their two lines. *)
Example todo_two_lines :
  exists pool r,
    StaticHighlighter.getDeco StaticHighlighter.noRegExp todoView [] = (pool, inr r)
    /\ StaticHighlighter.spans (StaticHighlighter.token r) = [(2, 6); (9, 13)]
    /\ StaticHighlighter.spans (StaticHighlighter.line r) = [(0, 0); (7, 7)]
    /\ map value (StaticHighlighter.line r)
       = [Decoration.line [("class", "todo")]; Decoration.line [("class", "todo")]]
    /\ map fst pool = ["mark-todo-{" ++ StaticHighlighter.quote "data-contents"
                          ++ ":" ++ StaticHighlighter.quote "TODO" ++ "}";
                       "line-todo-{}"].
Proof. eexists. eexists. split; [vm_compute; reflexivity|]. repeat split. Qed.

Example fenced_line_skipped :
  exists pool r,
    StaticHighlighter.getDeco StaticHighlighter.noRegExp fencedView [] = (pool, inr r)
    /\ StaticHighlighter.spans (StaticHighlighter.token r) = [(9, 13)]
    /\ StaticHighlighter.spans (StaticHighlighter.line r) = [(7, 7)].
Proof. eexists. eexists. split; [vm_compute; reflexivity|]. repeat split. Qed.

(** The group without indices is skipped, the other two are marked, and
    the boundary widgets sit at both ends of the match. *)
Example groups_and_widgets :
  exists pool r,
    StaticHighlighter.getDeco groupCursor groupedView [] = (pool, inr r)
    /\ StaticHighlighter.spans (StaticHighlighter.group r) = [(2, 4); (4, 6)]
    /\ StaticHighlighter.spans (StaticHighlighter.widget r) = [(2, 2); (6, 6)]
    /\ StaticHighlighter.token r = [].
Proof. eexists. eexists. split; [vm_compute; reflexivity|]. repeat split. Qed.

End Checks.

(* ================================================================== *)
(** ** Further properties of the selection scanner *)
(* ================================================================== *)

Module SelectionExtras.
Import Editor EditorState SelectionHighlighter SelectionPlugin.
Import SelectionFacts SelectionSpec Examples.
Local Open Scope list_scope.

Lemma in_highlights (v : View) r :
  In r (highlights v) ->
  exists query check matchType part m,
    selectionQuery v = Some (query, check, matchType)
    /\ In part (visibleRanges v) /\ In m (candidates (state v) query part)
    /\ accepted check (state v) (sfrom m) (sto m) = true
    /\ classify check matchType (main (selection (state v))) (state v)
                (sfrom m) (sto m) = Some r.
Proof.
  intros Hr.
  assert (Hne : highlights v <> []) by (intros E; rewrite E in Hr; exact Hr).
  destruct (highlights_nonempty v Hne) as [q [check [mt [Hq [Hres _]]]]].
  rewrite Hres in Hr. apply in_collected in Hr.
  destruct Hr as [part [m [Hp [Hm Hr]]]]. apply in_emit in Hr.
  destruct Hr as [Hacc Hr]. exists q, check, mt, part, m. auto.
Qed.

Lemma classify_shape check matchType range st from to r :
  classify check matchType range st from to = Some r ->
  rfrom r = from /\ rto r = to
  /\ exists cls,
       (cls = ("cm-current-" ++ matchType)%string
        \/ cls = ("cm-matched-" ++ matchType)%string)
       /\ value r = Decoration.mark cls
                      (Some [("data-contents", JS.trim (sliceDoc st from to))]).
Proof.
  unfold classify.
  destruct (_ && _).
  - intros H; inversion H; simpl. repeat split. eexists. split; [left|]; reflexivity.
  - destruct (_ || _); [|discriminate].
    intros H; inversion H; simpl. repeat split. eexists. split; [right|]; reflexivity.
Qed.

(** X1.  In an ASCII document, every region [getDeco] returns for the
    query of the selection lies inside one of the visible ranges, is as
    long as that query and not empty, spans text that equals the query up
    to case, and is a mark of class cm-current or cm-matched of the kind
    of the query (word at a caret, string for a selection; a selection
    gives no cm-current region) whose data-contents attribute is the
    trimmed text it spans. *)
Theorem regions_in_viewport this (v : View) query check matchType r :
  JS.isASCII (doc (state v)) = true ->
  selectionQuery v = Some (query, check, matchType) ->
  In r (snd (getDeco this v)) ->
  (exists part,
      In part (visibleRanges v)
      /\ sfrom part <= rfrom r /\ rto r <= sto part)
  /\ rto r = rfrom r + String.length query
  /\ rfrom r < rto r
  /\ JS.toLowerCase (sliceDoc (state v) (rfrom r) (rto r)) = JS.toLowerCase query
  /\ exists cls,
       In cls ["cm-current-word"; "cm-matched-word"; "cm-matched-string"]%string
       /\ (cls = ("cm-current-" ++ matchType)%string
           \/ cls = ("cm-matched-" ++ matchType)%string)
       /\ value r = Decoration.mark cls
            (Some [("data-contents",
                    JS.trim (sliceDoc (state v) (rfrom r) (rto r)))]).
Proof.
  simpl snd. intros _ Hq0 Hr.
  destruct (in_highlights v r Hr)
    as [q [check' [mt [part [m [Hq [Hp [Hm [Hacc Hc]]]]]]]]].
  rewrite Hq0 in Hq. inversion Hq; subst q check' mt. clear Hq.
  pose proof Hc as Hc0.
  apply classify_shape in Hc. destruct Hc as [Hf [Ht [cls [Hcls Hv]]]].
  assert (Hne : query <> EmptyString).
  { intros E. unfold candidates, SearchCursor in Hm. rewrite E in Hm. exact Hm. }
  apply SearchFacts.SearchCursor_sound in Hm.
  destruct Hm as [H1 [H2 [H3 H4]]].
  rewrite Hf, Ht.
  split; [exists part; auto|]. split; [exact H3|].
  split; [destruct query; [congruence|simpl in H3; lia]|].
  split; [exact H4|].
  exists cls. split; [|split; [exact Hcls|exact Hv]].
  destruct (selectionQuery_modes v _ _ _ Hq0) as [[He [Hmt Hck]]|[He [Hmt Hck]]];
    subst matchType; simpl in Hcls.
  - destruct Hcls as [E|E]; subst cls; simpl; auto.
  - subst check. destruct Hcls as [E|E]; subst cls; simpl; auto.
    (* the current class needs a categorizer, which a selection has not *)
    exfalso. unfold classify in Hc0. simpl in Hc0.
    destruct (_ || _); [|discriminate]. inversion Hc0; subst r.
    simpl in Hv. discriminate.
Qed.

Lemma regions_in_viewport_witness :
  (exists part,
      In part (visibleRanges catsView) /\ sfrom part <= 4 /\ 7 <= sto part)
  /\ 7 = 4 + String.length "cat"
  /\ 4 < 7
  /\ JS.toLowerCase (sliceDoc (state catsView) 4 7) = JS.toLowerCase "cat"
  /\ exists cls,
       In cls ["cm-current-word"; "cm-matched-word"; "cm-matched-string"]%string
       /\ (cls = ("cm-current-" ++ "word")%string
           \/ cls = ("cm-matched-" ++ "word")%string)
       /\ Decoration.mark "cm-matched-word" (Some [("data-contents", "cat"%string)])
          = Decoration.mark cls
              (Some [("data-contents", JS.trim (sliceDoc (state catsView) 4 7))]).
Proof.
  apply (regions_in_viewport plugin0 catsView "cat" (Some asciiCategorizer) "word"
           (decoAt "cm-matched-word" (state catsView) (mkSpan 4 7))).
  - reflexivity.
  - reflexivity.
  - vm_compute. right. left. reflexivity.
Defined.

(** X2.  A result never has more regions than [maxMatches]; with a cap
    below 1 nothing is ever highlighted, and with a cap below 2 nothing
    is highlighted at a caret. *)
Theorem never_more_than_cap this (v : View) :
  let conf := facet (state v) in
  let result := snd (getDeco this v) in
  (result <> [] -> (Z.of_nat (List.length result) <= maxMatches conf)%Z)
  /\ ((maxMatches conf < 1)%Z -> result = [])
  /\ ((maxMatches conf < 2)%Z ->
      empty (main (selection (state v))) = true -> result = []).
Proof.
  simpl snd. cbv zeta.
  assert (H : highlights v <> [] ->
              (Z.of_nat (List.length (highlights v)) <= maxMatches (facet (state v)))%Z
              /\ threshold (main (selection (state v))) <= List.length (highlights v)).
  { intros Hne. destruct (highlights_nonempty v Hne) as [_ [_ [_ [_ [_ H]]]]].
    exact H. }
  split; [intros Hne; apply H; exact Hne|].
  split.
  - intros Hcap. destruct (highlights v) as [|r l] eqn:E; [reflexivity|].
    destruct H as [H _]; [discriminate|]. simpl in H. lia.
  - intros Hcap He. destruct (highlights v) as [|r l] eqn:E; [reflexivity|].
    destruct H as [H1 H2]; [discriminate|].
    unfold threshold in H2. rewrite He in H2. lia.
Qed.

Lemma never_more_than_cap_witness :
  (Z.of_nat (List.length (snd (getDeco plugin0 catsView))) <= 100)%Z
  /\ snd (getDeco plugin0 (withMaxMatches 0 selView)) = []
  /\ snd (getDeco plugin0 cappedView) = [].
Proof.
  split; [|split].
  - apply (proj1 (never_more_than_cap plugin0 catsView)).
    vm_compute. discriminate.
  - apply (proj1 (proj2 (never_more_than_cap plugin0 (withMaxMatches 0 selView)))).
    reflexivity.
  - apply (proj2 (proj2 (never_more_than_cap plugin0 cappedView)));
      reflexivity.
Defined.

Lemma highlights_no_query (v : View) :
  selectionQuery v = None -> highlights v = [].
Proof. unfold highlights. intros ->. reflexivity. Qed.

(** X3.  With more than one selection range nothing is highlighted,
    whatever the document, the ranges and the options. *)
Theorem several_ranges_no_highlight this (v : View) :
  1 < List.length (ranges (selection (state v))) ->
  snd (getDeco this v) = [].
Proof.
  intros H. simpl. apply highlights_no_query. unfold selectionQuery.
  apply Nat.ltb_lt in H. rewrite H. reflexivity.
Qed.

Lemma several_ranges_no_highlight_witness :
  snd (getDeco plugin0 twoCarets) = [].
Proof.
  apply several_ranges_no_highlight. simpl. lia.
Defined.

(** X4.  A non-empty selection gives no highlight when
    [highlightSelectedText] is off, when it is shorter than
    [minSelectionLength] or longer than 200 characters, or when it holds
    only white space. *)
Theorem selection_guards this (v : View) :
  let st := state v in
  let conf := facet st in
  let range := main (selection st) in
  let len := (Z.of_nat (Editor.to range) - Z.of_nat (Editor.from range))%Z in
  empty range = false ->
  highlightSelectedText conf = false
  \/ (len < minSelectionLength conf)%Z
  \/ (200 < len)%Z
  \/ JS.trim (sliceDoc st (Editor.from range) (Editor.to range)) = EmptyString ->
  snd (getDeco this v) = [].
Proof.
  intros st conf range len He H. simpl. apply highlights_no_query.
  unfold selectionQuery. fold st. fold conf. fold range.
  destruct (1 <? _); [reflexivity|]. rewrite He. fold len.
  destruct H as [H|[H|[H|H]]].
  - rewrite H. reflexivity.
  - destruct (negb _); [reflexivity|]. apply Z.ltb_lt in H. rewrite H. reflexivity.
  - destruct (negb _); [reflexivity|].
    assert (E : (len >? 200)%Z = true) by (apply Z.gtb_lt; exact H).
    rewrite E, orb_true_r. reflexivity.
  - destruct (negb _); [reflexivity|]. destruct (_ || _); [reflexivity|].
    rewrite H. reflexivity.
Qed.

Lemma selection_guards_witness :
  snd (getDeco plugin0 blankSelected) = [].
Proof.
  apply selection_guards; [reflexivity|].
  right. right. right. reflexivity.
Defined.

(** X5.  At a caret nothing is highlighted when
    [highlightWordAroundCursor] is off, when the caret touches no word,
    when the word is shorter than [minSelectionLength], or when the word
    is on the ignore list, the list being compared without regard to
    case or to white space around its entries. *)
Theorem caret_guards this (v : View) :
  let st := state v in
  let conf := facet st in
  let range := main (selection st) in
  empty range = true ->
  highlightWordAroundCursor conf = false
  \/ wordAt st (head range) = None
  \/ (exists word,
        wordAt st (head range) = Some word
        /\ let query := sliceDoc st (Editor.from word) (Editor.to word) in
           (Z.of_nat (String.length query) < minSelectionLength conf)%Z
           \/ exists w, In w (JS.split "," (ignoredWords conf))
                        /\ JS.trim (JS.toLowerCase w) = JS.toLowerCase query) ->
  snd (getDeco this v) = [].
Proof.
  intros st conf range He H. simpl. apply highlights_no_query.
  unfold selectionQuery. fold st. fold conf. fold range.
  destruct (1 <? _); [reflexivity|]. rewrite He.
  destruct H as [H|[H|[word [Hw H]]]].
  - rewrite H. reflexivity.
  - destruct (negb _); [reflexivity|]. rewrite H. reflexivity.
  - destruct (negb _); [reflexivity|]. rewrite Hw. cbv zeta in H.
    destruct H as [H|[w [Hin Heq]]].
    + apply Z.ltb_lt in H. rewrite H, orb_true_r. reflexivity.
    + assert (E : JS.includes
                    (map (fun w => JS.trim (JS.toLowerCase w))
                         (JS.split "," (ignoredWords conf)))
                    (JS.toLowerCase (sliceDoc st (Editor.from word) (Editor.to word)))
                  = true).
      { unfold JS.includes. apply existsb_exists.
        exists (JS.trim (JS.toLowerCase w)). split.
        - apply (in_map (fun w => JS.trim (JS.toLowerCase w))). exact Hin.
        - rewrite Heq. apply String.eqb_refl. }
      rewrite E. reflexivity.
Qed.

Lemma caret_guards_witness :
  snd (getDeco plugin0 ignoredView) = []
  /\ snd (getDeco plugin0 wordOff) = [].
Proof.
  split.
  - apply caret_guards; [reflexivity|].
    right. right. exists (mkRange 0 3). split; [reflexivity|].
    right. exists (" And ")%string. split; [|reflexivity].
    vm_compute. right. left. reflexivity.
  - apply caret_guards; [reflexivity|]. left. reflexivity.
Defined.

End SelectionExtras.

(* ================================================================== *)
(** ** Order of the selection decorations, the plugin object, the delays *)
(* ================================================================== *)

Module SelectionOrder.
Import Editor EditorState SelectionHighlighter SelectionPlugin.
Import SelectionFacts SelectionSpec SelectionExtras Examples.
Local Open Scope list_scope.

Lemma StronglySorted_app A (R : A -> A -> Prop) (l1 l2 : list A) :
  StronglySorted R l1 -> StronglySorted R l2 ->
  (forall a b, In a l1 -> In b l2 -> R a b) ->
  StronglySorted R (l1 ++ l2).
Proof.
  induction l1 as [|x l1 IH]; intros H1 H2 Hc; simpl; [exact H2|].
  apply StronglySorted_inv in H1. destruct H1 as [H1 Hx].
  constructor.
  - apply IH; auto. intros a b Ha Hb. apply Hc; [right|]; assumption.
  - apply Forall_app. split; [exact Hx|].
    apply Forall_forall. intros b Hb. apply Hc; [left; reflexivity|exact Hb].
Qed.

Lemma nextMatches_ordered normalize text query to steps :
  0 < String.length query ->
  forall pos skip, ordered (nextMatches normalize text query to steps pos skip).
Proof.
  intros Hq. unfold ordered.
  induction steps as [|k IH]; intros pos skip; simpl; [constructor|].
  destruct skip as [|j]; [|apply IH].
  destruct (matchesAt normalize text query to pos); [|apply IH].
  constructor; [apply IH|].
  apply Forall_forall. intros m Hm.
  apply SearchFacts.nextMatches_sound in Hm. simpl. lia.
Qed.

Lemma candidates_ordered (st : State) query part :
  ordered (candidates st query part).
Proof.
  unfold candidates, SearchCursor. destruct query as [|c q]; [constructor|].
  apply nextMatches_ordered. simpl. lia.
Qed.

Lemma emit_span check matchType range (st : State) m r :
  In r (emit check matchType range st m) -> rfrom r = sfrom m /\ rto r = sto m.
Proof.
  intros H. apply in_emit in H. destruct H as [_ H].
  apply classify_shape in H. tauto.
Qed.

Lemma emit_inOrder check matchType range (st : State) ms :
  ordered ms -> inOrder (flat_map (emit check matchType range st) ms).
Proof.
  unfold ordered, inOrder. induction ms as [|m ms IH]; intros H; simpl;
    [constructor|].
  apply StronglySorted_inv in H. destruct H as [H Hm].
  apply StronglySorted_app; [|apply IH; exact H|].
  - unfold emit. destruct (accepted _ _ _ _); [|constructor].
    destruct (classify _ _ _ _ _ _); simpl; repeat constructor.
  - intros a b Ha Hb. apply emit_span in Ha. destruct Ha as [_ Ha].
    apply in_flat_map in Hb. destruct Hb as [m' [Hm' Hb]].
    apply emit_span in Hb. destruct Hb as [Hb _].
    rewrite Forall_forall in Hm. specialize (Hm m' Hm'). lia.
Qed.

Lemma collected_inOrder (st : State) query check matchType range parts :
  ordered parts -> inOrder (collected st query check matchType range parts).
Proof.
  unfold collected. induction parts as [|part parts IH]; intros H; simpl;
    [constructor|].
  apply StronglySorted_inv in H. destruct H as [H Hp].
  apply StronglySorted_app.
  - apply emit_inOrder. apply candidates_ordered.
  - apply IH. exact H.
  - intros a b Ha Hb.
    apply in_flat_map in Ha. destruct Ha as [m [Hm Ha]].
    apply emit_span in Ha. destruct Ha as [_ Ha].
    apply SearchFacts.SearchCursor_sound in Hm.
    apply in_flat_map in Hb. destruct Hb as [part' [Hp' Hb]].
    apply in_flat_map in Hb. destruct Hb as [m' [Hm' Hb]].
    apply emit_span in Hb. destruct Hb as [Hb _].
    apply SearchFacts.SearchCursor_sound in Hm'.
    rewrite Forall_forall in Hp. specialize (Hp part' Hp'). lia.
Qed.

(** X6.  When the visible ranges follow each other without overlap, the
    regions [getDeco] passes to [Decoration.set] are in document order
    and do not overlap: each one ends before the next one starts. *)
Theorem result_in_order this (v : View) :
  ordered (visibleRanges v) -> inOrder (snd (getDeco this v)).
Proof.
  intros H. simpl snd. rewrite highlights_closed.
  destruct (selectionQuery v) as [[[q check] mt]|]; [|constructor].
  cbv zeta. destruct (_ >? _)%Z; [constructor|].
  destruct (_ <? _); [constructor|].
  apply collected_inOrder. exact H.
Qed.

Lemma result_in_order_witness : inOrder (snd (getDeco plugin0 twoParts)).
Proof.
  apply result_in_order. unfold ordered. simpl.
  repeat constructor; simpl; lia.
Defined.

(** The loops read the main range through [from] and [to] only. *)
Lemma classify_range check matchType r1 r2 (st : State) from to :
  Editor.from r1 = Editor.from r2 -> Editor.to r1 = Editor.to r2 ->
  classify check matchType r1 st from to = classify check matchType r2 st from to.
Proof. unfold classify. intros -> ->. reflexivity. Qed.

Lemma scanCursor_range conf (st : State) check matchType r1 r2 cursor :
  Editor.from r1 = Editor.from r2 -> Editor.to r1 = Editor.to r2 ->
  forall deco,
    scanCursor conf st check matchType r1 cursor deco
    = scanCursor conf st check matchType r2 cursor deco.
Proof.
  intros Hf Ht. induction cursor as [|m ms IH]; intros deco; simpl; [reflexivity|].
  rewrite (classify_range check matchType r1 r2 st _ _ Hf Ht).
  destruct (accepted _ _ _ _); [|apply IH].
  destruct (_ >? _)%Z; [reflexivity|apply IH].
Qed.

Lemma scanRanges_range conf (st : State) query check matchType r1 r2 parts :
  Editor.from r1 = Editor.from r2 -> Editor.to r1 = Editor.to r2 ->
  forall deco,
    scanRanges conf st query check matchType r1 parts deco
    = scanRanges conf st query check matchType r2 parts deco.
Proof.
  intros Hf Ht. induction parts as [|p ps IH]; intros deco; simpl; [reflexivity|].
  rewrite (scanCursor_range conf st check matchType r1 r2 _ Hf Ht).
  destruct (scanCursor _ _ _ _ _ _ _); [apply IH|reflexivity].
Qed.

(** The loops read the state through its document only. *)
Lemma scanCursor_doc conf (st1 st2 : State) check matchType range cursor :
  doc st1 = doc st2 ->
  forall deco,
    scanCursor conf st1 check matchType range cursor deco
    = scanCursor conf st2 check matchType range cursor deco.
Proof.
  intros Hd. induction cursor as [|m ms IH]; intros deco; simpl; [reflexivity|].
  unfold accepted, classify, sliceDoc. rewrite Hd.
  destruct (match check with Some _ => _ | None => _ end); [|apply IH].
  destruct (_ >? _)%Z; [reflexivity|apply IH].
Qed.

Lemma scanRanges_doc conf (st1 st2 : State) query check matchType range parts :
  doc st1 = doc st2 ->
  forall deco,
    scanRanges conf st1 query check matchType range parts deco
    = scanRanges conf st2 query check matchType range parts deco.
Proof.
  intros Hd. induction parts as [|p ps IH]; intros deco; simpl; [reflexivity|].
  rewrite Hd, (scanCursor_doc conf st1 st2 check matchType range _ Hd).
  destruct (scanCursor _ _ _ _ _ _ _); [apply IH|reflexivity].
Qed.

Lemma flipRange_same r :
  Editor.from (flipRange r) = Editor.from r
  /\ Editor.to (flipRange r) = Editor.to r
  /\ empty (flipRange r) = empty r
  /\ (empty r = true -> head (flipRange r) = head r).
Proof.
  unfold empty. unfold flipRange, Editor.from, Editor.to. simpl.
  rewrite (Nat.min_comm (head r)), (Nat.max_comm (head r)).
  do 3 (split; [reflexivity|]). intros H. apply Nat.eqb_eq in H. lia.
Qed.

(** X7.  The direction of the selection does not matter: with anchor and
    head of the selection ranges exchanged, [getDeco] returns the same
    regions. *)
Theorem direction_independent this (v : View) :
  snd (getDeco this (flipped v)) = snd (getDeco this v).
Proof.
  simpl snd. unfold highlights.
  set (range := main (selection (state v))).
  assert (Hmain : main (selection (state (flipped v))) = flipRange range).
  { unfold flipped, main. simpl.
    change (mkRange 0 0) with (flipRange (mkRange 0 0)).
    apply map_nth. }
  destruct (flipRange_same range) as [Hf [Ht [He Hh]]].
  assert (Hq : selectionQuery (flipped v) = selectionQuery v).
  { unfold selectionQuery. rewrite Hmain. fold range.
    change (ranges (selection (state (flipped v))))
      with (map flipRange (ranges (selection (state v)))).
    rewrite length_map.
    destruct (1 <? _); [reflexivity|]. rewrite He.
    destruct (empty range) eqn:E.
    - rewrite (Hh eq_refl). reflexivity.
    - rewrite Hf, Ht. reflexivity. }
  rewrite Hq, Hmain. fold range.
  destruct (selectionQuery v) as [[[q check] mt]|]; [|reflexivity].
  change (visibleRanges (flipped v)) with (visibleRanges v).
  change (facet (state (flipped v))) with (facet (state v)).
  rewrite (scanRanges_doc (facet (state v)) (state (flipped v)) (state v)
             q check mt (flipRange range) (visibleRanges v) eq_refl []).
  rewrite (scanRanges_range (facet (state v)) (state v) q check mt
             (flipRange range) range (visibleRanges v) Hf Ht []).
  unfold threshold. rewrite He. reflexivity.
Qed.

(** X8.  The constructor leaves the plugin with the adaptive delay of its
    view and with the decorations of [getDeco]; [getDeco] returns the
    same regions whatever the plugin holds, and running it again on the
    same view changes the plugin no further. *)
Theorem constructor_then_getDeco this (v : View) :
  this_highlightDelay (construct v) = adaptiveDelay v
  /\ this_decorations (construct v) = snd (getDeco this v)
  /\ getDeco (construct v) v = (construct v, this_decorations (construct v))
  /\ fst (getDeco (fst (getDeco this v)) v) = fst (getDeco this v).
Proof.
  unfold construct, getDeco, updateDebouncer. simpl.
  destruct (adaptiveDelay v =? highlightDelay (facet (state v)))%Z eqn:E1; simpl.
  - rewrite E1. simpl. repeat split.
    destruct (this_highlightDelay this =? highlightDelay (facet (state v)))%Z eqn:E2;
      simpl; [rewrite E2|rewrite E1]; reflexivity.
  - rewrite E1. simpl. repeat split.
    destruct (this_highlightDelay this =? highlightDelay (facet (state v)))%Z eqn:E2;
      simpl; [rewrite E2|rewrite E1]; reflexivity.
Qed.

Lemma adaptiveDelay_closed (v : View) :
  let base := highlightDelay (facet (state v)) in
  let docSize := Z.of_nat (String.length (doc (state v))) in
  adaptiveDelay v
  = ((if (docSize >? 100000)%Z then Z.max base 500
      else if (docSize >? 50000)%Z then Z.max base 300 else base)
     + (if (visibleRangeSize v >? 10000)%Z then 100 else 0))%Z.
Proof.
  intros base docSize. unfold adaptiveDelay. fold base. fold docSize.
  destruct (docSize >? 100000)%Z eqn:H1; destruct (docSize >? 50000)%Z eqn:H2;
    destruct (visibleRangeSize v >? 10000)%Z; lia.
Qed.

(** X9.  The adaptive delay never exceeds the larger of the configured
    delay and 500, plus 100, and it grows with the document and with the
    visible ranges: for the same configured delay, a document at least
    as long shown in visible ranges at least as large gets a delay at
    least as long. *)
Theorem adaptive_delay_monotone (v v' : View) :
  let base := highlightDelay (facet (state v)) in
  (adaptiveDelay v <= Z.max base 500 + 100)%Z
  /\ (highlightDelay (facet (state v')) = base ->
      String.length (doc (state v)) <= String.length (doc (state v')) ->
      (visibleRangeSize v <= visibleRangeSize v')%Z ->
      (adaptiveDelay v <= adaptiveDelay v')%Z).
Proof.
  intros base. rewrite (adaptiveDelay_closed v). fold base.
  rewrite (adaptiveDelay_closed v'). cbv zeta.
  set (n := Z.of_nat (String.length (doc (state v)))).
  set (n' := Z.of_nat (String.length (doc (state v')))).
  set (s := visibleRangeSize v). set (s' := visibleRangeSize v').
  split.
  - destruct (n >? 100000)%Z; destruct (n >? 50000)%Z;
      destruct (s >? 10000)%Z; lia.
  - intros Hb Hd Hv. rewrite Hb.
    assert (Hn : (n <= n')%Z) by (subst n n'; apply Nat2Z.inj_le; exact Hd).
    destruct (n >? 100000)%Z eqn:A1; destruct (n >? 50000)%Z eqn:A2;
      destruct (n' >? 100000)%Z eqn:B1; destruct (n' >? 50000)%Z eqn:B2;
      destruct (s >? 10000)%Z eqn:C1; destruct (s' >? 10000)%Z eqn:C2;
      cmp; lia.
Qed.

Lemma adaptive_delay_monotone_witness :
  (adaptiveDelay catsView <= adaptiveDelay largeView)%Z.
Proof.
  apply (proj2 (adaptive_delay_monotone catsView largeView)).
  - vm_compute. reflexivity.
  - apply Nat.leb_le. vm_compute. reflexivity.
  - vm_compute. discriminate.
Defined.

(** X10.  An update schedules something exactly when the selection, the
    document or the viewport changed.  The recompute then runs on a
    temporary debouncer, not on the plugin's own, exactly when typing
    meets a delay below 200 or a pure scroll meets a delay above 100. *)
Theorem temporary_debouncer this (u : ViewUpdate) :
  let delay := this_highlightDelay this in
  (update this u = None <->
   selectionSet u = false /\ docChanged u = false /\ viewportChanged u = false)
  /\ (forall s, update this u = Some s ->
        (temporaryDebouncer s = true <->
         (isTyping u = true /\ (delay < 200)%Z)
         \/ (isTyping u = false /\ isScrolling u = true /\ (100 < delay)%Z))).
Proof.
  intros delay. split.
  - unfold update.
    destruct (selectionSet u), (docChanged u), (viewportChanged u); simpl;
      split; try discriminate; try tauto; intros [? [? ?]]; discriminate.
  - intros s Hs. unfold update in Hs.
    destruct (_ || _); [|discriminate]. inversion Hs; subst s. simpl.
    unfold effectiveDelay. fold delay.
    rewrite negb_true_iff, Z.eqb_neq.
    destruct (isTyping u); destruct (isScrolling u); split;
      try (intros [[? ?]|[? [? ?]]]; try discriminate); try lia;
      intros H; try (left; split; [reflexivity|lia]);
      try (right; repeat split; lia); try (exfalso; lia).
Qed.

Lemma temporary_debouncer_witness :
  temporaryDebouncer (mkScheduled 150 200 true) = true.
Proof.
  apply (proj2 (temporary_debouncer plugin0 typing) (mkScheduled 150 200 true)).
  - reflexivity.
  - left. split; [reflexivity|]. simpl. lia.
Defined.

End SelectionOrder.

(* ================================================================== *)
(** ** Properties of the configuration facets and of the theme *)
(* ================================================================== *)

Module ConfigExtras.
Import Editor EditorState SelectionHighlighter.
Import Configs Configs.Selection.
Local Open Scope list_scope.

Lemma mergeField_idempotent A (same : A -> A -> bool) (f : A -> A -> A) key cur v :
  (same cur v = true -> f cur v = cur) ->
  mergeField same (Some f) key (Some cur) v = inr (Some (f cur v)).
Proof.
  intros H. unfold mergeField. destruct (same cur v); [rewrite H|]; reflexivity.
Qed.

(** Once every field is defined, merging further configs folds the
    combiners over them, unless one disagrees on
    [highlightSelectedText]. *)
Lemma mergeAll_defined configs : forall w b mn mx ig d,
  mergeAll configs (mkPartial (Some w) (Some b) (Some mn) (Some mx) (Some ig) (Some d))
  = if forallb (fun c => Bool.eqb b (highlightSelectedText c)) configs
    then inr (mkPartial
                (Some (fold_left orb (map highlightWordAroundCursor configs) w))
                (Some b)
                (Some (fold_left Z.min (map minSelectionLength configs) mn))
                (Some (fold_left Z.min (map maxMatches configs) mx))
                (Some (fold_left orString (map ignoredWords configs) ig))
                (Some (fold_left Z.min (map highlightDelay configs) d)))
    else inl conflict.
Proof.
  induction configs as [|c cs IH]; intros w b mn mx ig d; [reflexivity|].
  cbn [mergeAll forallb map fold_left]. unfold mergeConfig.
  cbn [p_highlightWordAroundCursor p_highlightSelectedText p_minSelectionLength
       p_maxMatches p_ignoredWords p_highlightDelay].
  rewrite mergeField_idempotent.
  2:{ intros H. apply Bool.eqb_prop in H. subst. apply orb_diag. }
  unfold mergeField at 1.
  destruct (Bool.eqb b (highlightSelectedText c)) eqn:E; [|reflexivity].
  rewrite !mergeField_idempotent.
  - cbn [andb]. apply IH.
  - intros H. apply Z.eqb_eq in H. subst. apply Z.min_id.
  - intros H. apply String.eqb_eq in H. subst.
    destruct (ignoredWords c); reflexivity.
  - intros H. apply Z.eqb_eq in H. subst. apply Z.min_id.
  - intros H. apply Z.eqb_eq in H. subst. apply Z.min_id.
Qed.

Lemma fold_min_least l : forall a,
  (fold_left Z.min l a <= a)%Z
  /\ (forall x, In x l -> (fold_left Z.min l a <= x)%Z)
  /\ In (fold_left Z.min l a) (a :: l).
Proof.
  induction l as [|y l IH]; intros a; simpl.
  - split; [lia|]. split; [intros x []|auto].
  - destruct (IH (Z.min a y)) as [H1 [H2 H3]].
    split; [lia|]. split.
    + intros x [Hx|Hx]; [subst; lia|auto].
    + destruct H3 as [H3|H3]; [|auto].
      rewrite <- H3. destruct (Z.min_spec a y) as [[_ E]|[_ E]]; rewrite E; auto.
Qed.

Lemma fold_orb_true l : forall a,
  fold_left orb l a = true <-> a = true \/ In true l.
Proof.
  induction l as [|y l IH]; intros a; simpl.
  - tauto.
  - rewrite IH, orb_true_iff. intuition congruence.
Qed.

Lemma combine_cons ignoredDefault c cs :
  combine ignoredDefault (c :: cs)
  = if forallb (fun c' => Bool.eqb (highlightSelectedText c) (highlightSelectedText c')) cs
    then inr (mkOptions
                (fold_left orb (map highlightWordAroundCursor cs)
                           (highlightWordAroundCursor c))
                (highlightSelectedText c)
                (fold_left Z.min (map minSelectionLength cs) (minSelectionLength c))
                (fold_left Z.min (map maxMatches cs) (maxMatches c))
                (fold_left orString (map ignoredWords cs) (ignoredWords c))
                (fold_left Z.min (map highlightDelay cs) (highlightDelay c)))
    else inl conflict.
Proof.
  unfold combine. cbn [mergeAll]. unfold mergeConfig, undefined. cbn.
  rewrite mergeAll_defined. destruct (forallb _ cs); reflexivity.
Qed.

(** X11.  When the provided selection configs combine, the strictest
    numbers win: [maxMatches], [minSelectionLength] and [highlightDelay]
    of the result are the smallest values among the configs, and the
    word-around-cursor highlight is on as soon as one config turns it
    on. *)
Theorem combine_takes_minimum ignoredDefault configs r :
  combine ignoredDefault configs = inr r ->
  configs <> [] ->
  let least (field : SelectionHighlightOptions -> Z) :=
    (forall c, In c configs -> (field r <= field c)%Z)
    /\ (exists c, In c configs /\ field r = field c) in
  least maxMatches /\ least minSelectionLength /\ least highlightDelay
  /\ (highlightWordAroundCursor r = true <->
      exists c, In c configs /\ highlightWordAroundCursor c = true).
Proof.
  intros Hr Hne. destruct configs as [|c cs]; [congruence|]. clear Hne.
  rewrite combine_cons in Hr. destruct (forallb _ cs); [|discriminate].
  inversion Hr; subst r; clear Hr. cbv zeta.
  assert (Hleast : forall field : SelectionHighlightOptions -> Z,
             (forall c', In c' (c :: cs) ->
                (fold_left Z.min (map field cs) (field c) <= field c')%Z)
             /\ (exists c', In c' (c :: cs)
                  /\ fold_left Z.min (map field cs) (field c) = field c')).
  { intros field. destruct (fold_min_least (map field cs) (field c)) as [H1 [H2 H3]].
    split.
    - intros c' [E|Hin]; [subst; exact H1|]. apply H2. apply in_map. exact Hin.
    - destruct H3 as [E|Hin].
      + exists c. split; [left; reflexivity|auto].
      + apply in_map_iff in Hin. destruct Hin as [c' [E Hin]].
        exists c'. split; [right; exact Hin|auto]. }
  simpl. split; [apply (Hleast maxMatches)|].
  split; [apply (Hleast minSelectionLength)|].
  split; [apply (Hleast highlightDelay)|].
  rewrite fold_orb_true. split.
  - intros [H|H]; [exists c; simpl; auto|].
    apply in_map_iff in H. destruct H as [c' [E Hin]]. exists c'. simpl. auto.
  - intros [c' [[E|Hin] H]]; [subst; auto|].
    right. rewrite <- H. apply in_map. exact Hin.
Qed.

Lemma combine_takes_minimum_witness :
  (forall c, In c [loose; strict; loose] ->
             (maxMatches (mkOptions true true 2 10 "the" 0) <= maxMatches c)%Z)
  /\ (exists c, In c [loose; strict; loose]
                /\ maxMatches (mkOptions true true 2 10 "the" 0) = maxMatches c).
Proof.
  refine (proj1 (combine_takes_minimum EmptyString [loose; strict; loose]
                   (mkOptions true true 2 10 "the" 0) _ _)).
  - reflexivity.
  - discriminate.
Defined.

(** X12.  [highlightSelectedText] is the one field without a combiner:
    combining the provided configs throws a merge conflict for that
    field exactly when two of them disagree on it, and with no config at
    all the result is the defaults. *)
Theorem combine_conflict ignoredDefault configs :
  ((exists e, combine ignoredDefault configs = inl e) <->
   exists c1 c2, In c1 configs /\ In c2 configs
                 /\ highlightSelectedText c1 <> highlightSelectedText c2)
  /\ (forall e, combine ignoredDefault configs = inl e -> e = conflict)
  /\ combine ignoredDefault [] = inr (defaultHighlightOptions ignoredDefault).
Proof.
  split; [|split; [|reflexivity]].
  - destruct configs as [|c cs].
    + split; [intros [e H]; discriminate|intros [c1 [c2 [[] _]]]].
    + rewrite combine_cons.
      destruct (forallb _ cs) eqn:E.
      * split; [intros [e H]; discriminate|].
        intros [c1 [c2 [H1 [H2 Hd]]]]. exfalso. apply Hd.
        rewrite forallb_forall in E.
        assert (Hall : forall c', In c' (c :: cs) ->
                   highlightSelectedText c' = highlightSelectedText c).
        { intros c' [E'|Hin]; [subst; reflexivity|].
          symmetry. apply Bool.eqb_prop. apply E. exact Hin. }
        rewrite (Hall c1 H1), (Hall c2 H2). reflexivity.
      * split; [|intros _; eexists; reflexivity]. intros _.
        assert (Hex : exists c', In c' cs
                   /\ Bool.eqb (highlightSelectedText c) (highlightSelectedText c') = false).
        { clear -E. induction cs as [|x cs IH]; [discriminate|].
          simpl in E. apply andb_false_iff in E. destruct E as [E|E].
          - exists x. split; [left; reflexivity|exact E].
          - destruct (IH E) as [c' [Hin H]]. exists c'. split; [right|]; assumption. }
        destruct Hex as [c' [Hin H]]. exists c, c'.
        split; [left; reflexivity|]. split; [right; exact Hin|].
        apply Bool.eqb_false_iff. exact H.
  - intros e H. destruct configs as [|c cs]; [discriminate|].
    rewrite combine_cons in H. destruct (forallb _ cs); [discriminate|].
    inversion H. reflexivity.
Qed.

Lemma combine_conflict_witness :
  exists e, combine EmptyString [loose; noSelection] = inl e.
Proof.
  apply (proj2 (proj1 (combine_conflict EmptyString [loose; noSelection]))).
  exists loose, noSelection. simpl. repeat split; auto. discriminate.
Defined.

Import StaticHighlighter Configs.Static.

Lemma static_mergeAll_defined sameQ sameO configs : forall qs order,
  Configs.Static.mergeAll sameQ sameO configs (Some qs, Some order)
  = inr (Some qs, Some order).
Proof.
  induction configs as [|c cs IH]; intros qs order; [reflexivity|].
  simpl. unfold Configs.Static.mergeConfig, mergeField. simpl.
  destruct (sameQ qs (queries c)); destruct (sameO order (queryOrder c));
    apply IH.
Qed.

(** X13.  Of several static configs the first one wins: combining them
    never throws and gives the rules and the order of the first, however
    the identity test of the objects turns out; with no config the rules
    and the order are empty. *)
Theorem static_combine_first sameQ sameO c configs :
  Configs.Static.combine sameQ sameO (c :: configs) = inr c
  /\ Configs.Static.combine sameQ sameO [] = inr (mkStaticOptions [] []).
Proof.
  split; [|reflexivity].
  unfold Configs.Static.combine. simpl.
  unfold Configs.Static.mergeConfig, mergeField. simpl.
  rewrite static_mergeAll_defined. destruct c. reflexivity.
Qed.

(** *** The theme *)

Lemma Map_get_set_same V key (v : V) (m : Map V) :
  Map_get key (Map_set key v m) = Some v.
Proof.
  induction m as [|[k v0] m IH]; simpl.
  - rewrite String.eqb_refl. reflexivity.
  - destruct (String.eqb k key) eqn:E; simpl; rewrite E; [reflexivity|exact IH].
Qed.

Lemma Map_get_set_other V key key' (v : V) (m : Map V) :
  key <> key' -> Map_get key' (Map_set key v m) = Map_get key' m.
Proof.
  intros Hne. induction m as [|[k v0] m IH]; simpl.
  - destruct (String.eqb_spec key key'); [contradiction|reflexivity].
  - destruct (String.eqb_spec k key); simpl.
    + subst k. destruct (String.eqb_spec key key'); [contradiction|reflexivity].
    + destruct (String.eqb k key'); [reflexivity|exact IH].
Qed.

Lemma addStyle_other styles q cls :
  class q <> cls \/ hasColour q = false ->
  Map_get ("." ++ cls) (addStyle styles q) = Map_get ("." ++ cls) styles.
Proof.
  unfold addStyle, hasColour. intros H.
  destruct (color q) as [[|a c]|]; try reflexivity.
  destruct H as [H|H]; [|discriminate].
  apply Map_get_set_other. simpl. intros E. inversion E. contradiction.
Qed.

Lemma styles_other qs cls : forall styles,
  (forall q, In q qs -> class q <> cls \/ hasColour q = false) ->
  Map_get ("." ++ cls) (fold_left addStyle qs styles) = Map_get ("." ++ cls) styles.
Proof.
  induction qs as [|q qs IH]; intros styles H; simpl; [reflexivity|].
  rewrite IH.
  - apply addStyle_other. apply H. left. reflexivity.
  - intros q' Hq'. apply H. right. exact Hq'.
Qed.

(** X14.  In the theme [buildStyles] makes, the selector of a class
    carries the colour of the last rule of that class that has a colour;
    a class whose rules have no colour, or an empty one, gets no style. *)
Theorem buildStyles_lookup (qs : list SearchQuery) (cls : string) :
  ((forall q, In q qs -> class q = cls -> hasColour q = false) ->
   Map_get ("." ++ cls) (buildStyles qs) = None)
  /\ (forall before q after c,
        qs = before ++ q :: after ->
        class q = cls -> color q = Some c -> c <> EmptyString ->
        (forall q', In q' after -> class q' = cls -> hasColour q' = false) ->
        Map_get ("." ++ cls) (buildStyles qs) = Some (mkStyle c)).
Proof.
  assert (Hdec : forall l : list SearchQuery,
             (forall q, In q l -> class q = cls -> hasColour q = false) ->
             forall q, In q l -> class q <> cls \/ hasColour q = false).
  { intros l H q Hq. destruct (String.eqb_spec (class q) cls); auto. }
  unfold buildStyles.
  split.
  - intros H. rewrite styles_other; [reflexivity|apply Hdec; exact H].
  - intros before q after c Hqs Hc Hcol Hne Hafter. subst qs.
    rewrite fold_left_app. cbn [fold_left].
    rewrite styles_other by (apply Hdec; exact Hafter).
    unfold addStyle. rewrite Hcol, Hc.
    destruct c as [|a c]; [congruence|]. apply Map_get_set_same.
Qed.

Lemma buildStyles_lookup_witness :
  Map_get ".note" (buildStyles [coloured "todo" (Some "red");
                                coloured "note" None;
                                coloured "note" (Some EmptyString)]) = None
  /\ Map_get ".todo" (buildStyles [coloured "todo" (Some "red");
                                   coloured "todo" (Some "blue");
                                   coloured "todo" None])
     = Some (mkStyle "blue").
Proof.
  split.
  - apply (proj1 (buildStyles_lookup _ "note")).
    intros q [H|[H|[H|[]]]] Hc; subst q; try reflexivity; discriminate.
  - apply (proj2 (buildStyles_lookup _ "todo")
             [coloured "todo" (Some "red")] (coloured "todo" (Some "blue"))
             [coloured "todo" None] "blue").
    + reflexivity.
    + reflexivity.
    + reflexivity.
    + discriminate.
    + intros q [H|[]] _. subst q. reflexivity.
Defined.

End ConfigExtras.

(* ================================================================== *)
(** ** Properties of the decoration pool *)
(* ================================================================== *)

Module PoolExtras.
Import Editor EditorState StaticHighlighter StaticInvariants StaticFacts.
Import PoolModel ConfigExtras.
Local Open Scope list_scope.

Local Abbreviation L := list_ascii_of_string.

Lemma L_app (a b : string) : L (a ++ b)%string = L a ++ L b.
Proof. induction a as [|c a IH]; simpl; [reflexivity|]. rewrite IH. reflexivity. Qed.

Lemma L_inj (a b : string) : L a = L b -> a = b.
Proof.
  intros H. rewrite <- (string_of_list_ascii_of_string a),
                    <- (string_of_list_ascii_of_string b), H. reflexivity.
Qed.

(** *** Escaping loses nothing *)

Lemma decodeChar_escapeChar c rest :
  decodeChar (escapeChar c ++ rest)%string = Some (c, rest).
Proof. destruct c as [[] [] [] [] [] [] [] []]; reflexivity. Qed.

Lemma escape_injective s1 : forall s2, escape s1 = escape s2 -> s1 = s2.
Proof.
  induction s1 as [|c1 s1 IH]; intros [|c2 s2] H; simpl in H.
  - reflexivity.
  - apply (f_equal decodeChar) in H. rewrite decodeChar_escapeChar in H.
    discriminate.
  - apply (f_equal decodeChar) in H. rewrite decodeChar_escapeChar in H.
    discriminate.
  - apply (f_equal decodeChar) in H. rewrite !decodeChar_escapeChar in H.
    inversion H. f_equal. apply IH. assumption.
Qed.

Lemma last_cons A (l : list A) : forall c d, last (c :: l) d = last l c.
Proof.
  induction l as [|a l IH]; intros c d; [reflexivity|].
  change (last (c :: a :: l) d) with (last (a :: l) d).
  rewrite (IH a d), (IH a c). reflexivity.
Qed.

Lemma quotesGuarded_app l1 : forall prev l2,
  quotesGuarded prev (l1 ++ l2)
  = quotesGuarded prev l1 && quotesGuarded (last l1 prev) l2.
Proof.
  induction l1 as [|c l1 IH]; intros prev l2; [reflexivity|].
  cbn [app quotesGuarded]. rewrite IH, andb_assoc, last_cons. reflexivity.
Qed.

Lemma escapeChar_guarded c prev : quotesGuarded prev (L (escapeChar c)) = true.
Proof. destruct c as [[] [] [] [] [] [] [] []]; reflexivity. Qed.

Lemma escape_guarded s : forall prev, quotesGuarded prev (L (escape s)) = true.
Proof.
  induction s as [|c s IH]; intros prev; simpl; [reflexivity|].
  rewrite L_app, quotesGuarded_app, escapeChar_guarded, IH. reflexivity.
Qed.

(** *** The keys tell the decorations apart *)

Lemma last_app_nonempty A (l1 l2 : list A) d :
  l2 <> [] -> last (l1 ++ l2) d = last l2 d.
Proof.
  intros H. induction l1 as [|x l1 IH]; [reflexivity|].
  simpl. destruct (l1 ++ l2) eqn:E; [|exact IH].
  apply app_eq_nil in E. tauto.
Qed.

(** Escaped contents cannot hold the start of another key's contents:
    the quote that opens the contents follows a colon. *)
Lemma no_shift (x e1 e2 : list ascii) :
  (keyStart ++ [dq]) ++ e1 = x ++ (keyStart ++ [dq]) ++ e2 ->
  quotesGuarded ":"%char e1 = true ->
  x = [].
Proof.
  intros H Hg. destruct x as [|a x]; [reflexivity|]. exfalso.
  assert (H' : (keyStart ++ [dq]) ++ e1 = ((a :: x) ++ keyStart) ++ dq :: e2).
  { rewrite H, <- !app_assoc. reflexivity. }
  clear H. apply app_eq_app in H'. destruct H' as [l [[H1 H2]|[H1 H2]]].
  - apply (f_equal (@List.length ascii)) in H1.
    rewrite !length_app in H1. simpl in H1.
    destruct l as [|b l]; [|simpl in H1; lia].
    simpl in H2. subst e1. simpl in Hg. discriminate.
  - subst e1. rewrite quotesGuarded_app in Hg.
    apply andb_true_iff in Hg. destruct Hg as [_ Hg].
    assert (Hl : last l ":"%char = ":"%char).
    { destruct l as [|b l]; [reflexivity|].
      rewrite <- (last_app_nonempty _ (keyStart ++ [dq]) (b :: l)) by discriminate.
      rewrite <- H1. rewrite last_app_nonempty by discriminate. reflexivity. }
    rewrite Hl in Hg. simpl in Hg. discriminate.
Qed.

Lemma key_plain type cls :
  L (cacheKey type cls None) = L type ++ "-"%char :: L cls ++ L "-{}".
Proof.
  unfold cacheKey, JSON_stringify. simpl JS.join.
  rewrite !L_app. simpl. reflexivity.
Qed.

Lemma key_contents type cls contents :
  L (cacheKey type cls (Some [("data-contents", contents)]))
  = L type ++ "-"%char :: L cls
      ++ ((keyStart ++ [dq]) ++ L (escape contents)) ++ keyEnd.
Proof.
  unfold cacheKey, JSON_stringify, quote. simpl JS.join. simpl map.
  rewrite !L_app. simpl. rewrite !L_app. simpl.
  rewrite <- !app_assoc. reflexivity.
Qed.

Lemma plain_injective cls1 cls2 :
  L cls1 ++ L "-{}" = L cls2 ++ L "-{}" -> cls1 = cls2.
Proof. intros H. apply app_inv_tail in H. apply L_inj. exact H. Qed.

Lemma plain_not_contents cls1 cls2 contents :
  L cls1 ++ L "-{}"
  <> L cls2 ++ ((keyStart ++ [dq]) ++ L (escape contents)) ++ keyEnd.
Proof.
  intros H.
  change (L "-{}") with (["-"; "{"] ++ ["}"])%char in H.
  unfold keyEnd in H.
  change [dq; "}"%char] with ([dq] ++ ["}"%char]) in H.
  rewrite !app_assoc in H. apply app_inj_tail in H. destruct H as [H _].
  change ["-"%char; "{"%char] with (["-"%char] ++ ["{"%char]) in H.
  rewrite !app_assoc in H. apply app_inj_tail in H. destruct H as [_ H].
  discriminate.
Qed.

Lemma contents_injective cls1 cls2 s1 s2 :
  L cls1 ++ ((keyStart ++ [dq]) ++ L (escape s1)) ++ keyEnd
  = L cls2 ++ ((keyStart ++ [dq]) ++ L (escape s2)) ++ keyEnd ->
  cls1 = cls2 /\ s1 = s2.
Proof.
  intros H. rewrite !app_assoc in H. apply app_inv_tail in H.
  rewrite <- !app_assoc in H. rewrite !(app_assoc keyStart) in H.
  assert (Hl : L cls1 = L cls2).
  { apply app_eq_app in H. destruct H as [l [[H1 H2]|[H1 H2]]].
    - apply no_shift in H2; [|apply escape_guarded].
      subst l. rewrite app_nil_r in H1. exact H1.
    - apply no_shift in H2; [|apply escape_guarded].
      subst l. rewrite app_nil_r in H1. symmetry. exact H1. }
  rewrite Hl in H. apply app_inv_head in H. apply app_inv_head in H.
  split; [apply L_inj; exact Hl|].
  apply escape_injective. apply L_inj. exact H.
Qed.

Lemma keyOf_injective d1 d2 :
  pooled d1 -> pooled d2 -> keyOf d1 = keyOf d2 -> d1 = d2.
Proof.
  intros P1 P2 H. apply (f_equal L) in H.
  destruct d1 as [c1 [[|[k1 s1] [|? ?]]|]|[|[k1 c1] [|? ?]]|[[c1|]]];
    simpl in P1; try contradiction;
  destruct d2 as [c2 [[|[k2 s2] [|? ?]]|]|[|[k2 c2] [|? ?]]|[[c2|]]];
    simpl in P2; try contradiction; subst;
  unfold keyOf in H;
  rewrite ?key_plain, ?key_contents in H; simpl L in H;
  try (simpl in H; discriminate);
  simpl in H; inversion H as [H']; clear H.
  - apply contents_injective in H'. destruct H' as [-> ->]. reflexivity.
  - symmetry in H'. apply plain_not_contents in H'. contradiction.
  - apply plain_not_contents in H'. contradiction.
  - apply plain_injective in H'. subst. reflexivity.
  - apply plain_injective in H'. subst. reflexivity.
  - apply plain_injective in H'. subst. reflexivity.
Qed.

End PoolExtras.

Module PoolSpec.
Import Editor EditorState StaticHighlighter StaticInvariants StaticFacts.
Import PoolModel ConfigExtras PoolExtras.
Local Open Scope list_scope.

Lemma Map_get_In_pair V key (m : Map V) v :
  Map_get key m = Some v -> In (key, v) m.
Proof.
  induction m as [|[k v0] m IH]; simpl; [discriminate|].
  destruct (String.eqb_spec k key).
  - intros H; inversion H; subst. left. reflexivity.
  - intros H. right. apply IH. exact H.
Qed.

(** What an asked request creates, and under which key. *)
Lemma asked_new type cls attrs :
  asked type attrs ->
  exists d, newDecoration type cls attrs = inr d
            /\ pooled d /\ keyOf d = cacheKey type cls attrs.
Proof.
  intros [[-> [->|[s ->]]]|[[-> ->]|[-> ->]]]; eexists; repeat split.
Qed.

(** X15.  [getDecoration] memoizes: a call that returns puts at most one
    entry into the cache, at its end, and the same request made again
    returns the same decoration and leaves the cache as it is. *)
Theorem getDecoration_memoizes type cls attrs (pool pool' : Pool) d :
  getDecoration type cls attrs pool = (pool', inr d) ->
  getDecoration type cls attrs pool' = (pool', inr d)
  /\ (pool' = pool \/ pool' = pool ++ [(cacheKey type cls attrs, d)])
  /\ Map_get (cacheKey type cls attrs) pool' = Some d.
Proof.
  unfold getDecoration.
  destruct (Map_get (cacheKey type cls attrs) pool) as [d0|] eqn:Hget.
  - intros H; inversion H; subst. rewrite Hget. auto.
  - destruct (newDecoration type cls attrs) as [e|d0]; [discriminate|].
    intros H; inversion H; subst.
    rewrite Map_get_set_same. split; [reflexivity|]. split; [|reflexivity].
    right. apply Map_set_fresh. apply Map_get_None. exact Hget.
Qed.

Lemma getDecoration_memoizes_witness :
  getDecoration "mark" "todo" (Some [("data-contents", "TODO"%string)])
                [(cacheKey "mark" "todo" (Some [("data-contents", "TODO"%string)]),
                  todoMark)]
  = ([(cacheKey "mark" "todo" (Some [("data-contents", "TODO"%string)]), todoMark)],
     inr todoMark).
Proof.
  apply (getDecoration_memoizes "mark" "todo"
           (Some [("data-contents", "TODO"%string)]) [] _ todoMark).
  reflexivity.
Defined.

(** X16.  Distinct requests of [getDeco] never share a cache key: two
    asked requests with the same key have the same type, class and
    attributes, whatever characters the class and the matched text
    hold. *)
Theorem cacheKey_injective type1 cls1 attrs1 type2 cls2 attrs2 :
  asked type1 attrs1 -> asked type2 attrs2 ->
  cacheKey type1 cls1 attrs1 = cacheKey type2 cls2 attrs2 ->
  type1 = type2 /\ cls1 = cls2 /\ attrs1 = attrs2.
Proof.
  intros A1 A2 H.
  destruct (asked_new type1 cls1 attrs1 A1) as [d1 [N1 [P1 K1]]].
  destruct (asked_new type2 cls2 attrs2 A2) as [d2 [N2 [P2 K2]]].
  assert (E : d1 = d2) by (apply keyOf_injective; congruence).
  subst d2.
  destruct A1 as [[-> [->|[s1 ->]]]|[[-> ->]|[-> ->]]];
    destruct A2 as [[-> [->|[s2 ->]]]|[[-> ->]|[-> ->]]];
    simpl in N1, N2; inversion N1; subst d1; inversion N2; auto.
Qed.

Lemma cacheKey_injective_witness :
  "mark"%string = "mark"%string /\ "a-b"%string = "a-b"%string
  /\ Some [("data-contents", "x"%string)] = Some [("data-contents", "x"%string)].
Proof.
  apply cacheKey_injective.
  - left. split; [reflexivity|]. right. eexists. reflexivity.
  - left. split; [reflexivity|]. right. eexists. reflexivity.
  - reflexivity.
Defined.

Lemma Consistent_snoc pool key d :
  Consistent pool -> pooled d -> key = keyOf d -> Consistent (pool ++ [(key, d)]).
Proof.
  intros Hc Hp Hk k d' Hin. apply in_app_iff in Hin.
  destruct Hin as [Hin|[Hin|[]]]; [apply Hc; exact Hin|].
  inversion Hin; subst. auto.
Qed.

(** An asked request on a consistent cache. *)
Lemma getDecoration_asked type cls attrs (pool : Pool) :
  Consistent pool -> asked type attrs ->
  exists pool' d,
    getDecoration type cls attrs pool = (pool', inr d)
    /\ newDecoration type cls attrs = inr d
    /\ Consistent pool' /\ extends pool pool'.
Proof.
  intros Hc Ha.
  destruct (asked_new type cls attrs Ha) as [d0 [Hnew [Hp Hk]]].
  unfold getDecoration.
  destruct (Map_get (cacheKey type cls attrs) pool) as [d|] eqn:Hget.
  - exists pool, d. apply Map_get_In_pair in Hget.
    destruct (Hc _ _ Hget) as [Hpd Hkd].
    assert (E : d = d0) by (apply keyOf_injective; congruence).
    subst d. split; [reflexivity|]. split; [exact Hnew|].
    split; [exact Hc|apply extends_refl].
  - rewrite Hnew. apply Map_get_None in Hget.
    rewrite Map_set_fresh by exact Hget.
    eexists. eexists. split; [reflexivity|]. split; [reflexivity|].
    split; [apply Consistent_snoc; auto|].
    split; [eexists; reflexivity|]. intros Hwf. apply Map_wf_snoc; auto.
Qed.

(** X17.  The cache is transparent: on a cache that holds the pool's own
    decorations under their own keys, as every cache that started empty
    does, an asked request returns exactly the decoration it describes,
    never one cached for another class or text, and leaves such a
    cache. *)
Theorem pool_is_transparent type cls attrs (pool : Pool) :
  Consistent pool -> asked type attrs ->
  exists pool' d,
    getDecoration type cls attrs pool = (pool', inr d)
    /\ newDecoration type cls attrs = inr d
    /\ Consistent pool' /\ extends pool pool'.
Proof. exact (getDecoration_asked type cls attrs pool). Qed.

Lemma pool_is_transparent_witness :
  exists pool' d,
    getDecoration "line" "todo note" None
                  [(cacheKey "mark" "todo" (Some [("data-contents", "TODO"%string)]),
                    todoMark)]
    = (pool', inr d)
    /\ newDecoration "line" "todo note" None = inr d
    /\ Consistent pool'
    /\ extends [(cacheKey "mark" "todo" (Some [("data-contents", "TODO"%string)]),
                 todoMark)] pool'.
Proof.
  apply pool_is_transparent.
  - intros k d [H|[]]. inversion H; subst. split; reflexivity.
  - right. left. split; reflexivity.
Defined.

Lemma NoDup_app_disjoint A (l1 l2 : list A) a :
  NoDup (l1 ++ l2) -> In a l1 -> In a l2 -> False.
Proof.
  intros Hn H1 H2. apply in_split in H2. destruct H2 as [x [y E]]. subst l2.
  rewrite app_assoc in Hn. apply NoDup_remove_2 in Hn. apply Hn.
  rewrite <- app_assoc, in_app_iff. left. exact H1.
Qed.

Lemma Map_get_app V key (m1 m2 : Map V) :
  ~ In key (map fst m1) -> Map_get key (m1 ++ m2) = Map_get key m2.
Proof.
  induction m1 as [|[k v] m1 IH]; simpl; [reflexivity|].
  intros H. destruct (String.eqb_spec k key); [tauto|]. apply IH. tauto.
Qed.

(** What [cleanup] leaves is the end of the cache. *)
Lemma cleanup_suffix (pool : Pool) :
  Map_wf pool -> exists dropped, pool = dropped ++ fst (cleanup pool).
Proof.
  intros Hw. destruct (cleanup_spec pool) as [p [Hp [Hsmall [Hbig _]]]].
  rewrite Hp. simpl.
  destruct (Nat.le_gt_cases (List.length pool) 100) as [H|H].
  - exists []. rewrite (Hsmall H). reflexivity.
  - destruct (Hbig H Hw) as [E _]. rewrite E. unfold sliceLast.
    eexists. symmetry. apply firstn_skipn.
Qed.

Lemma cleanup_Sound (pool : Pool) : Sound pool -> Sound (fst (cleanup pool)).
Proof.
  intros [Hc Hw]. destruct (cleanup_suffix pool Hw) as [dropped E].
  destruct (cleanup_spec pool) as [p [Hp [_ [_ [_ Hwf]]]]].
  rewrite Hp in *. simpl in *. split; [|apply Hwf; exact Hw].
  intros key d Hin. apply Hc. rewrite E. apply in_app_iff. auto.
Qed.

(** X18.  [cleanup] only drops the oldest entries: what it keeps is the
    end of the cache, in the same order, a kept key still gives the same
    decoration, a cache of the pool's own decorations stays one, and
    cleaning a second time changes nothing. *)
Theorem cleanup_keeps_the_end (pool : Pool) :
  let pool' := fst (cleanup pool) in
  fst (cleanup pool') = pool'
  /\ (Map_wf pool ->
      (exists dropped, pool = dropped ++ pool')
      /\ (forall key d, Map_get key pool' = Some d -> Map_get key pool = Some d)
      /\ (Consistent pool -> Consistent pool')).
Proof.
  intros pool'. subst pool'.
  destruct (cleanup_spec pool) as [p [Hp [Hsmall [Hbig [Hle Hwf]]]]].
  rewrite Hp. simpl. split.
  - destruct (cleanup_spec p) as [p' [Hp' [Hsmall' _]]].
    rewrite Hp'. simpl. apply Hsmall'. exact Hle.
  - intros Hw.
    assert (Hsuffix : exists dropped, pool = dropped ++ p).
    { destruct (Nat.le_gt_cases (List.length pool) 100) as [H|H].
      - exists []. rewrite (Hsmall H). reflexivity.
      - destruct (Hbig H Hw) as [E _]. rewrite E. unfold sliceLast.
        eexists. symmetry. apply firstn_skipn. }
    split; [exact Hsuffix|]. destruct Hsuffix as [dropped E]. split.
    + intros key d Hget. rewrite E. rewrite Map_get_app; [exact Hget|].
      intros Hin. apply Map_get_In_pair in Hget.
      unfold Map_wf in Hw. rewrite E, map_app in Hw.
      apply (NoDup_app_disjoint _ _ _ key Hw Hin).
      change key with (fst (key, d)). apply in_map. exact Hget.
    + intros Hc key d Hin. apply Hc. rewrite E. apply in_app_iff. auto.
Qed.

Lemma cleanup_keeps_the_end_witness :
  exists dropped, numbered 101 = dropped ++ fst (cleanup (numbered 101)).
Proof.
  apply (proj2 (cleanup_keeps_the_end (numbered 101))).
  apply distinct_NoDup. vm_compute. reflexivity.
Defined.

End PoolSpec.

(* ================================================================== *)
(** ** The static pass in closed form *)
(* ================================================================== *)

Module StaticClosedFacts.
Import Editor EditorState StaticHighlighter StaticInvariants StaticFacts.
Import PoolModel ConfigExtras PoolExtras PoolSpec StaticClosed.
Local Open Scope list_scope.

Lemma Kept_refl pool : Consistent pool -> Kept pool pool.
Proof. intros H. split; [exact H|apply extends_refl]. Qed.

Lemma wp_getDecoration_kept pool0 type cls attrs d0
      (Q : Pool -> Decoration.t -> Prop) pool :
  Kept pool0 pool -> asked type attrs ->
  newDecoration type cls attrs = inr d0 ->
  (forall pool', Kept pool0 pool' -> Q pool' d0) ->
  wp (getDecoration type cls attrs) Q pool.
Proof.
  intros [Hc Hext] Ha Hnew HQ.
  destruct (getDecoration_asked type cls attrs pool Hc Ha)
    as [pool' [d [Hrun [Hnew' [Hc' Hext']]]]].
  unfold wp. rewrite Hrun. rewrite Hnew in Hnew'. inversion Hnew'; subst d.
  apply HQ. split; [exact Hc'|eapply extends_trans; eauto].
Qed.

Lemma asked_mark_contents s : asked "mark" (Some [("data-contents", s)]).
Proof. left. split; [reflexivity|]. right. exists s. reflexivity. Qed.

Lemma asked_mark_plain : asked "mark" None.
Proof. left. split; [reflexivity|]. left. reflexivity. Qed.

Lemma asked_widget : asked "widget" None.
Proof. right. right. split; reflexivity. Qed.

Lemma asked_line : asked "line" None.
Proof. right. left. split; reflexivity. Qed.

(** [createRange] on a range the host accepts, and on one it refuses. *)
Lemma wpx_createRange_ok d from to r (Q : Pool -> Range -> Prop) E pool :
  range d from to = inr r -> Q pool r -> wpx (createRange d from to) Q E pool.
Proof. intros Hr HQ. unfold wpx, createRange. rewrite Hr. exact HQ. Qed.

Lemma wpx_createRange_refused d from to msg (Q : Pool -> Range -> Prop)
      (E : Pool -> Exn -> Prop) pool :
  range d from to = inl msg -> E pool (RangeError msg) ->
  wpx (createRange d from to) Q E pool.
Proof. intros Hr HE. unfold wpx, createRange. rewrite Hr. exact HE. Qed.

Lemma range_point_widget w pos :
  range (Decoration.widget w) pos pos = inr (mkDecoRange pos pos (Decoration.widget w)).
Proof. unfold range. rewrite Nat.eqb_refl. reflexivity. Qed.

Lemma range_point_line a pos :
  range (Decoration.line a) pos pos = inr (mkDecoRange pos pos (Decoration.line a)).
Proof. unfold range. rewrite Nat.eqb_refl. reflexivity. Qed.

(** The named groups of a match never throw: the handler swallows a
    group without indices and an empty one. *)
Lemma addGroups_closed pool0 linePos groups : forall pool acc,
  Kept pool0 pool ->
  wp (forEach (addGroup linePos) groups acc)
     (fun p a => Kept pool0 p
                 /\ a = mkAcc (tokenDecos acc) (lineDecos acc)
                          (groupDecos acc ++ flat_map (groupOf linePos) groups)
                          (widgetDecos acc) (lineClasses acc))
     pool.
Proof.
  induction groups as [|[name [[gf gt]|]] groups IH]; intros pool acc HK; simpl.
  - apply wp_ret. split; [exact HK|]. destruct acc; simpl.
    rewrite app_nil_r. reflexivity.
  - apply wp_bind. unfold addGroup, tryCatch, wp.
    pose proof (wp_getDecoration_kept pool0 "mark" name None
                  (Decoration.mark name None)
                  (fun p d => Kept pool0 p /\ d = Decoration.mark name None) pool
                  HK asked_mark_plain eq_refl (fun p H => conj H eq_refl)) as Hd.
    apply wp_elim in Hd. destruct Hd as [p [d [Hrun [HK' ->]]]].
    unfold bind. rewrite Hrun. unfold createRange, range.
    destruct (linePos + gt <=? linePos + gf); simpl.
    + specialize (IH p acc HK'). unfold wp in IH.
      destruct (forEach _ _ _ p) as [p' [e|a]]; exact IH.
    + specialize (IH p (pushGroup (mkDecoRange (linePos + gf) (linePos + gt)
                                               (Decoration.mark name None)) acc) HK').
      unfold wp in IH.
      destruct (forEach _ _ _ p) as [p' [e|a]]; [exact IH|].
      destruct IH as [HK'' ->]. split; [exact HK''|].
      simpl. rewrite <- app_assoc. reflexivity.
  - apply wp_bind. unfold addGroup, tryCatch, wp. simpl.
    specialize (IH pool acc HK). unfold wp in IH.
    destruct (forEach _ _ _ pool) as [p' [e|a]]; exact IH.
Qed.

(** The body of the loop on a cache of the pool's making: it throws the
    error of line 198 exactly for a value with an empty mark, and
    otherwise pushes what [stepAcc] says. *)
Lemma addMatch_closed st q v pool0 pool acc :
  Kept pool0 pool ->
  wpx (addMatch st q v acc)
      (fun p a => Kept pool0 p /\ emptyMark st q v = false
                  /\ a = stepAcc st (q, v) acc)
      (fun p e => Kept pool0 p /\ emptyMark st q v = true /\ e = emptyMarkError)
      pool.
Proof.
  intros HK.
  unfold addMatch, emptyMark, stepAcc, tokenOf, widgetsOf, groupsOf, lineOf,
    excluded, marksMatch.
  destruct (isSome (excludedSection st (lineAt_from (doc st) (vfrom v) + 1))).
  { apply wpx_ret. split; [exact HK|]. split; [reflexivity|].
    destruct acc; simpl. rewrite !app_nil_r. reflexivity. }
  set (linePos := lineAt_from (doc st) (vfrom v)).
  set (line := contains (mark q) "line").
  set (tok := negb (isSome (mark q)) || contains (mark q) "match").
  set (wstart := contains (mark q) "start").
  set (wend := contains (mark q) "end").
  set (grp := contains (mark q) "group").
  set (acc1 := if line then pushLineClass linePos (class q) acc else acc).
  set (tokenDeco := Decoration.mark (class q)
         (Some [("data-contents", JS.trim (sliceDoc st (vfrom v) (vto v)))])).
  set (tokenRange := mkDecoRange (vfrom v) (vto v) tokenDeco).
  simpl negb. rewrite andb_true_l.
  apply wpx_seq with
    (I := fun p a => Kept pool0 p /\ tok && (vto v <=? vfrom v) = false
                     /\ a = if tok then pushToken tokenRange acc1 else acc1).
  { destruct tok; [|apply wpx_ret; auto].
    apply wpx_bind. apply wpx_of_wp.
    eapply wp_getDecoration_kept;
      [exact HK|apply asked_mark_contents|reflexivity|].
    intros p HK'. apply wpx_bind. unfold range.
    destruct (vto v <=? vfrom v) eqn:Eempty.
    - eapply wpx_createRange_refused.
      + unfold range. rewrite Eempty. reflexivity.
      + auto.
    - eapply wpx_createRange_ok.
      + unfold range. rewrite Eempty. reflexivity.
      + apply wpx_ret. auto. }
  clear pool HK. intros pool a [HK [Hnot ->]]. rewrite Hnot.
  set (acc2 := if tok then pushToken tokenRange acc1 else acc1).
  set (startDeco := Decoration.widget (mkIconWidget (Some (class q ++ "-start")%string))).
  set (endDeco := Decoration.widget (mkIconWidget (Some (class q ++ "-end")%string))).
  set (acc3 :=
         let a := if wstart
                  then pushWidget (mkDecoRange (vfrom v) (vfrom v) startDeco) acc2
                  else acc2 in
         if wend then pushWidget (mkDecoRange (vto v) (vto v) endDeco) a else a).
  apply wpx_seq with (I := fun p a => Kept pool0 p /\ a = acc3).
  { destruct (wstart || wend) eqn:E.
    - apply wpx_bind. apply wpx_of_wp.
      eapply wp_getDecoration_kept; [exact HK|apply asked_widget|reflexivity|].
      intros p1 HK1. apply wpx_bind. apply wpx_of_wp.
      eapply wp_getDecoration_kept; [exact HK1|apply asked_widget|reflexivity|].
      intros p2 HK2.
      apply wpx_seq with
        (I := fun p a =>
                Kept pool0 p
                /\ a = if wstart
                       then pushWidget (mkDecoRange (vfrom v) (vfrom v) startDeco) acc2
                       else acc2).
      + destruct wstart; [|apply wpx_ret; auto].
        apply wpx_bind. eapply wpx_createRange_ok; [apply range_point_widget|].
        apply wpx_ret. auto.
      + intros p a [HK3 ->]. subst acc3. cbv zeta.
        destruct wend; [|apply wpx_ret; auto].
        apply wpx_bind. eapply wpx_createRange_ok; [apply range_point_widget|].
        apply wpx_ret. auto.
    - apply wpx_ret. split; [exact HK|].
      apply orb_false_iff in E. destruct E as [E1 E2].
      subst acc3. cbv zeta. rewrite E1, E2. reflexivity. }
  clear pool HK. intros pool a [HK ->].
  assert (Hfinal : forall gs,
             mkAcc (tokenDecos acc3) (lineDecos acc3) (groupDecos acc3 ++ gs)
                   (widgetDecos acc3) (lineClasses acc3)
             = mkAcc
                 (tokenDecos acc ++ (if tok then [tokenRange] else []))
                 (lineDecos acc) (groupDecos acc ++ gs)
                 (widgetDecos acc ++
                    (if wstart then [mkDecoRange (vfrom v) (vfrom v) startDeco] else [])
                    ++ (if wend then [mkDecoRange (vto v) (vto v) endDeco] else []))
                 (pushClasses (if line then [(linePos, class q)] else [])
                              (lineClasses acc))).
  { intros gs. subst acc3 acc2 acc1. cbv zeta.
    destruct acc; destruct line, tok, wstart, wend; simpl;
      rewrite ?app_nil_r, <- ?app_assoc; reflexivity. }
  apply wpx_of_wp. destruct grp.
  - destruct (indicesGroups v) as [groups|].
    + eapply wp_mono; [|apply addGroups_closed; exact HK].
      intros p a [HK' ->]. split; [exact HK'|]. split; [reflexivity|].
      apply Hfinal.
    + apply wp_ret. split; [exact HK|]. split; [reflexivity|].
      rewrite <- Hfinal. destruct acc3; simpl. rewrite app_nil_r. reflexivity.
  - apply wp_ret. split; [exact HK|]. split; [reflexivity|].
    rewrite <- Hfinal. destruct acc3; simpl. rewrite app_nil_r. reflexivity.
Qed.

(** A loop whose body either throws [e0], exactly on the elements that
    fail, or is a pure step on the accumulator: it throws when some
    element fails and is the fold of the step otherwise. *)
Lemma wpx_forEach_fold X A (body : X -> A -> M A) (step : X -> A -> A)
      (fails : X -> bool) (e0 : Exn) (C : Pool -> Prop) xs :
  (forall x acc pool, C pool ->
     wpx (body x acc)
         (fun p a => C p /\ fails x = false /\ a = step x acc)
         (fun p e => C p /\ fails x = true /\ e = e0) pool) ->
  forall pool acc, C pool ->
    wpx (forEach body xs acc)
        (fun p a => C p /\ existsb fails xs = false
                    /\ a = fold_left (fun a x => step x a) xs acc)
        (fun p e => C p /\ existsb fails xs = true /\ e = e0) pool.
Proof.
  intros Hbody. induction xs as [|x xs IH]; intros pool acc HC; simpl.
  - apply wpx_ret. auto.
  - apply wpx_bind. eapply wpx_mono; [| |apply Hbody; exact HC].
    + intros p a [HC' [Hf ->]]. rewrite Hf. simpl. apply IH. exact HC'.
    + intros p e [HC' [Hf ->]]. rewrite Hf. auto.
Qed.

Lemma fold_left_flat_map A B C (f : A -> C -> A) (g : B -> list C) l : forall a,
  fold_left f (flat_map g l) a = fold_left (fun a x => fold_left f (g x) a) l a.
Proof.
  induction l as [|x l IH]; intros a; simpl; [reflexivity|].
  rewrite fold_left_app. apply IH.
Qed.

Lemma existsb_flat_map A B (f : B -> bool) (g : A -> list B) l :
  existsb f (flat_map g l) = existsb (fun x => existsb f (g x)) l.
Proof.
  induction l as [|x l IH]; simpl; [reflexivity|].
  rewrite existsb_app, IH. reflexivity.
Qed.

Lemma existsb_map_pair A B (f : A * B -> bool) (a : A) l :
  existsb f (map (pair a) l) = existsb (fun b => f (a, b)) l.
Proof. induction l as [|x l IH]; simpl; [reflexivity|rewrite IH; reflexivity]. Qed.

Lemma fold_left_map_pair A B C (f : C -> A * B -> C) (a : A) l : forall c,
  fold_left f (map (pair a) l) c = fold_left (fun c b => f c (a, b)) l c.
Proof. induction l as [|x l IH]; intros c; simpl; [reflexivity|apply IH]. Qed.

Lemma scanQuery_closed cursorOf st part q pool0 pool acc :
  Kept pool0 pool ->
  wpx (scanQuery cursorOf st part q acc)
      (fun p a => Kept pool0 p
                  /\ existsb (fun qv => emptyMark st (fst qv) (snd qv))
                             (valuesOf cursorOf part q) = false
                  /\ a = fold_left (fun a qv => stepAcc st qv a)
                                   (valuesOf cursorOf part q) acc)
      (fun p e => Kept pool0 p
                  /\ existsb (fun qv => emptyMark st (fst qv) (snd qv))
                             (valuesOf cursorOf part q) = true
                  /\ e = emptyMarkError)
      pool.
Proof.
  intros HK. unfold scanQuery, valuesOf.
  destruct (cursorOf part q) as [e|values]; [apply wpx_ret; auto|].
  rewrite existsb_map_pair.
  eapply wpx_mono;
    [| |apply (wpx_forEach_fold _ _ (addMatch st q) (fun v a => stepAcc st (q, v) a)
                 (emptyMark st q) emptyMarkError (Kept pool0)); [|exact HK]].
  - intros p a [HK' [Hf ->]]. split; [exact HK'|]. split; [exact Hf|].
    rewrite fold_left_map_pair. reflexivity.
  - intros p e H. exact H.
  - intros x a p Hp. apply addMatch_closed. exact Hp.
Qed.

(** The loops of a pass throw when some value they find has an empty
    mark, and fold [stepAcc] over what the cursors found otherwise. *)
Lemma loops_closed cursorOf (v : View) pool0 pool acc :
  Kept pool0 pool ->
  wpx (forEach (scanPart cursorOf (state v) (rules v)) (visibleRanges v) acc)
      (fun p a => Kept pool0 p /\ failing cursorOf v = false
                  /\ a = fold_left (fun a qv => stepAcc (state v) qv a)
                                   (found cursorOf v) acc)
      (fun p e => Kept pool0 p /\ failing cursorOf v = true /\ e = emptyMarkError)
      pool.
Proof.
  intros HK. unfold failing, found.
  set (em := fun qv : SearchQuery * CursorValue =>
               emptyMark (state v) (fst qv) (snd qv)).
  rewrite existsb_flat_map.
  eapply wpx_mono;
    [| |apply (wpx_forEach_fold _ _ (scanPart cursorOf (state v) (rules v))
                 (fun part a => fold_left (fun a qv => stepAcc (state v) qv a)
                                  (flat_map (valuesOf cursorOf part) (rules v)) a)
                 (fun part => existsb em (flat_map (valuesOf cursorOf part) (rules v)))
                 emptyMarkError (Kept pool0)); [|exact HK]].
  - intros p a [HK' [Hf ->]]. split; [exact HK'|]. split; [exact Hf|].
    rewrite fold_left_flat_map. reflexivity.
  - intros p e H. exact H.
  - intros part a p Hp. unfold scanPart. rewrite existsb_flat_map.
    eapply wpx_mono;
      [| |apply (wpx_forEach_fold _ _ (scanQuery cursorOf (state v) part)
                   (fun q a => fold_left (fun a qv => stepAcc (state v) qv a)
                                         (valuesOf cursorOf part q) a)
                   (fun q => existsb em (valuesOf cursorOf part q))
                   emptyMarkError (Kept pool0)); [|exact Hp]].
    + intros p' a' [HK' [Hf ->]]. split; [exact HK'|]. split; [exact Hf|].
      rewrite fold_left_flat_map. reflexivity.
    + intros p' e H. exact H.
    + intros q a' p' Hp'. apply scanQuery_closed. exact Hp'.
Qed.

(** The line regions never throw: a line decoration gets an empty
    range. *)
Lemma addLines_closed pool0 entries : forall pool acc,
  Kept pool0 pool ->
  wp (forEach addLine entries acc)
     (fun p a => Kept pool0 p
                 /\ a = mkAcc (tokenDecos acc)
                          (lineDecos acc ++ map lineDecoOf entries)
                          (groupDecos acc) (widgetDecos acc) (lineClasses acc))
     pool.
Proof.
  induction entries as [|[pos classes] entries IH]; intros pool acc HK; simpl.
  - apply wp_ret. split; [exact HK|]. destruct acc; simpl.
    rewrite app_nil_r. reflexivity.
  - eapply wp_seq with
      (I := fun p a => Kept pool0 p
                       /\ a = pushLine (lineDecoOf (pos, classes)) acc).
    + unfold addLine. apply wp_bind.
      eapply wp_getDecoration_kept; [exact HK|apply asked_line|reflexivity|].
      intros p HK'. apply wp_bind. apply wp_of_wpx.
      eapply wpx_createRange_ok; [apply range_point_line|].
      apply wp_ret. auto.
    + intros p a [HK' ->]. eapply wp_mono; [|apply IH; exact HK'].
      intros p' a' [HK'' ->]. split; [exact HK''|].
      simpl. rewrite <- app_assoc. reflexivity.
Qed.

End StaticClosedFacts.

Module StaticPass.
Import Editor EditorState StaticHighlighter StaticInvariants StaticFacts.
Import PoolModel ConfigExtras PoolExtras PoolSpec StaticClosed StaticClosedFacts.
Local Open Scope list_scope.

Lemma pushClasses_app c1 c2 lc :
  pushClasses (c1 ++ c2) lc = pushClasses c2 (pushClasses c1 lc).
Proof. unfold pushClasses. apply fold_left_app. Qed.

Lemma fold_step_fields st l : forall acc,
  let a := fold_left (fun a qv => stepAcc st qv a) l acc in
  tokenDecos a
  = tokenDecos acc ++ flat_map (fun qv => tokenOf st (fst qv) (snd qv)) l
  /\ lineDecos a = lineDecos acc
  /\ groupDecos a
     = groupDecos acc ++ flat_map (fun qv => groupsOf st (fst qv) (snd qv)) l
  /\ widgetDecos a
     = widgetDecos acc ++ flat_map (fun qv => widgetsOf st (fst qv) (snd qv)) l
  /\ lineClasses a
     = pushClasses (flat_map (fun qv => lineOf st (fst qv) (snd qv)) l)
                   (lineClasses acc).
Proof.
  induction l as [|[q v] l IH]; intros acc; cbn [fold_left flat_map].
  - cbv zeta. rewrite !app_nil_r. repeat split.
  - specialize (IH (stepAcc st (q, v) acc)). cbv zeta in *.
    destruct IH as [H1 [H2 [H3 [H4 H5]]]].
    rewrite H1, H2, H3, H4, H5. simpl. rewrite <- !app_assoc, pushClasses_app.
    repeat split.
Qed.

(** The pass up to [cleanup], on a consistent cache: it throws the error
    of line 198 when some value has an empty mark, and otherwise returns
    what each value contributes. *)
Lemma accumulate_closed cursorOf (v : View) pool :
  Consistent pool ->
  exists mid,
    Kept pool mid
    /\ ((failing cursorOf v = true
         /\ accumulate cursorOf v pool = (mid, inl emptyMarkError))
        \/ (failing cursorOf v = false
            /\ exists acc,
                accumulate cursorOf v pool = (mid, inr acc)
                /\ tokenDecos acc
                   = flat_map (fun qv => tokenOf (state v) (fst qv) (snd qv))
                              (found cursorOf v)
                /\ groupDecos acc
                   = flat_map (fun qv => groupsOf (state v) (fst qv) (snd qv))
                              (found cursorOf v)
                /\ widgetDecos acc
                   = flat_map (fun qv => widgetsOf (state v) (fst qv) (snd qv))
                              (found cursorOf v)
                /\ lineDecos acc
                   = map lineDecoOf (pushClasses (contributions cursorOf v) []))).
Proof.
  intros Hc.
  pose proof (loops_closed cursorOf v pool pool emptyAcc (Kept_refl pool Hc)) as Hl.
  unfold accumulate, bind. fold (rules v). unfold wpx in Hl.
  destruct (forEach (scanPart cursorOf (state v) (rules v)) (visibleRanges v)
                    emptyAcc pool) as [p [e|a]].
  - destruct Hl as [HK [Hf ->]]. exists p. split; [exact HK|]. left. auto.
  - destruct Hl as [HK [Hf ->]].
    set (a1 := fold_left (fun a qv => stepAcc (state v) qv a)
                         (found cursorOf v) emptyAcc).
    pose proof (addLines_closed pool (lineClasses a1) p a1 HK) as Hn.
    apply wp_elim in Hn. destruct Hn as [mid [acc [Hrun [HK' ->]]]].
    exists mid. split; [exact HK'|]. right. split; [exact Hf|].
    eexists. split; [exact Hrun|].
    destruct (fold_step_fields (state v) (found cursorOf v) emptyAcc)
      as [H1 [H2 [H3 [H4 H5]]]].
    cbv zeta in *. fold a1 in H1, H2, H3, H4, H5. simpl.
    rewrite H1, H2, H3, H4, H5. simpl. repeat split.
Qed.

Lemma Sound_empty : Sound [].
Proof. split; [intros k d []|constructor]. Qed.

Lemma Sound_todo : Sound [(keyOf todoMark, todoMark)].
Proof.
  split.
  - intros k d [H|[]]; inversion H; subst; split; reflexivity.
  - apply distinct_NoDup. reflexivity.
Qed.

Lemma Kept_Sound pool pool' : Sound pool -> Kept pool pool' -> Sound pool'.
Proof. intros [_ Hw] [Hc Hext]. split; [exact Hc|apply Hext; exact Hw]. Qed.

(** A whole pass on a sound cache.  What it gives does not depend on the
    cache: the error of line 198 when some value has an empty mark, and
    otherwise the sorted lists of what each found value contributes; the
    cache stays sound, and has at most 100 entries when the pass
    returns. *)
Lemma getDecoWith_closed cursorOf (v : View) pool :
  Sound pool ->
  exists pool',
    getDecoWith cursorOf v pool
    = (pool', if failing cursorOf v then inl emptyMarkError
              else inr (passResult cursorOf v))
    /\ Sound pool'
    /\ (failing cursorOf v = false -> List.length pool' <= 100).
Proof.
  intros Hs.
  destruct (accumulate_closed cursorOf v pool (proj1 Hs))
    as [mid [HK [[Hf Hrun]|[Hf [acc [Hrun [H1 [H2 [H3 H4]]]]]]]]].
  - exists mid. rewrite Hf. split; [|split; [|discriminate]].
    + unfold getDecoWith, bind. rewrite Hrun. reflexivity.
    + apply (Kept_Sound pool); assumption.
  - destruct (cleanup_spec mid) as [p [Hp [_ [_ [Hle _]]]]].
    exists p. rewrite Hf. split; [|split; [|intros _; exact Hle]].
    + unfold getDecoWith, bind. rewrite Hrun, Hp. simpl.
      rewrite H1, H2, H3, H4. reflexivity.
    + pose proof (cleanup_Sound mid (Kept_Sound pool mid Hs HK)) as Hs'.
      rewrite Hp in Hs'. exact Hs'.
Qed.

(** A pass on a sound cache that returns. *)
Lemma getDeco_returned (RegExpCursor : RegExpCursorT) (v : View) pool pool' r :
  Sound pool ->
  getDeco RegExpCursor v pool = (pool', inr r) ->
  failing (newCursor RegExpCursor (state v)) v = false
  /\ r = passResult (newCursor RegExpCursor (state v)) v
  /\ Sound pool' /\ List.length pool' <= 100.
Proof.
  intros Hs Hrun. unfold getDeco in Hrun.
  destruct (getDecoWith_closed (newCursor RegExpCursor (state v)) v pool Hs)
    as [p [E [Hs' Hle]]].
  rewrite E in Hrun.
  destruct (failing (newCursor RegExpCursor (state v)) v);
    inversion Hrun; subst. auto.
Qed.

(** X19.  The cache does not show in what a pass publishes: on two caches
    made by the pool, whatever they hold, [getDeco] returns the same four
    sets, and it leaves a cache made by the pool. *)
Theorem pass_ignores_cache (RegExpCursor : RegExpCursorT) (v : View)
        (pool1 pool2 : Pool) :
  Sound pool1 -> Sound pool2 ->
  snd (getDeco RegExpCursor v pool1) = snd (getDeco RegExpCursor v pool2)
  /\ Sound (fst (getDeco RegExpCursor v pool1)).
Proof.
  intros H1 H2. unfold getDeco.
  destruct (getDecoWith_closed (newCursor RegExpCursor (state v)) v pool1 H1)
    as [p1 [E1 [S1 _]]].
  destruct (getDecoWith_closed (newCursor RegExpCursor (state v)) v pool2 H2)
    as [p2 [E2 [S2 _]]].
  rewrite E1, E2. simpl. auto.
Qed.

Lemma pass_ignores_cache_witness :
  snd (getDeco noRegExp todoView [])
  = snd (getDeco noRegExp todoView [(keyOf todoMark, todoMark)])
  /\ Sound (fst (getDeco noRegExp todoView [])).
Proof.
  apply pass_ignores_cache.
  - apply Sound_empty.
  - apply Sound_todo.
Defined.

Lemma In_found cursorOf (v : View) q val :
  In (q, val) (found cursorOf v) <-> exists part, visited cursorOf v part q val.
Proof.
  unfold found, visited. rewrite in_flat_map. split.
  - intros [part [Hp H]]. apply in_flat_map in H. destruct H as [q' [Hq H]].
    unfold valuesOf in H. destruct (cursorOf part q') as [e|values] eqn:E;
      [contradiction|].
    apply in_map_iff in H. destruct H as [val' [H Hv]]. inversion H; subst.
    exists part. split; [exact Hp|]. split; [exact Hq|].
    exists values. auto.
  - intros [part [Hp [Hq [values [E Hv]]]]]. exists part. split; [exact Hp|].
    apply in_flat_map. exists q. split; [exact Hq|]. unfold valuesOf. rewrite E.
    apply in_map. exact Hv.
Qed.

Lemma isSome_false {A} (o : option A) : negb (isSome o) = true <-> o = None.
Proof. destruct o; simpl; split; congruence. Qed.

Lemma marksMatch_true q :
  marksMatch q = true <-> mark q = None \/ contains (mark q) "match" = true.
Proof. unfold marksMatch. rewrite orb_true_iff, isSome_false. tauto. Qed.

(** A pass throws exactly when the loops visit an empty match, on a line
    that is not excluded, of a rule that marks its matches. *)
Lemma failing_true cursorOf (v : View) :
  failing cursorOf v = true <->
  exists part q val,
    visited cursorOf v part q val
    /\ excluded (state v) val = false
    /\ (mark q = None \/ contains (mark q) "match" = true)
    /\ vto val <= vfrom val.
Proof.
  unfold failing. rewrite existsb_exists. split.
  - intros [[q val] [Hin Hem]]. apply In_found in Hin. destruct Hin as [part Hv].
    unfold emptyMark in Hem. simpl in Hem.
    rewrite !andb_true_iff, negb_true_iff, marksMatch_true, Nat.leb_le in Hem.
    exists part, q, val. tauto.
  - intros [part [q [val [Hv [He [Hm Hle]]]]]]. exists (q, val). split.
    + apply In_found. exists part. exact Hv.
    + unfold emptyMark. simpl.
      rewrite !andb_true_iff, negb_true_iff, marksMatch_true, Nat.leb_le. tauto.
Qed.

Lemma failing_false cursorOf (v : View) :
  failing cursorOf v = false <->
  forall part q val,
    visited cursorOf v part q val ->
    excluded (state v) val = false ->
    mark q = None \/ contains (mark q) "match" = true ->
    vfrom val < vto val.
Proof.
  split.
  - intros Hf part q val Hv He Hm.
    destruct (Nat.lt_ge_cases (vfrom val) (vto val)) as [H|H]; [exact H|].
    assert (Ht : failing cursorOf v = true)
      by (apply failing_true; exists part, q, val; auto).
    congruence.
  - intros H. destruct (failing cursorOf v) eqn:Hf; [|reflexivity].
    apply failing_true in Hf. destruct Hf as [part [q [val [Hv [He [Hm Hle]]]]]].
    specialize (H part q val Hv He Hm). lia.
Qed.

(** C8: the code does not do what the claim says.  A cursor that cannot
    be built and a named group that cannot be marked are skipped, but the
    [createRange] of line 198 stands outside both handlers: when the loops
    visit an empty match, on a line that is not excluded, of a rule that
    marks its matches, the pass throws the [RangeError] of the host to
    its caller instead of returning four sets.  A pass with no such match
    returns. *)
Theorem empty_match_throws (RegExpCursor : RegExpCursorT) (v : View) (pool : Pool) :
  Sound pool ->
  ((exists part q val,
       visited (newCursor RegExpCursor (state v)) v part q val
       /\ excluded (state v) val = false
       /\ (mark q = None \/ contains (mark q) "match" = true)
       /\ vto val <= vfrom val) ->
   snd (getDeco RegExpCursor v pool)
   = inl (RangeError "Mark decorations may not be empty"))
  /\ ((forall part q val,
         visited (newCursor RegExpCursor (state v)) v part q val ->
         excluded (state v) val = false ->
         mark q = None \/ contains (mark q) "match" = true ->
         vfrom val < vto val) ->
      exists r, snd (getDeco RegExpCursor v pool) = inr r).
Proof.
  intros Hs. unfold getDeco.
  destruct (getDecoWith_closed (newCursor RegExpCursor (state v)) v pool Hs)
    as [p [E _]].
  rewrite E. simpl. split.
  - intros H. apply failing_true in H. rewrite H. reflexivity.
  - intros H. apply failing_false in H. rewrite H. eexists. reflexivity.
Qed.

Lemma empty_match_throws_witness :
  snd (getDeco emptyMatchCursor starView [])
  = inl (RangeError "Mark decorations may not be empty")
  /\ exists r, snd (getDeco noRegExp todoView []) = inr r.
Proof.
  split.
  - apply (proj1 (empty_match_throws emptyMatchCursor starView [] Sound_empty)).
    exists (mkSpan 0 3), star, (mkValue 0 0 None).
    split; [|split; [reflexivity|split; [left; reflexivity|simpl; lia]]].
    split; [left; reflexivity|]. split; [left; reflexivity|].
    eexists. split; [reflexivity|]. left. reflexivity.
  - apply (proj2 (empty_match_throws noRegExp todoView [] Sound_empty)).
    intros part q val [Hp [Hq [values [Hc Hin]]]] _ _.
    destruct Hp as [<-|[]].
    destruct Hq as [<-|[<-|[]]]; vm_compute in Hc; [discriminate|].
    inversion Hc; subst values.
    destruct Hin as [<-|[<-|[]]]; simpl; lia.
Defined.

End StaticPass.

(* ================================================================== *)
(** ** The regions of a static pass *)
(* ================================================================== *)

Module StaticRegions.
Import Editor EditorState StaticHighlighter StaticInvariants StaticFacts.
Import PoolModel PoolSpec StaticClosed StaticClosedFacts StaticPass.
Local Open Scope list_scope.

Lemma In_per_value {B} (f : State -> SearchQuery -> CursorValue -> list B)
      cursorOf (v : View) x :
  In x (flat_map (fun qv => f (state v) (fst qv) (snd qv)) (found cursorOf v))
  <-> exists part q val, visited cursorOf v part q val /\ In x (f (state v) q val).
Proof.
  rewrite in_flat_map. split.
  - intros [[q val] [Hf Hx]]. apply In_found in Hf. destruct Hf as [part Hv].
    exists part, q, val. auto.
  - intros [part [q [val [Hv Hx]]]]. exists (q, val). split; [|exact Hx].
    apply In_found. exists part. exact Hv.
Qed.

Lemma In_tokenOf st q val x :
  In x (tokenOf st q val) <->
  excluded st val = false
  /\ (mark q = None \/ contains (mark q) "match" = true)
  /\ x = mkDecoRange (vfrom val) (vto val)
           (Decoration.mark (class q)
              (Some [("data-contents", JS.trim (sliceDoc st (vfrom val) (vto val)))])).
Proof.
  unfold tokenOf. destruct (excluded st val); [simpl; intuition congruence|].
  destruct (marksMatch q) eqn:E.
  - apply marksMatch_true in E. simpl.
    split; [intros [H|[]]; auto|intros [_ [_ H]]; auto].
  - simpl. split; [contradiction|]. intros [_ [H _]].
    apply marksMatch_true in H. congruence.
Qed.

Lemma In_widgetsOf st q val x :
  In x (widgetsOf st q val) <->
  excluded st val = false
  /\ ((contains (mark q) "start" = true
       /\ x = mkDecoRange (vfrom val) (vfrom val)
                (Decoration.widget (mkIconWidget (Some (class q ++ "-start")%string))))
      \/ (contains (mark q) "end" = true
          /\ x = mkDecoRange (vto val) (vto val)
                   (Decoration.widget (mkIconWidget (Some (class q ++ "-end")%string))))).
Proof.
  unfold widgetsOf. destruct (excluded st val); [simpl; intuition congruence|].
  rewrite in_app_iff.
  destruct (contains (mark q) "start"), (contains (mark q) "end"); simpl;
    intuition congruence.
Qed.

Lemma In_groupOf linePos group x :
  In x (groupOf linePos group) <->
  exists groupFrom groupTo,
    snd group = Some (groupFrom, groupTo) /\ groupFrom < groupTo
    /\ x = mkDecoRange (linePos + groupFrom) (linePos + groupTo)
                       (Decoration.mark (fst group) None).
Proof.
  destruct group as [name [[gf gt]|]]; simpl.
  - destruct (Nat.leb_spec (linePos + gt) (linePos + gf)) as [Hle|Hlt]; simpl.
    + split; [contradiction|]. intros [a [b [H1 [H2 _]]]].
      inversion H1; subst. lia.
    + split.
      * intros [H|[]]. exists gf, gt. split; [reflexivity|]. split; [lia|auto].
      * intros [a [b [H1 [_ H2]]]]. inversion H1; subst. auto.
  - split; [contradiction|]. intros [a [b [H _]]]. discriminate.
Qed.

Lemma In_groupsOf st q val x :
  In x (groupsOf st q val) <->
  excluded st val = false /\ contains (mark q) "group" = true
  /\ exists groups groupName groupFrom groupTo,
      indicesGroups val = Some groups
      /\ In (groupName, Some (groupFrom, groupTo)) groups
      /\ groupFrom < groupTo
      /\ x = mkDecoRange (lineAt_from (doc st) (vfrom val) + groupFrom)
                         (lineAt_from (doc st) (vfrom val) + groupTo)
                         (Decoration.mark groupName None).
Proof.
  unfold groupsOf. destruct (excluded st val); [simpl; intuition congruence|].
  destruct (contains (mark q) "group"); [|simpl; intuition congruence].
  destruct (indicesGroups val) as [groups|].
  - rewrite in_flat_map. split.
    + intros [[name o] [Hin Hx]]. apply In_groupOf in Hx.
      destruct Hx as [gf [gt [Ho [Hlt Hx]]]]. simpl in Ho, Hx. subst o.
      split; [reflexivity|]. split; [reflexivity|].
      exists groups, name, gf, gt. auto.
    + intros [_ [_ [groups' [name [gf [gt [E [Hin [Hlt Hx]]]]]]]]].
      inversion E; subst groups'. exists (name, Some (gf, gt)).
      split; [exact Hin|]. apply In_groupOf. exists gf, gt. auto.
  - simpl. split; [contradiction|].
    intros [_ [_ [groups [name [gf [gt [E _]]]]]]]. discriminate.
Qed.

(** X20.  The token set of a pass that returns, on any cache the pool
    made and an ASCII document: a region is in the token set exactly when
    the loops visit a cursor value whose line is not excluded, of a rule
    without marks or with the mark "match", and the region is the mark of
    the rule's class over the value's span, with the trimmed text of the
    span as its data-contents.  No region of the set is empty. *)
Theorem token_regions (RegExpCursor : RegExpCursorT) (v : View)
        (pool pool' : Pool) (r : Decorations) :
  Sound pool -> JS.isASCII (doc (state v)) = true ->
  getDeco RegExpCursor v pool = (pool', inr r) ->
  (forall x,
      In x (token r) <->
      exists part q val,
        visited (newCursor RegExpCursor (state v)) v part q val
        /\ excluded (state v) val = false
        /\ (mark q = None \/ contains (mark q) "match" = true)
        /\ x = mkDecoRange (vfrom val) (vto val)
                 (Decoration.mark (class q)
                    (Some [("data-contents",
                            JS.trim (sliceDoc (state v) (vfrom val) (vto val)))])))
  /\ (forall x, In x (token r) -> rfrom x < rto x).
Proof.
  intros Hs _ Hrun.
  destruct (getDeco_returned _ _ _ _ _ Hs Hrun) as [Hf [-> _]].
  assert (Hiff : forall x,
    In x (token (passResult (newCursor RegExpCursor (state v)) v)) <->
    exists part q val,
      visited (newCursor RegExpCursor (state v)) v part q val
      /\ excluded (state v) val = false
      /\ (mark q = None \/ contains (mark q) "match" = true)
      /\ x = mkDecoRange (vfrom val) (vto val)
               (Decoration.mark (class q)
                  (Some [("data-contents",
                          JS.trim (sliceDoc (state v) (vfrom val) (vto val)))]))).
  { intros x. cbn [token passResult].
    rewrite sortByFrom_In, (In_per_value tokenOf). split.
    - intros [part [q [val [Hv Hx]]]]. apply In_tokenOf in Hx.
      exists part, q, val. tauto.
    - intros [part [q [val [Hv Hx]]]]. exists part, q, val.
      split; [exact Hv|]. apply In_tokenOf. exact Hx. }
  split; [exact Hiff|].
  intros x Hx. apply Hiff in Hx.
  destruct Hx as [part [q [val [Hv [He [Hm ->]]]]]]. simpl.
  exact (proj1 (failing_false _ _) Hf part q val Hv He Hm).
Qed.

Lemma token_regions_witness :
  exists pool' r,
    getDeco noRegExp todoView [] = (pool', inr r)
    /\ (In (mkDecoRange 9 13
              (Decoration.mark "todo" (Some [("data-contents", "TODO"%string)])))
           (token r))
    /\ (forall x, In x (token r) -> rfrom x < rto x).
Proof.
  destruct (getDeco noRegExp todoView []) as [p [e|r]] eqn:E;
    [vm_compute in E; discriminate|].
  exists p, r. split; [reflexivity|].
  destruct (token_regions noRegExp todoView [] p r Sound_empty eq_refl E)
    as [Hiff Hne].
  split; [|exact Hne]. apply Hiff.
  exists (mkSpan 0 15), todo, (mkValue 9 13 None).
  split; [|split; [reflexivity|split; [right; reflexivity|reflexivity]]].
  split; [left; reflexivity|]. split; [right; left; reflexivity|].
  eexists. split; [reflexivity|]. right. left. reflexivity.
Defined.

(** X21.  The widget set of a pass that returns: a region is in it
    exactly when the loops visit a value whose line is not excluded and
    either the rule has the mark "start" and the region is the empty span
    at the value's start with the widget of class [class-start], or the
    rule has the mark "end" and the region is the empty span at the
    value's end with the widget of class [class-end]. *)
Theorem widget_regions (RegExpCursor : RegExpCursorT) (v : View)
        (pool pool' : Pool) (r : Decorations) :
  Sound pool ->
  getDeco RegExpCursor v pool = (pool', inr r) ->
  forall x,
    In x (widget r) <->
    exists part q val,
      visited (newCursor RegExpCursor (state v)) v part q val
      /\ excluded (state v) val = false
      /\ ((contains (mark q) "start" = true
           /\ x = mkDecoRange (vfrom val) (vfrom val)
                    (Decoration.widget
                       (mkIconWidget (Some (class q ++ "-start")%string))))
          \/ (contains (mark q) "end" = true
              /\ x = mkDecoRange (vto val) (vto val)
                       (Decoration.widget
                          (mkIconWidget (Some (class q ++ "-end")%string))))).
Proof.
  intros Hs Hrun.
  destruct (getDeco_returned _ _ _ _ _ Hs Hrun) as [_ [-> _]].
  intros x. cbn [widget passResult].
  rewrite sortByFrom_In, (In_per_value widgetsOf). split.
  - intros [part [q [val [Hv Hx]]]]. apply In_widgetsOf in Hx.
    exists part, q, val. tauto.
  - intros [part [q [val [Hv Hx]]]]. exists part, q, val.
    split; [exact Hv|]. apply In_widgetsOf. exact Hx.
Qed.

Lemma widget_regions_witness :
  exists pool' r,
    getDeco groupCursor groupedView [] = (pool', inr r)
    /\ In (mkDecoRange 6 6 (Decoration.widget (mkIconWidget (Some "todo-end"%string))))
          (widget r).
Proof.
  destruct (getDeco groupCursor groupedView []) as [p [e|r]] eqn:E;
    [vm_compute in E; discriminate|].
  exists p, r. split; [reflexivity|].
  apply (widget_regions groupCursor groupedView [] p r Sound_empty E).
  exists (mkSpan 0 15), grouped,
    (mkValue 2 6 (Some [("first", Some (2, 4)); ("second", None);
                        ("third", Some (4, 6))])).
  split; [|split; [reflexivity|right; split; reflexivity]].
  split; [left; reflexivity|]. split; [left; reflexivity|].
  eexists. split; [reflexivity|]. left. reflexivity.
Defined.

(** X22.  The group set of a pass that returns: a region is in it exactly
    when the loops visit a value whose line is not excluded, of a rule
    with the mark "group", the value's match has a named group with
    indices that is not empty, and the region is the mark of class
    [groupName] without attributes from the line's start plus the group's
    first index to the line's start plus its second; a group without
    indices and an empty group give nothing.  When no rule is a regular
    expression the group set is empty. *)
Theorem group_regions (RegExpCursor : RegExpCursorT) (v : View)
        (pool pool' : Pool) (r : Decorations) :
  Sound pool ->
  getDeco RegExpCursor v pool = (pool', inr r) ->
  (forall x,
      In x (group r) <->
      exists part q val groups groupName groupFrom groupTo,
        visited (newCursor RegExpCursor (state v)) v part q val
        /\ excluded (state v) val = false
        /\ contains (mark q) "group" = true
        /\ indicesGroups val = Some groups
        /\ In (groupName, Some (groupFrom, groupTo)) groups
        /\ groupFrom < groupTo
        /\ x = mkDecoRange
                 (lineAt_from (doc (state v)) (vfrom val) + groupFrom)
                 (lineAt_from (doc (state v)) (vfrom val) + groupTo)
                 (Decoration.mark groupName None))
  /\ ((forall q, In q (rules v) -> regex q = false) -> group r = []).
Proof.
  intros Hs Hrun.
  destruct (getDeco_returned _ _ _ _ _ Hs Hrun) as [_ [-> _]].
  cbn [group passResult].
  assert (Hiff : forall x,
    In x (sortByFrom
            (flat_map (fun qv => groupsOf (state v) (fst qv) (snd qv))
                      (found (newCursor RegExpCursor (state v)) v))) <->
    exists part q val groups groupName groupFrom groupTo,
      visited (newCursor RegExpCursor (state v)) v part q val
      /\ excluded (state v) val = false
      /\ contains (mark q) "group" = true
      /\ indicesGroups val = Some groups
      /\ In (groupName, Some (groupFrom, groupTo)) groups
      /\ groupFrom < groupTo
      /\ x = mkDecoRange
               (lineAt_from (doc (state v)) (vfrom val) + groupFrom)
               (lineAt_from (doc (state v)) (vfrom val) + groupTo)
               (Decoration.mark groupName None)).
  { intros x. rewrite sortByFrom_In, (In_per_value groupsOf). split.
    - intros [part [q [val [Hv Hx]]]]. apply In_groupsOf in Hx.
      destruct Hx as [H1 [H2 [groups [name [gf [gt [H3 [H4 [H5 H6]]]]]]]]].
      exists part, q, val, groups, name, gf, gt. auto 10.
    - intros [part [q [val [groups [name [gf [gt
               [Hv [H1 [H2 [H3 [H4 [H5 H6]]]]]]]]]]]]].
      exists part, q, val. split; [exact Hv|]. apply In_groupsOf.
      split; [exact H1|]. split; [exact H2|]. exists groups, name, gf, gt. auto. }
  split; [exact Hiff|]. intros Hlit.
  match goal with |- ?g = [] => destruct g as [|x rest] eqn:Es end;
    [reflexivity|]. exfalso.
  destruct (proj1 (Hiff x) (or_introl eq_refl))
    as [part [q [val [groups [name [gf [gt [Hv [_ [_ [H3 _]]]]]]]]]]].
  destruct Hv as [_ [Hq [values [Hc Hin]]]]. unfold newCursor in Hc.
  rewrite (Hlit q Hq) in Hc. inversion Hc; subst values.
  apply in_map_iff in Hin. destruct Hin as [m [Hm _]]. subst val.
  simpl in H3. discriminate.
Qed.

Lemma group_regions_witness :
  exists pool' r,
    getDeco emptyGroupCursor groupedView [] = (pool', inr r)
    /\ spans (group r) = [(2, 4); (4, 6)]
    /\ In (mkDecoRange 4 6 (Decoration.mark "third" None)) (group r).
Proof.
  destruct (getDeco emptyGroupCursor groupedView []) as [p [e|r]] eqn:E;
    [vm_compute in E; discriminate|].
  exists p, r. split; [reflexivity|]. split.
  - vm_compute in E. inversion E. reflexivity.
  - apply (proj1 (group_regions emptyGroupCursor groupedView [] p r Sound_empty E)).
    exists (mkSpan 0 15), grouped,
      (mkValue 2 6 (Some [("first", Some (2, 4)); ("second", Some (4, 4));
                          ("third", Some (4, 6))])),
      [("first", Some (2, 4)); ("second", Some (4, 4)); ("third", Some (4, 6))],
      "third"%string, 4, 6.
    split; [|split; [reflexivity|split; [reflexivity|split; [reflexivity|]]]].
    + split; [left; reflexivity|]. split; [left; reflexivity|].
      eexists. split; [reflexivity|]. left. reflexivity.
    + split; [right; right; left; reflexivity|]. split; [lia|reflexivity].
Defined.

End StaticRegions.

(* ================================================================== *)
(** ** Line classes *)
(* ================================================================== *)

Module StaticLines.
Import Editor EditorState StaticHighlighter StaticInvariants StaticFacts.
Import PoolModel PoolSpec StaticClosed StaticClosedFacts StaticPass.
Local Open Scope list_scope.

Lemma pushClass_keys pos cls lc k :
  In k (map fst (pushClass pos cls lc)) <-> k = pos \/ In k (map fst lc).
Proof.
  induction lc as [|[p classes] rest IH]; simpl.
  - intuition.
  - destruct (Nat.eqb_spec pos p).
    + subst p. simpl. intuition.
    + destruct (pos <? p); simpl; [intuition|]. rewrite IH. intuition.
Qed.

Lemma above_keys p (lc : list (nat * list string)) :
  Forall (fun b => p < fst b) lc <-> forall k, In k (map fst lc) -> p < k.
Proof.
  rewrite Forall_forall. split.
  - intros H k Hk. apply in_map_iff in Hk. destruct Hk as [e [<- He]]. auto.
  - intros H e He. apply H. apply in_map. exact He.
Qed.

Lemma pushClass_sorted pos cls lc :
  linesSorted lc -> linesSorted (pushClass pos cls lc).
Proof.
  unfold linesSorted. induction lc as [|[p classes] rest IH]; intros [Hs Hn]; simpl.
  - split; [repeat constructor|]. intros e [<-|[]]. discriminate.
  - inversion Hs as [|? ? Hrest Hall]; subst.
    assert (Hn' : forall e, In e rest -> snd e <> [])
      by (intros e He; apply Hn; right; exact He).
    destruct (Nat.eqb_spec pos p).
    + subst p. split.
      * constructor; [exact Hrest|exact Hall].
      * intros e [<-|He]; [|auto]. simpl. destruct classes; discriminate.
    + destruct (Nat.ltb_spec pos p).
      * split.
        -- constructor; [exact Hs|]. constructor; [exact H|].
           apply above_keys. intros k Hk.
           pose proof (proj1 (above_keys p rest) Hall k Hk). simpl in *. lia.
        -- intros e [<-|He]; [discriminate|]. apply Hn. exact He.
      * destruct (IH (conj Hrest Hn')) as [Hs' Hn''].
        split.
        -- constructor; [exact Hs'|]. apply above_keys. intros k Hk.
           apply pushClass_keys in Hk. destruct Hk as [->|Hk]; [simpl; lia|].
           apply (proj1 (above_keys p rest) Hall k Hk).
        -- intros e [<-|He]; [apply (Hn (p, classes)); left; reflexivity|auto].
Qed.

Lemma classesOf_absent pos lc : ~ In pos (map fst lc) -> classesOf pos lc = [].
Proof.
  induction lc as [|[p classes] rest IH]; simpl; [reflexivity|].
  intros H. destruct (Nat.eqb_spec p pos); [tauto|]. apply IH. tauto.
Qed.

Lemma classesOf_pushClass pos cls lc pos' :
  linesSorted lc ->
  classesOf pos' (pushClass pos cls lc)
  = if pos' =? pos then classesOf pos lc ++ [cls] else classesOf pos' lc.
Proof.
  induction lc as [|[p classes] rest IH]; intros [Hs Hn]; simpl.
  - rewrite (Nat.eqb_sym pos pos'). destruct (pos' =? pos); reflexivity.
  - inversion Hs as [|? ? Hrest Hall]; subst.
    destruct (Nat.eqb_spec pos p) as [E|Hne].
    + subst p. simpl. rewrite Nat.eqb_refl. rewrite (Nat.eqb_sym pos pos').
      destruct (pos' =? pos); reflexivity.
    + destruct (Nat.eqb_spec p pos) as [E|_]; [congruence|].
      destruct (Nat.ltb_spec pos p) as [Hlt|Hge].
      * simpl. rewrite (Nat.eqb_sym pos pos').
        destruct (Nat.eqb_spec pos' pos) as [E|Hne']; [|reflexivity].
        subst pos'. destruct (Nat.eqb_spec p pos) as [E|_]; [congruence|].
        rewrite classesOf_absent; [reflexivity|].
        intros Hin. pose proof (proj1 (above_keys p rest) Hall pos Hin). lia.
      * simpl. rewrite IH.
        2:{ split; [exact Hrest|]. intros e He. apply Hn. right. exact He. }
        destruct (Nat.eqb_spec pos' pos) as [E|Hne'].
        -- subst pos'. destruct (Nat.eqb_spec p pos) as [E|_]; [congruence|].
           reflexivity.
        -- reflexivity.
Qed.

Lemma pushClasses_spec contribs : forall lc,
  linesSorted lc ->
  linesSorted (pushClasses contribs lc)
  /\ forall pos, classesOf pos (pushClasses contribs lc)
                 = classesOf pos lc ++ classesAt pos contribs.
Proof.
  induction contribs as [|[p cls] rest IH]; intros lc Hs.
  - split; [exact Hs|]. intros pos. simpl. rewrite app_nil_r. reflexivity.
  - unfold pushClasses. cbn [fold_left fst snd].
    destruct (IH (pushClass p cls lc) (pushClass_sorted p cls lc Hs)) as [H1 H2].
    split; [exact H1|]. intros pos. unfold pushClasses in H2. rewrite H2.
    rewrite classesOf_pushClass by exact Hs. unfold classesAt. cbn [filter fst].
    rewrite (Nat.eqb_sym p pos). destruct (Nat.eqb_spec pos p) as [->|Hne].
    + cbn [map snd]. rewrite <- app_assoc. reflexivity.
    + reflexivity.
Qed.

Lemma In_classesOf lc pos classes :
  linesSorted lc ->
  (In (pos, classes) lc <-> classesOf pos lc = classes /\ classes <> []).
Proof.
  induction lc as [|[p c] rest IH]; intros [Hs Hn].
  - simpl. split; [contradiction|]. intros [H1 H2]. congruence.
  - inversion Hs as [|? ? Hrest Hall]; subst.
    assert (Hr : linesSorted rest)
      by (split; [exact Hrest|intros e He; apply Hn; right; exact He]).
    simpl. split.
    + intros [H|H].
      * inversion H; subst. rewrite Nat.eqb_refl. split; [reflexivity|].
        apply (Hn (pos, classes)). left. reflexivity.
      * destruct (Nat.eqb_spec p pos) as [->|Hne].
        -- exfalso. rewrite Forall_forall in Hall. apply Hall in H. simpl in H. lia.
        -- apply IH; assumption.
    + intros [H1 H2]. destruct (Nat.eqb_spec p pos) as [->|Hne].
      * left. congruence.
      * right. apply IH; auto.
Qed.

Lemma sorted_keys_NoDup (lc : list (nat * list string)) :
  StronglySorted (fun a b => fst a < fst b) lc -> NoDup (map fst lc).
Proof.
  induction 1 as [|a l Hs IH Hall]; simpl; constructor; [|exact IH].
  intros Hin. pose proof (proj1 (above_keys (fst a) l) Hall _ Hin). lia.
Qed.

Lemma linesSorted_nil : linesSorted [].
Proof. split; [constructor|intros e []]. Qed.

(** X23.  The line set of a pass that returns: no two of its regions
    start at the same place, and a region is in it exactly when some
    visited value gave a class to the line at [pos] and the region is the
    empty span at [pos] with the line decoration whose class attribute is
    the classes given to that line, in the order the loops gave them,
    duplicates kept, joined by spaces. *)
Theorem line_regions (RegExpCursor : RegExpCursorT) (v : View)
        (pool pool' : Pool) (r : Decorations) :
  Sound pool ->
  getDeco RegExpCursor v pool = (pool', inr r) ->
  NoDup (map rfrom (line r))
  /\ forall x,
      In x (line r) <->
      exists pos,
        classesAt pos (contributions (newCursor RegExpCursor (state v)) v) <> []
        /\ x = mkDecoRange pos pos
                 (Decoration.line
                    [("class",
                      JS.join " "
                        (classesAt pos
                           (contributions (newCursor RegExpCursor (state v)) v)))]).
Proof.
  intros Hs Hrun.
  destruct (getDeco_returned _ _ _ _ _ Hs Hrun) as [_ [-> _]].
  cbn [line passResult].
  set (contribs := contributions (newCursor RegExpCursor (state v)) v).
  destruct (pushClasses_spec contribs [] linesSorted_nil) as [Hsorted Hcls].
  split.
  - eapply Permutation_NoDup.
    + apply Permutation_map. apply sortByFrom_Permutation.
    + rewrite map_map. simpl. apply sorted_keys_NoDup. apply Hsorted.
  - intros x. rewrite sortByFrom_In, in_map_iff. split.
    + intros [[pos classes] [Hx Hin]]. apply (In_classesOf _ _ _ Hsorted) in Hin.
      destruct Hin as [Hc Hne]. rewrite Hcls in Hc. simpl in Hc. subst classes.
      exists pos. split; [exact Hne|]. symmetry. exact Hx.
    + intros [pos [Hne Hx]]. exists (pos, classesAt pos contribs).
      split; [symmetry; exact Hx|]. apply (In_classesOf _ _ _ Hsorted).
      split; [|exact Hne]. rewrite Hcls. reflexivity.
Qed.

Lemma line_regions_witness :
  exists pool' r,
    getDeco noRegExp todoView [] = (pool', inr r)
    /\ NoDup (map rfrom (line r))
    /\ In (mkDecoRange 7 7 (Decoration.line [("class", "todo"%string)])) (line r).
Proof.
  destruct (getDeco noRegExp todoView []) as [p [e|r]] eqn:E;
    [vm_compute in E; discriminate|].
  exists p, r. split; [reflexivity|].
  destruct (line_regions noRegExp todoView [] p r Sound_empty E) as [Hn Hiff].
  split; [exact Hn|]. apply Hiff. exists 7.
  split; [vm_compute; discriminate|reflexivity].
Defined.

End StaticLines.

(* ================================================================== *)
(** ** Literal rules, and the plugin object *)
(* ================================================================== *)

Module StaticLiteral.
Import Editor EditorState StaticHighlighter StaticInvariants StaticFacts SearchFacts.
Import PoolModel PoolSpec StaticClosed StaticClosedFacts StaticPass StaticRegions.
Local Open Scope list_scope.

Lemma SearchCursor_literal_sound text query from to m :
  In m (SearchCursor text query from to None) ->
  from <= sfrom m /\ sto m <= to /\ sto m = sfrom m + String.length query
  /\ JS.slice text (sfrom m) (sto m) = query.
Proof.
  unfold SearchCursor. destruct query as [|c q]; [contradiction|].
  intros H. apply nextMatches_sound in H.
  destruct H as [H1 [H2 [H3 H4]]]. apply matchesAt_true in H4.
  destruct H4 as [H4 H5]. rewrite H3. repeat split; auto; lia.
Qed.

Lemma SearchCursor_literal_complete text query from to p :
  query <> EmptyString ->
  from <= p -> p + String.length query <= to ->
  JS.slice text p (p + String.length query) = query ->
  exists m, In m (SearchCursor text query from to None)
            /\ sfrom m <= p /\ p < sto m.
Proof.
  unfold SearchCursor. destruct query as [|c q]; [congruence|].
  intros _ Hlo Hhi Heq.
  apply nextMatches_complete; simpl in *; try lia.
  apply matchesAt_true. simpl. auto.
Qed.

(** X24.  In an ASCII document, rules that are not regular expressions
    and whose query is ASCII are searched as they are written, with no
    case folding.  In a pass that returns, every token region is the mark
    of a rule over a span whose trimmed text is its data-contents, and
    when the rule is such a literal rule the span lies inside a visible
    range and its text is the rule's query, character for character.
    Conversely every place of a visible range where the text is the
    query of a literal rule that marks matches is inside a span the
    cursor reports, which holds the query too and is in the token set
    unless its line is excluded. *)
Theorem literal_rules (RegExpCursor : RegExpCursorT) (v : View)
        (pool pool' : Pool) (r : Decorations) :
  Sound pool -> JS.isASCII (doc (state v)) = true ->
  getDeco RegExpCursor v pool = (pool', inr r) ->
  (forall x,
      In x (token r) ->
      exists part q,
        In part (visibleRanges v) /\ In q (rules v)
        /\ value x
           = Decoration.mark (class q)
               (Some [("data-contents",
                       JS.trim (sliceDoc (state v) (rfrom x) (rto x)))])
        /\ (regex q = false -> JS.isASCII (query q) = true ->
            sfrom part <= rfrom x /\ rto x <= sto part
            /\ rto x = rfrom x + String.length (query q)
            /\ sliceDoc (state v) (rfrom x) (rto x) = query q))
  /\ (forall part q p,
        In part (visibleRanges v) -> In q (rules v) ->
        regex q = false -> JS.isASCII (query q) = true ->
        mark q = None \/ contains (mark q) "match" = true ->
        query q <> EmptyString ->
        sfrom part <= p -> p + String.length (query q) <= sto part ->
        sliceDoc (state v) p (p + String.length (query q)) = query q ->
        exists from,
          from <= p /\ p < from + String.length (query q)
          /\ sliceDoc (state v) from (from + String.length (query q)) = query q
          /\ (excluded (state v)
                       (mkValue from (from + String.length (query q)) None)
              = false ->
              In (mkDecoRange from (from + String.length (query q))
                    (Decoration.mark (class q)
                       (Some [("data-contents", JS.trim (query q))])))
                 (token r))).
Proof.
  intros Hs _ Hrun.
  destruct (getDeco_returned _ _ _ _ _ Hs Hrun) as [_ [-> _]].
  cbn [token passResult]. split.
  - intros x Hx. rewrite sortByFrom_In, (In_per_value tokenOf) in Hx.
    destruct Hx as [part [q [val [[Hp [Hq [values [Hc Hin]]]] Hx]]]].
    apply In_tokenOf in Hx. destruct Hx as [_ [_ ->]]. simpl.
    exists part, q. split; [exact Hp|]. split; [exact Hq|].
    split; [reflexivity|]. intros Hlit _. unfold newCursor in Hc.
    rewrite Hlit in Hc. inversion Hc; subst values.
    apply in_map_iff in Hin. destruct Hin as [m [<- Hm]]. simpl.
    apply SearchCursor_literal_sound in Hm. unfold sliceDoc. tauto.
  - intros part q p Hp Hq Hlit _ Hmark Hne Hlo Hhi Htext.
    destruct (SearchCursor_literal_complete (doc (state v)) (query q)
                (sfrom part) (sto part) p Hne Hlo Hhi Htext) as [m [Hm [H1 H2]]].
    destruct (SearchCursor_literal_sound _ _ _ _ _ Hm) as [_ [_ [Hto Hm']]].
    exists (sfrom m). rewrite <- Hto. split; [exact H1|]. split; [exact H2|].
    split; [exact Hm'|]. intros Hex.
    rewrite sortByFrom_In, (In_per_value tokenOf).
    exists part, q, (mkValue (sfrom m) (sto m) None). split.
    + split; [exact Hp|]. split; [exact Hq|]. unfold newCursor. rewrite Hlit.
      eexists. split; [reflexivity|].
      apply (in_map (fun m => mkValue (sfrom m) (sto m) None)). exact Hm.
    + apply In_tokenOf. split; [exact Hex|]. split; [exact Hmark|].
      simpl. unfold sliceDoc. rewrite Hm'. reflexivity.
Qed.

Lemma literal_rules_witness :
  exists pool' r,
    getDeco noRegExp todoView [] = (pool', inr r)
    /\ exists from,
        from <= 9 /\ 9 < from + 4
        /\ sliceDoc (state todoView) from (from + 4) = "TODO"%string
        /\ (excluded (state todoView) (mkValue from (from + 4) None) = false ->
            In (mkDecoRange from (from + 4)
                  (Decoration.mark "todo" (Some [("data-contents", "TODO"%string)])))
               (token r)).
Proof.
  destruct (getDeco noRegExp todoView []) as [p [e|r]] eqn:E;
    [vm_compute in E; discriminate|].
  exists p, r. split; [reflexivity|].
  apply (proj2 (literal_rules noRegExp todoView [] p r Sound_empty eq_refl E)
           (mkSpan 0 15) todo 9).
  - left. reflexivity.
  - right. left. reflexivity.
  - reflexivity.
  - reflexivity.
  - right. reflexivity.
  - discriminate.
  - simpl. lia.
  - simpl. lia.
  - reflexivity.
Defined.

End StaticLiteral.

Module StaticLifecycle.
Import Editor EditorState StaticHighlighter StaticInvariants StaticFacts.
Import PoolModel PoolSpec StaticClosed StaticClosedFacts StaticPass StaticPlugin.
Local Open Scope list_scope.

(** A pass on a sound cache: when it returns, the sets are sorted and
    the cache is sound and of at most 100 entries; when it throws, it
    throws the error of line 198 and the cache is sound. *)
Lemma getDeco_outcome (RegExpCursor : RegExpCursorT) (v : View) (pool : Pool) :
  Sound pool ->
  match getDeco RegExpCursor v pool with
  | (pool', inr r) =>
      Sound pool' /\ List.length pool' <= 100
      /\ Sorted byFrom (line r) /\ Sorted byFrom (group r)
      /\ Sorted byFrom (token r) /\ Sorted byFrom (widget r)
  | (pool', inl e) => Sound pool' /\ e = emptyMarkError
  end.
Proof.
  intros Hs. unfold getDeco.
  destruct (getDecoWith_closed (newCursor RegExpCursor (state v)) v pool Hs)
    as [p [E [Hs' Hle]]].
  rewrite E. destruct (failing (newCursor RegExpCursor (state v)) v).
  - auto.
  - split; [exact Hs'|]. split; [apply Hle; reflexivity|].
    simpl. repeat split; apply sortByFrom_Sorted.
Qed.

Lemma destroy_interval this :
  cleanupInterval (destroy this)
  = match cleanupInterval this with
    | Some timer => if timer =? 0 then Some timer else None
    | None => None
    end.
Proof.
  unfold destroy. destruct (cleanupInterval this) as [t|] eqn:Ei.
  - destruct (t =? 0); [exact Ei|reflexivity].
  - exact Ei.
Qed.

Lemma step_Running (RegExpCursor : RegExpCursorT) e pool this :
  Running pool this ->
  match step RegExpCursor this e pool with
  | (pool', inr this') =>
      Running pool' this'
      /\ cleanupInterval (destroy this') = cleanupInterval (destroy this)
      /\ match e with
         | Destroyed => cleanupInterval this' = cleanupInterval (destroy this)
         | _ => cleanupInterval this' = cleanupInterval this
         end
  | (pool', inl err) => Sound pool' /\ err = emptyMarkError
  end.
Proof.
  intros [Hs [Hle Hp]]. destruct e as [u| |]; simpl.
  - unfold update. destruct (docChanged u || viewportChanged u || reconfigured u).
    + pose proof (getDeco_outcome RegExpCursor (view u) pool Hs) as Ho.
      unfold bind. destruct (getDeco RegExpCursor (view u) pool) as [p [err|r]].
      * exact Ho.
      * destruct Ho as [Hs' [Hle' [H1 [H2 [H3 H4]]]]]. simpl.
        split; [|split; [|reflexivity]].
        -- split; [exact Hs'|]. split; [exact Hle'|]. repeat split; assumption.
        -- rewrite !destroy_interval. reflexivity.
    + simpl. split; [exact (conj Hs (conj Hle Hp))|]. split; reflexivity.
  - destruct (cleanup_spec pool) as [p [E [Hsmall _]]].
    unfold bind. rewrite E. rewrite (Hsmall Hle). simpl.
    split; [exact (conj Hs (conj Hle Hp))|]. split; reflexivity.
  - split; [|split; [|reflexivity]].
    + split; [exact Hs|]. split; [exact Hle|].
      unfold destroy. destruct (cleanupInterval this) as [t|]; [|exact Hp].
      destruct (t =? 0); exact Hp.
    + rewrite !destroy_interval.
      destruct (cleanupInterval this) as [t|]; [|reflexivity].
      destruct (t =? 0) eqn:Et; [rewrite Et|]; reflexivity.
Qed.

Lemma Destroyed_dec events : In Destroyed events \/ ~ In Destroyed events.
Proof.
  induction events as [|e events IH]; [right; intros []|].
  destruct e as [u| |].
  - destruct IH as [H|H]; [left; right; exact H|].
    right. intros [H'|H']; [discriminate|auto].
  - destruct IH as [H|H]; [left; right; exact H|].
    right. intros [H'|H']; [discriminate|auto].
  - left. left. reflexivity.
Qed.

Lemma run_Running (RegExpCursor : RegExpCursorT) events : forall pool this,
  Running pool this ->
  match run RegExpCursor events this pool with
  | (pool', inr this') =>
      Running pool' this'
      /\ cleanupInterval (destroy this') = cleanupInterval (destroy this)
      /\ (In Destroyed events ->
          cleanupInterval this' = cleanupInterval (destroy this))
      /\ (~ In Destroyed events -> cleanupInterval this' = cleanupInterval this)
  | (pool', inl err) => Sound pool' /\ err = emptyMarkError
  end.
Proof.
  unfold run. induction events as [|e events IH]; intros pool this HR.
  - simpl. split; [exact HR|]. split; [reflexivity|].
    split; [intros []|reflexivity].
  - pose proof (step_Running RegExpCursor e pool this HR) as H1.
    cbn [forEach]. unfold bind.
    destruct (step RegExpCursor this e pool) as [p1 [err|this1]]; [exact H1|].
    destruct H1 as [HR1 [Hd1 He1]].
    specialize (IH p1 this1 HR1).
    destruct (forEach (fun e0 this0 => step RegExpCursor this0 e0) events this1 p1)
      as [p2 [err|this2]]; [exact IH|].
    destruct IH as [HR2 [Hd2 [Hin2 Hout2]]].
    split; [exact HR2|]. split; [congruence|]. split.
    + intros Hx. destruct (Destroyed_dec events) as [H|H].
      * rewrite (Hin2 H). exact Hd1.
      * rewrite (Hout2 H). destruct e as [u| |].
        -- exfalso. destruct Hx as [Hx|Hx]; [discriminate|auto].
        -- exfalso. destruct Hx as [Hx|Hx]; [discriminate|auto].
        -- exact He1.
    + intros Hno. rewrite Hout2 by (intros H; apply Hno; right; exact H).
      destruct e as [u| |]; [exact He1|exact He1|].
      exfalso. apply Hno. left. reflexivity.
Qed.

(** X25.  The life of the plugin object, constructed on any cache the
    pool made and then taken through any sequence of view updates, ticks
    of the cleanup timer and calls of [destroy].  As long as no pass
    throws, its four published sets are sorted, and the cache is one the
    pool made with at most 100 entries; its timer handle is the one
    [setInterval] gave as long as [destroy] was not called, and is
    cleared for good once it was (a handle of 0 apart).  The only error
    the plugin ever throws is the [RangeError] of line 198, and the cache
    is still one the pool made when it does. *)
Theorem plugin_lifecycle (RegExpCursor : RegExpCursorT) (timer : nat) (v : View)
        (events : list Event) (pool pool1 : Pool) (this : Plugin) :
  Sound pool ->
  construct RegExpCursor timer v pool = (pool1, inr this) ->
  (forall pool2 this',
      run RegExpCursor events this pool1 = (pool2, inr this') ->
      published this' /\ Sound pool2 /\ List.length pool2 <= 100
      /\ (~ In Destroyed events -> cleanupInterval this' = Some timer)
      /\ (In Destroyed events -> timer <> 0 -> cleanupInterval this' = None))
  /\ (forall pool2 err,
        run RegExpCursor events this pool1 = (pool2, inl err) ->
        err = RangeError "Mark decorations may not be empty" /\ Sound pool2).
Proof.
  intros Hs Hc. unfold construct, bind in Hc.
  pose proof (getDeco_outcome RegExpCursor v pool Hs) as Ho.
  destruct (getDeco RegExpCursor v pool) as [p [err|r]]; [discriminate|].
  inversion Hc; subst pool1 this. clear Hc.
  destruct Ho as [Hs1 [Hle1 [H1 [H2 [H3 H4]]]]].
  set (this := mkPlugin (token r) (line r) (group r) (widget r) (Some timer)).
  assert (HR : Running p this).
  { split; [exact Hs1|]. split; [exact Hle1|]. repeat split; assumption. }
  pose proof (run_Running RegExpCursor events p this HR) as Hrun.
  split.
  - intros pool2 this' E. rewrite E in Hrun.
    destruct Hrun as [[Hs2 [Hle2 Hp2]] [_ [Hin Hout]]].
    split; [exact Hp2|]. split; [exact Hs2|]. split; [exact Hle2|]. split.
    + intros Hno. rewrite (Hout Hno). reflexivity.
    + intros Hd Ht. rewrite (Hin Hd). unfold destroy. simpl.
      destruct (Nat.eqb_spec timer 0); [contradiction|reflexivity].
  - intros pool2 err E. rewrite E in Hrun. destruct Hrun as [Hs2 ->].
    split; [reflexivity|exact Hs2].
Qed.

Lemma plugin_lifecycle_witness :
  exists pool1 this pool2 this',
    construct noRegExp 7 todoView [] = (pool1, inr this)
    /\ run noRegExp [Updated selectionOnly; Tick; Updated edited; Destroyed; Tick]
           this pool1
       = (pool2, inr this')
    /\ published this' /\ Sound pool2 /\ List.length pool2 <= 100
    /\ cleanupInterval this' = None.
Proof.
  destruct (construct noRegExp 7 todoView []) as [p1 [e|this]] eqn:E1;
    [vm_compute in E1; discriminate|].
  destruct (run noRegExp [Updated selectionOnly; Tick; Updated edited; Destroyed; Tick]
                this p1) as [p2 [e|this']] eqn:E2.
  { exfalso. vm_compute in E1. inversion E1; subst.
    vm_compute in E2. discriminate. }
  exists p1, this, p2, this'. split; [reflexivity|]. split; [exact E2|].
  destruct (proj1 (plugin_lifecycle noRegExp 7 todoView
                     [Updated selectionOnly; Tick; Updated edited; Destroyed; Tick]
                     [] p1 this Sound_empty E1) p2 this' E2)
    as [Hp [Hs [Hle [_ Hd]]]].
  split; [exact Hp|]. split; [exact Hs|]. split; [exact Hle|].
  apply Hd; [|discriminate]. right. right. right. left. reflexivity.
Defined.

End StaticLifecycle.

(* ================================================================== *)
(** ** Widgets on the page, and updates *)
(* ================================================================== *)

Module StaticRendering.
Import Editor EditorState StaticHighlighter StaticInvariants StaticFacts.
Import PoolModel PoolSpec StaticClosed StaticClosedFacts StaticPass StaticRegions.
Import StaticPlugin.
Local Open Scope list_scope.

Lemma toDOM_suffixed cls suffix :
  suffix <> EmptyString ->
  toDOM (mkIconWidget (Some (cls ++ suffix)%string))
  = mkElement "span" (cls ++ suffix)%string.
Proof.
  intros H. unfold toDOM. simpl.
  destruct cls as [|c cls]; simpl; [|reflexivity].
  destruct suffix; [congruence|reflexivity].
Qed.

(** X26.  What a widget region puts on the page: every region of the
    widget set of a pass that returns is an empty span that carries an
    [IconWidget] of a rule, and [toDOM] renders it as a [span] element
    whose class is the rule's class followed by -start or -end; no widget
    of a pass renders without a class, even for a rule whose class is
    empty. *)
Theorem widgets_render (RegExpCursor : RegExpCursorT) (v : View)
        (pool pool' : Pool) (r : Decorations) :
  Sound pool ->
  getDeco RegExpCursor v pool = (pool', inr r) ->
  forall x,
    In x (widget r) ->
    rfrom x = rto x
    /\ exists w q,
        value x = Decoration.widget w /\ In q (rules v)
        /\ elementClass (toDOM w) <> EmptyString
        /\ (toDOM w = mkElement "span" (class q ++ "-start")%string
            \/ toDOM w = mkElement "span" (class q ++ "-end")%string).
Proof.
  intros Hs Hrun.
  destruct (getDeco_returned _ _ _ _ _ Hs Hrun) as [_ [-> _]].
  intros x. cbn [widget passResult].
  rewrite sortByFrom_In, (In_per_value widgetsOf).
  intros [part [q [val [[_ [Hq _]] Hx]]]]. apply In_widgetsOf in Hx.
  destruct Hx as [_ [[_ ->]|[_ ->]]]; simpl; (split; [reflexivity|]);
    eexists; exists q; (split; [reflexivity|]); (split; [exact Hq|]);
    rewrite toDOM_suffixed by discriminate; simpl.
  - split; [destruct (class q); discriminate|left; reflexivity].
  - split; [destruct (class q); discriminate|right; reflexivity].
Qed.

Lemma widgets_render_witness :
  exists pool' r,
    getDeco groupCursor groupedView [] = (pool', inr r)
    /\ spans (widget r) = [(2, 2); (6, 6)]
    /\ forall x,
        In x (widget r) ->
        rfrom x = rto x
        /\ exists w q,
            value x = Decoration.widget w /\ In q (rules groupedView)
            /\ elementClass (toDOM w) <> EmptyString
            /\ (toDOM w = mkElement "span" (class q ++ "-start")%string
                \/ toDOM w = mkElement "span" (class q ++ "-end")%string).
Proof.
  destruct (getDeco groupCursor groupedView []) as [p [e|r]] eqn:E;
    [vm_compute in E; discriminate|].
  exists p, r. split; [reflexivity|]. split.
  - vm_compute in E. inversion E. reflexivity.
  - apply (widgets_render groupCursor groupedView [] p r Sound_empty E).
Defined.

(** X27.  An update does not depend on the plugin's past.  When the
    document, the viewport or the configuration changed, [update] does
    what the constructor does on the updated view with an empty cache,
    whatever the plugin held and whatever the cache holds: it throws the
    same error, or puts into the four fields exactly the sets the
    constructed plugin would hold, and keeps the timer handle.  When none
    of them changed, plugin and cache stay as they are. *)
Theorem update_is_a_fresh_pass (RegExpCursor : RegExpCursorT) (this : Plugin)
        (u : ViewUpdate) (timer : nat) (pool : Pool) :
  Sound pool ->
  (docChanged u || viewportChanged u || reconfigured u = false ->
   update RegExpCursor this u pool = (pool, inr this))
  /\ (docChanged u || viewportChanged u || reconfigured u = true ->
      snd (update RegExpCursor this u pool)
      = match snd (construct RegExpCursor timer (view u) []) with
        | inr fresh =>
            inr (mkPlugin (decorations fresh) (lineDecorations fresh)
                          (groupDecorations fresh) (widgetDecorations fresh)
                          (cleanupInterval this))
        | inl err => inl err
        end).
Proof.
  intros Hs. unfold update. split; intros Hflag; rewrite Hflag; [reflexivity|].
  unfold construct, getDeco, bind.
  destruct (getDecoWith_closed (newCursor RegExpCursor (state (view u)))
                               (view u) pool Hs) as [p [E _]].
  destruct (getDecoWith_closed (newCursor RegExpCursor (state (view u)))
                               (view u) [] Sound_empty) as [p0 [E0 _]].
  rewrite E, E0.
  destruct (failing (newCursor RegExpCursor (state (view u))) (view u));
    reflexivity.
Qed.

Lemma update_is_a_fresh_pass_witness :
  update noRegExp (mkPlugin [] [] [] [] (Some 7)) selectionOnly
         [(keyOf todoMark, todoMark)]
  = ([(keyOf todoMark, todoMark)], inr (mkPlugin [] [] [] [] (Some 7)))
  /\ snd (update noRegExp (mkPlugin [] [] [] [] (Some 7)) edited
              [(keyOf todoMark, todoMark)])
     = match snd (construct noRegExp 3 todoView []) with
       | inr fresh =>
           inr (mkPlugin (decorations fresh) (lineDecorations fresh)
                         (groupDecorations fresh) (widgetDecorations fresh)
                         (Some 7))
       | inl err => inl err
       end
  /\ exists fresh,
      snd (construct noRegExp 3 todoView []) = inr fresh
      /\ spans (decorations fresh) = [(2, 6); (9, 13)].
Proof.
  split; [|split].
  - apply (proj1 (update_is_a_fresh_pass noRegExp (mkPlugin [] [] [] [] (Some 7))
                                         selectionOnly 7
                                         [(keyOf todoMark, todoMark)] Sound_todo)).
    reflexivity.
  - apply (proj2 (update_is_a_fresh_pass noRegExp (mkPlugin [] [] [] [] (Some 7))
                                         edited 3
                                         [(keyOf todoMark, todoMark)] Sound_todo)).
    reflexivity.
  - eexists. split; [vm_compute; reflexivity|reflexivity].
Defined.

End StaticRendering.
